(** * Trie autocomplete visualizer: the prefix-tree engine and its layout

    A shallow embedding of [Trie], [TrieNode] and
    [TrieVisualizer.calculate_node_positions] of [Autocomplete_app.py],
    followed by the properties of insertion, bounded search, path and
    subtree marking and layout.  Also embedded are [Trie.get_all_nodes],
    [TextBox], the state of [AutocompleteApp] with [update_autocomplete],
    and what the drawing methods of [TrieVisualizer] select from a node.

    Modelling conventions.
    - A Python [str] is a [string] of ASCII characters and [str.lower] is
      the ASCII case folding (a character above 127 is left as it is; the
      proofs use of [lower] only that it is idempotent); strings compare
      by character code; Python [int] is [Z]; [//] is [Z.div] (floor).
    - A [dict] is an association list in insertion order.  Python keeps
      dict keys unique; lookups and updates here act on the first entry of
      a key, so that on key-unique lists they are the dict operations.
    - Nodes are mutable objects owned by exactly one parent, so a tree of
      objects is a tree of values and an in-place update of a node is the
      replacement of that node in its parent's dict, at the same slot. *)

From Stdlib Require Import List String Ascii ZArith NArith Bool Arith Lia.
From Stdlib Require Import Sorting.Sorted Sorting.Permutation.
Import ListNotations.

#[local] Open Scope string_scope.
#[local] Open Scope list_scope.

#[local] Unset Elimination Schemes.

(* ------------------------------------------------------------------ *)
(** ** Python built-ins used by the program *)

(** [str.lower] on one ASCII character: 'A'..'Z' are moved to 'a'..'z'. *)
Definition lower_char (c : ascii) : ascii :=
  let n := N_of_ascii c in
  if (65 <=? n)%N && (n <=? 90)%N then ascii_of_N (n + 32) else c.

Fixpoint lower (s : string) : string :=
  match s with
  | EmptyString => EmptyString
  | String c s' => String (lower_char c) (lower s')
  end.

(** [bool(w)] for a string: it is not empty. *)
Definition nonempty (w : string) : bool := negb (String.eqb w "").

(** [s + c] for a string and a character. *)
Definition snoc (s : string) (c : ascii) : string := s ++ String c EmptyString.

Section Dict.
Context {V : Type}.

(** [d[k]], or [None] when [k not in d]. *)
Fixpoint dict_get (k : ascii) (d : list (ascii * V)) : option V :=
  match d with
  | [] => None
  | (k', v) :: d' => if Ascii.eqb k k' then Some v else dict_get k d'
  end.

(** [d[k] = v]: an existing key keeps its slot, a new key goes last. *)
Fixpoint dict_set (k : ascii) (v : V) (d : list (ascii * V)) : list (ascii * V) :=
  match d with
  | [] => [(k, v)]
  | (k', v') :: d' =>
      if Ascii.eqb k k' then (k, v) :: d' else (k', v') :: dict_set k v d'
  end.

Definition values (d : list (ascii * V)) : list V := map snd d.
End Dict.

Section Sorting.
Context {A : Type} (leb : A -> A -> bool).

Fixpoint insert_sorted (a : A) (l : list A) : list A :=
  match l with
  | [] => [a]
  | b :: l' => if leb a b then a :: l else b :: insert_sorted a l'
  end.

(** [sorted(l, key=...)]: a stable sort, [leb] comparing the keys. *)
Definition sorted_by (l : list A) : list A := fold_right insert_sorted [] l.
End Sorting.

(** [enumerate(l)]: every element with its index. *)
Definition enumerate {A : Type} (l : list A) : list (nat * A) :=
  combine (seq 0 (List.length l)) l.

(** What a call does: it returns a value or raises [TypeError]. *)
Inductive outcome (A : Type) : Type :=
| Returns (a : A)
| Raises_TypeError.
Arguments Returns {A} a.
Arguments Raises_TypeError {A}.

(* ------------------------------------------------------------------ *)
(** ** class TrieNode *)

Inductive TrieNode : Type := mkTrieNode {
  char : ascii;
  children : list (ascii * TrieNode);
  is_end_of_word : bool;
  word : option string;
  x : Z;
  y : Z;
  is_path_node : bool;
  is_in_subtree : bool }.

(** [TrieNode(char)] *)
Definition TrieNode_init (c : ascii) : TrieNode :=
  mkTrieNode c [] false None 0 0 false false.

Definition set_children (node : TrieNode) (cs : list (ascii * TrieNode)) : TrieNode :=
  mkTrieNode (char node) cs (is_end_of_word node) (word node)
             (x node) (y node) (is_path_node node) (is_in_subtree node).

(** [node.is_end_of_word = True; node.word = w] *)
Definition set_word (node : TrieNode) (w : string) : TrieNode :=
  mkTrieNode (char node) (children node) true (Some w)
             (x node) (y node) (is_path_node node) (is_in_subtree node).

(** [node.is_path_node = True] *)
Definition set_path_node (node : TrieNode) : TrieNode :=
  mkTrieNode (char node) (children node) (is_end_of_word node) (word node)
             (x node) (y node) true (is_in_subtree node).

(** Induction on a node, with the hypothesis for every child. *)
Section TrieNode_induction.
Variable P : TrieNode -> Prop.
Hypothesis step : forall c cs e w px py pf sf,
    Forall (fun kc => P (snd kc)) cs -> P (mkTrieNode c cs e w px py pf sf).

Fixpoint TrieNode_ind (node : TrieNode) : P node :=
  match node with
  | mkTrieNode c cs e w px py pf sf =>
      step c cs e w px py pf sf
        ((fix each (l : list (ascii * TrieNode)) : Forall (fun kc => P (snd kc)) l :=
            match l with
            | [] => Forall_nil _
            | kc :: l' => Forall_cons kc (TrieNode_ind (snd kc)) (each l')
            end) cs)
  end.
End TrieNode_induction.

(* ------------------------------------------------------------------ *)
(** ** class Trie *)

Record Trie : Type := mkTrie { root : TrieNode }.

(** [Trie()] *)
Definition Trie_init : Trie := mkTrie (TrieNode_init "*"%char).

(** The loop of [insert] from the node it has reached, [chars] being what
    is left of the word [w]; the two assignments after the loop end it. *)
Fixpoint insert_from (node : TrieNode) (chars w : string) : TrieNode :=
  match chars with
  | EmptyString => set_word node w
  | String c rest =>
      let child := match dict_get c (children node) with
                   | Some child => child
                   | None => TrieNode_init c
                   end in
      set_children node (dict_set c (insert_from child rest w) (children node))
  end.

Definition insert (self : Trie) (w : string) : Trie :=
  match w with
  | EmptyString => self
  | _ => mkTrie (insert_from (root self) (lower w) (lower w))
  end.

(** The lookup loop shared by [get_suggestions] and [highlight_path]:
    [None] when some character has no edge. *)
Fixpoint walk (node : TrieNode) (chars : string) : option TrieNode :=
  match chars with
  | EmptyString => Some node
  | String c rest =>
      match dict_get c (children node) with
      | None => None
      | Some child => walk child rest
      end
  end.

(** [_collect_all_words(node, words, max_words)].  [words] is threaded
    through the calls.  [sorted(node.children.keys())] with the lookup
    [node.children[char]] is the dict entries in key order; the recursive
    call on a child is taken before the entries are put in that order, as
    the function still waiting for [words]. *)
Fixpoint _collect_all_words (node : TrieNode) {struct node}
  : list (option string) -> nat -> list (option string) :=
  fun words max_words =>
    if (max_words <=? List.length words)%nat then words
    else
      let words := if is_end_of_word node then words ++ [word node] else words in
      let calls := map (fun kc => (fst kc, _collect_all_words (snd kc))) (children node) in
      fold_left (fun words call => snd call words max_words)
                (sorted_by (fun a b => Ascii.leb (fst a) (fst b)) calls)
                words.

(** The sort key [(len(x), x)], tuples compared lexicographically. *)
Definition key_leb (a b : string) : bool :=
  (String.length a <? String.length b)%nat
  || ((String.length a =? String.length b)%nat && String.leb a b).

(** [len(x)] raises on [None]: the strings of [l] if all are strings. *)
Fixpoint all_str (l : list (option string)) : option (list string) :=
  match l with
  | [] => Some []
  | None :: _ => None
  | Some s :: l' => option_map (cons s) (all_str l')
  end.

Definition get_suggestions (self : Trie) (prefix : string)
  : outcome (list string * option TrieNode) :=
  match prefix with
  | EmptyString => Returns ([], None)
  | _ =>
      match walk (root self) (lower prefix) with
      | None => Returns ([], None)
      | Some node =>
          match all_str (_collect_all_words node [] 8) with
          | Some suggestions => Returns (sorted_by key_leb suggestions, Some node)
          | None => Raises_TypeError
          end
      end
  end.

Fixpoint _reset_highlights (node : TrieNode) : TrieNode :=
  mkTrieNode (char node)
             (map (fun kc => (fst kc, _reset_highlights (snd kc))) (children node))
             (is_end_of_word node) (word node) (x node) (y node) false false.

Fixpoint _mark_suggestion_subtree (node : TrieNode) : TrieNode :=
  mkTrieNode (char node)
             (map (fun kc => (fst kc, _mark_suggestion_subtree (snd kc))) (children node))
             (is_end_of_word node) (word node) (x node) (y node)
             (is_path_node node) true.

(** The loop of [highlight_path] from the node it has reached, and the
    call of [_mark_suggestion_subtree] after it. *)
Fixpoint highlight_from (node : TrieNode) (chars : string) : TrieNode :=
  match chars with
  | EmptyString => _mark_suggestion_subtree node
  | String c rest =>
      match dict_get c (children node) with
      | None => node
      | Some child =>
          set_children node
            (dict_set c (highlight_from (set_path_node child) rest) (children node))
      end
  end.

Definition highlight_path (self : Trie) (prefix : string) : Trie :=
  let cleared := _reset_highlights (root self) in
  match prefix with
  | EmptyString => mkTrie cleared
  | _ => mkTrie (highlight_from cleared (lower prefix))
  end.

(* ------------------------------------------------------------------ *)
(** ** class TrieVisualizer *)

Definition SCREEN_WIDTH : Z := 1000.

Record TrieVisualizer : Type := mkTrieVisualizer {
  level_height : Z;
  horizontal_spacing : Z;
  start_y : Z;
  draw_area_width : Z }.

(** [TrieVisualizer()] *)
Definition TrieVisualizer_init : TrieVisualizer :=
  mkTrieVisualizer 65 40 100 SCREEN_WIDTH.

(** [get_leaf_count(node)]; [leaf_counts[node]] is this value. *)
Fixpoint get_leaf_count (node : TrieNode) : Z :=
  match children node with
  | [] => 1%Z
  | cs => fold_right Z.add 0%Z (map (fun kc => get_leaf_count (snd kc)) cs)
  end.

(** The loop of [position_node] over [sorted_children]: the [current_x]
    each child is positioned at.  A child is named by its slot in
    [node.children]. *)
Fixpoint assign_x (self : TrieVisualizer) (sorted_children : list (nat * TrieNode))
         (current_x : Z) : list (nat * Z) :=
  match sorted_children with
  | [] => []
  | (i, child) :: rest =>
      (i, current_x)
        :: assign_x self rest
             (current_x + get_leaf_count child * horizontal_spacing self)%Z
  end.

Fixpoint slot_x (i : nat) (xs : list (nat * Z)) : Z :=
  match xs with
  | [] => 0%Z
  | (j, cx) :: xs' => if (i =? j)%nat then cx else slot_x i xs'
  end.

Definition child_leb (a b : nat * TrieNode) : bool :=
  Ascii.leb (char (snd a)) (char (snd b)).

(** [position_node(node, x, y)].  The recursive call on a child is taken
    in its dict slot, as the function still waiting for its [x] and [y];
    the [x] it gets is the [current_x] of the loop over the sorted
    children. *)
Fixpoint position_node (self : TrieVisualizer) (node : TrieNode) {struct node}
  : Z -> Z -> TrieNode :=
  fun px py =>
    let node_width := (get_leaf_count node * horizontal_spacing self)%Z in
    let sorted_children := sorted_by child_leb (enumerate (values (children node))) in
    let xs := assign_x self sorted_children px in
    let calls := map (fun kc => (fst kc, position_node self (snd kc))) (children node) in
    mkTrieNode (char node)
               (map (fun ic => (fst (snd ic),
                                snd (snd ic) (slot_x (fst ic) xs) (py + level_height self)%Z))
                    (enumerate calls))
               (is_end_of_word node) (word node)
               (px + node_width / 2)%Z py
               (is_path_node node) (is_in_subtree node).

Definition calculate_node_positions (self : TrieVisualizer) (trie : Trie) : Trie :=
  let root_leaves := get_leaf_count (root trie) in
  let total_tree_width := (root_leaves * horizontal_spacing self)%Z in
  let start_x := ((draw_area_width self - total_tree_width) / 2)%Z in
  let start_x := if (start_x <? 20)%Z then 20%Z else start_x in
  mkTrie (position_node self (root trie) start_x (start_y self)).

(** [AutocompleteApp.load_initial_words]: the dictionary of the app. *)
Definition initial_words : list string :=
  ["algo"; "aufa"; "alga"; "apple"; "batik"; "batu"; "bata"; "baca";
   "cara"; "cari"; "cuma"; "cat"; "car"; "code"; "coder";
   "data"; "date"; "diskrit"; "fathan"; "hedo"; "zahy"; "zara"; "zebra"].

Definition insert_all (self : Trie) (ws : list string) : Trie :=
  fold_left insert ws self.


(* ------------------------------------------------------------------ *)
(** ** The rest of class Trie *)

(** The number of nodes below [node], itself included. *)
Fixpoint size (node : TrieNode) : nat :=
  S (list_sum (map (fun kc => size (snd kc)) (children node))).

(** The loop [while queue] of [get_all_nodes].  Every iteration takes one
    node off the queue; [fuel] bounds the number of iterations, and the
    result is [None] if the bound is reached with the queue not empty. *)
Fixpoint get_all_nodes_loop (fuel : nat) (queue nodes : list TrieNode)
  : option (list TrieNode) :=
  match queue with
  | [] => Some nodes
  | node :: queue' =>
      match fuel with
      | O => None
      | S fuel' =>
          get_all_nodes_loop fuel' (queue' ++ values (children node)) (nodes ++ [node])
      end
  end.

Definition get_all_nodes (self : Trie) : option (list TrieNode) :=
  get_all_nodes_loop (size (root self)) [root self] [].

(** [sum(1 for node in trie.get_all_nodes() if node.is_end_of_word)], the
    "Total Kata" of [draw_ui_info_and_keterangan]. *)
Definition total_words (trie : Trie) : option nat :=
  option_map (fun nodes => List.length (filter is_end_of_word nodes))
             (get_all_nodes trie).

(* ------------------------------------------------------------------ *)
(** ** class TextBox

    The [rect] of the box is a [pygame.Rect] used for drawing only and is
    left out.  An event is given by the three attributes the code reads. *)

(** [c.isalpha()] and [c.isspace()] on one ASCII character; on a string
    they ask for at least one character and hold of all. *)
Definition char_isalpha (c : ascii) : bool :=
  let n := N_of_ascii c in
  ((65 <=? n)%N && (n <=? 90)%N) || ((97 <=? n)%N && (n <=? 122)%N).

Definition char_isspace (c : ascii) : bool :=
  let n := N_of_ascii c in
  ((9 <=? n)%N && (n <=? 13)%N) || ((28 <=? n)%N && (n <=? 32)%N).

Fixpoint all_chars (p : ascii -> bool) (s : string) : bool :=
  match s with
  | EmptyString => true
  | String c s' => p c && all_chars p s'
  end.

Definition isalpha (s : string) : bool := nonempty s && all_chars char_isalpha s.
Definition isspace (s : string) : bool := nonempty s && all_chars char_isspace s.

(** [s[:-1]] *)
Fixpoint drop_last (s : string) : string :=
  match s with
  | EmptyString => EmptyString
  | String c EmptyString => EmptyString
  | String c s' => String c (drop_last s')
  end.

(** [s.strip()] *)
Fixpoint lstrip (s : string) : string :=
  match s with
  | EmptyString => EmptyString
  | String c s' => if char_isspace c then lstrip s' else s
  end.

Fixpoint rstrip (s : string) : string :=
  match s with
  | EmptyString => EmptyString
  | String c s' =>
      match rstrip s' with
      | EmptyString => if char_isspace c then EmptyString else String c EmptyString
      | r => String c r
      end
  end.

Definition strip (s : string) : string := rstrip (lstrip s).

Inductive event_type : Type := KEYDOWN | MOUSEBUTTONDOWN | QUIT | OTHER_EVENT.
Inductive key_code : Type := K_BACKSPACE | K_RETURN | OTHER_KEY.

Record Event : Type := mkEvent {
  type : event_type;
  key : key_code;
  unicode : string }.

Record TextBox : Type := mkTextBox {
  text : string;
  cursor_timer : Z }.

(** [TextBox(x, y, width, height)] *)
Definition TextBox_init : TextBox := mkTextBox EmptyString 0.

(** [handle_event(event)]: the box after the call and the value returned. *)
Definition handle_event (self : TextBox) (event : Event) : TextBox * bool :=
  match type event with
  | KEYDOWN =>
      match key event with
      | K_BACKSPACE => (mkTextBox (drop_last (text self)) (cursor_timer self), true)
      | K_RETURN => (self, false)
      | OTHER_KEY =>
          if (String.length (text self) <? 25)%nat then
            if isalpha (unicode event) || isspace (unicode event) then
              (mkTextBox (text self ++ unicode event) (cursor_timer self), true)
            else (self, false)
          else (self, false)
      end
  | _ => (self, false)
  end.

(** [update()] *)
Definition update (self : TextBox) : TextBox :=
  let cursor_timer := (cursor_timer self + 1)%Z in
  mkTextBox (text self) (if (30 <=? cursor_timer)%Z then 0%Z else cursor_timer).

Definition get_text (self : TextBox) : string := strip (text self).

Definition set_text (self : TextBox) (text : string) : TextBox :=
  mkTextBox text (cursor_timer self).

(* ------------------------------------------------------------------ *)
(** ** class AutocompleteApp

    Of the attributes, the screen, the clock, [running] and
    [suggestion_rect] belong to the window and are left out. *)

Record AutocompleteApp : Type := mkAutocompleteApp {
  trie : Trie;
  visualizer : TrieVisualizer;
  textbox : TextBox;
  current_suggestions : list string }.

(** [load_initial_words()] *)
Definition load_initial_words (self : AutocompleteApp) : AutocompleteApp :=
  mkAutocompleteApp (insert_all (trie self) initial_words)
                    (visualizer self) (textbox self) (current_suggestions self).

(** [AutocompleteApp()] *)
Definition AutocompleteApp_init : AutocompleteApp :=
  let app := load_initial_words
               (mkAutocompleteApp Trie_init TrieVisualizer_init TextBox_init []) in
  mkAutocompleteApp (calculate_node_positions (visualizer app) (trie app))
                    (visualizer app) (textbox app) (current_suggestions app).

(** [update_autocomplete()]; an exception of [get_suggestions] goes
    through, before anything is assigned. *)
Definition update_autocomplete (self : AutocompleteApp) : outcome AutocompleteApp :=
  let prefix := get_text (textbox self) in
  match get_suggestions (trie self) prefix with
  | Returns (suggestions, _) =>
      Returns (mkAutocompleteApp (highlight_path (trie self) prefix)
                                 (visualizer self) (textbox self) suggestions)
  | Raises_TypeError => Raises_TypeError
  end.

(* ------------------------------------------------------------------ *)
(** ** Drawing: what [TrieVisualizer] selects and assigns

    The calls of [pygame.draw] write to the screen; modelled here are the
    values the drawing methods select from a node before they draw, and
    the assignment [draw_structure] makes to the root. *)

Definition RGB : Type := (Z * Z * Z)%type.
Definition WHITE : RGB := (255, 255, 255)%Z.
Definition BLACK : RGB := (0, 0, 0)%Z.
Definition BLUE : RGB := (66, 133, 244)%Z.
Definition GREEN : RGB := (52, 168, 83)%Z.
Definition HIGHLIGHT_COLOR : RGB := (255, 235, 59)%Z.
Definition EDGE_COLOR : RGB := (180, 180, 180)%Z.

Inductive font : Type := FONT_SMALL | FONT_MEDIUM | FONT_INPUT.

(** [color, border_color, border_width] of [_draw_node]. *)
Definition node_style (node : TrieNode) : RGB * RGB * Z :=
  if is_path_node node then (HIGHLIGHT_COLOR, BLUE, 3%Z)
  else if is_in_subtree node then ((220, 255, 220)%Z, GREEN, 2%Z)
  else (WHITE, BLACK, 1%Z).

(** [color, width] of [_draw_edges] for the edge to [child]. *)
Definition edge_style (child : TrieNode) : RGB * Z :=
  if is_path_node child then (BLUE, 3%Z)
  else if is_in_subtree child then (GREEN, 2%Z)
  else (EDGE_COLOR, 1%Z).

(** [font] of [_draw_node]. *)
Definition node_font (node : TrieNode) : font :=
  if Ascii.eqb (char node) "R" then FONT_MEDIUM else FONT_SMALL.

(** The tree after [draw_structure]: a root without children is put at
    the middle of the screen. *)
Definition draw_structure (self : TrieVisualizer) (trie : Trie) : Trie :=
  match children (root trie) with
  | [] =>
      mkTrie (mkTrieNode (char (root trie)) (children (root trie))
                         (is_end_of_word (root trie)) (word (root trie))
                         (SCREEN_WIDTH / 2)%Z (start_y self)
                         (is_path_node (root trie)) (is_in_subtree (root trie)))
  | _ => trie
  end.

(* ------------------------------------------------------------------ *)
(** ** Vocabulary of the properties *)

(** Every node below [node] (inclusive) with the string of edge
    characters leading to it, [path] being the one that leads to [node]. *)
Fixpoint nodes_from (node : TrieNode) (path : string) {struct node}
  : list (string * TrieNode) :=
  (path, node)
    :: flat_map (fun kc => nodes_from (snd kc) (snoc path (fst kc))) (children node).

Definition all_nodes (t : Trie) : list (string * TrieNode) :=
  nodes_from (root t) EmptyString.

(** The coordinates and the flags of every node, by path. *)
Definition positions (t : Trie) : list (string * (Z * Z)) :=
  map (fun qn => (fst qn, (x (snd qn), y (snd qn)))) (all_nodes t).

Definition flags (t : Trie) : list (string * (bool * bool)) :=
  map (fun qn => (fst qn, (is_path_node (snd qn), is_in_subtree (snd qn))))
      (all_nodes t).

Definition both_flags (n : TrieNode) : bool := is_path_node n && is_in_subtree n.

Definition no_flag (n : TrieNode) : bool :=
  negb (is_path_node n) && negb (is_in_subtree n).

(** No node of the tree has a flag set. *)
Definition all_clear (t : Trie) : bool :=
  forallb (fun qn => no_flag (snd qn)) (all_nodes t).

(** The words stored at the terminal nodes below [node], without a cap. *)
Definition subtree_words (node : TrieNode) : list (option string) :=
  map (fun qn => word (snd qn))
      (filter (fun qn => is_end_of_word (snd qn)) (nodes_from node EmptyString)).

(** Every terminal node has a word. *)
Definition words_present (node : TrieNode) : bool :=
  forallb (fun qn => implb (is_end_of_word (snd qn))
                           (match word (snd qn) with Some _ => true | None => false end))
          (nodes_from node EmptyString).

(** The word of a terminal node is the lowercase string of the edge
    characters that lead to it. *)
Definition word_is_path (qn : string * TrieNode) : bool :=
  implb (is_end_of_word (snd qn))
        (match word (snd qn) with
         | Some w => String.eqb w (fst qn) && String.eqb (lower (fst qn)) (fst qn)
         | None => false
         end).

Definition word_invariant (t : Trie) : bool := forallb word_is_path (all_nodes t).

(** The operations of the engine that change the tree; [get_suggestions]
    and [get_all_nodes] only read it. *)
Inductive operation : Type :=
| Insert (w : string)
| HighlightPath (prefix : string)
| CalculateNodePositions (vis : TrieVisualizer).

Definition run (t : Trie) (op : operation) : Trie :=
  match op with
  | Insert w => insert t w
  | HighlightPath prefix => highlight_path t prefix
  | CalculateNodePositions vis => calculate_node_positions vis t
  end.

(** [(len(a), a) <= (len(b), b)] *)
Definition key_le (a b : string) : Prop := key_leb a b = true.

(** The dictionary a tree holds: the tree without its coordinates and
    flags. *)
Fixpoint content (node : TrieNode) : TrieNode :=
  mkTrieNode (char node)
             (map (fun kc => (fst kc, content (snd kc))) (children node))
             (is_end_of_word node) (word node) 0 0 false false.

(** Every terminal node holds the string of its path, the lowercasing of
    one of the words [seen]. *)
Definition from_words (seen : list string) (t : Trie) : Prop :=
  forall q n, In (q, n) (all_nodes t) -> is_end_of_word n = true ->
              word n = Some q /\ exists w0, In w0 seen /\ q = lower w0.

(** No node strictly below [node] has a flag set. *)
Definition clear_below (node : TrieNode) : Prop :=
  forall k child path q n,
    In (k, child) (children node) -> In (q, n) (nodes_from child path) ->
    no_flag n = true.

(** The width of the span allotted to a node. *)
Definition span_width (vis : TrieVisualizer) (n : TrieNode) : Z :=
  (get_leaf_count n * horizontal_spacing vis)%Z.

(** Spans, each given by its node and its left end, that lie one after
    the other from [lo] to [hi] without a gap. *)
Fixpoint abut (vis : TrieVisualizer) (lo hi : Z) (l : list (TrieNode * Z)) : Prop :=
  match l with
  | [] => lo = hi
  | (c, s) :: r => s = lo /\ abut vis (lo + span_width vis c)%Z hi r
  end.

Definition char_le (a b : TrieNode * Z) : Prop :=
  Ascii.leb (char (fst a)) (char (fst b)) = true.

(** [laid_out vis n sx depth]: the node [n], at [depth] below the root,
    and all nodes below it are placed as the layout promises when [n] is
    allotted the span that starts at [sx].  [spans] are the left ends of
    the sub-spans of the children, in dict order; [order] lists the
    children with their sub-spans from left to right. *)
Inductive laid_out (vis : TrieVisualizer) : TrieNode -> Z -> nat -> Prop :=
| laid_out_node (n : TrieNode) (sx : Z) (depth : nat)
                (spans : list Z) (order : list (TrieNode * Z)) (hi : Z) :
    x n = (sx + span_width vis n / 2)%Z ->
    (sx <= x n < sx + span_width vis n)%Z ->
    y n = (start_y vis + Z.of_nat depth * level_height vis)%Z ->
    Forall2 (fun kc s => laid_out vis (snd kc) s (S depth)) (children n) spans ->
    Permutation order (combine (values (children n)) spans) ->
    StronglySorted char_le order ->
    abut vis sx hi order ->
    (children n <> [] -> hi = (sx + span_width vis n)%Z) ->
    (forall c1 s1 c2 s2,
        In (c1, s1) (combine (values (children n)) spans) ->
        In (c2, s2) (combine (values (children n)) spans) ->
        Ascii.ltb (char c1) (char c2) = true ->
        (s1 + span_width vis c1 <= s2)%Z /\ (x c1 < x c2)%Z) ->
    laid_out vis n sx depth.

(** Where the loop over the sorted children ends. *)
Fixpoint end_x (self : TrieVisualizer) (sorted_children : list (nat * TrieNode))
         (current_x : Z) : Z :=
  match sorted_children with
  | [] => current_x
  | (_, child) :: rest =>
      end_x self rest (current_x + get_leaf_count child * horizontal_spacing self)%Z
  end.

(** Whether the lookup loop, run on [q] from [node], ends on a terminal
    node: [q] is a word of the dictionary below [node]. *)
Definition is_word_from (node : TrieNode) (q : string) : bool :=
  match walk node q with
  | Some n => is_end_of_word n
  | None => false
  end.

Definition is_word (t : Trie) (q : string) : bool := is_word_from (root t) q.


(** No character twice. *)
Fixpoint distinct (l : list ascii) : bool :=
  match l with
  | [] => true
  | a :: l' => negb (existsb (Ascii.eqb a) l') && distinct l'
  end.

(** The dict of a node has distinct keys, and every child is stored
    under its own [char]. *)
Definition keyed_ok (n : TrieNode) : bool :=
  distinct (map fst (children n))
  && forallb (fun kc => Ascii.eqb (char (snd kc)) (fst kc)) (children n).

Definition well_keyed (t : Trie) : bool :=
  forallb (fun qn => keyed_ok (snd qn)) (all_nodes t).

(** The nodes below [node], itself included. *)
Definition descendants (node : TrieNode) : list TrieNode :=
  map snd (nodes_from node EmptyString).

Definition count_terminal (node : TrieNode) : nat :=
  List.length (filter is_end_of_word (descendants node)).

(** The word list of what [get_suggestions] returns. *)
Definition words_of (r : outcome (list string * option TrieNode))
  : outcome (list string) :=
  match r with
  | Returns (ws, _) => Returns ws
  | Raises_TypeError => Raises_TypeError
  end.

(** The box after a run of events. *)
Definition typed (tb : TextBox) (events : list Event) : TextBox :=
  fold_left (fun tb e => fst (handle_event tb e)) events tb.

(** The event carries at most one character. *)
Definition one_char (e : Event) : bool := (String.length (unicode e) <=? 1)%nat.

(** Letters and whitespace only. *)
Definition letters_and_spaces (s : string) : bool :=
  all_chars (fun c => char_isalpha c || char_isspace c) s.

(** Same character, place and flags. *)
Definition same_place (n n' : TrieNode) : Prop :=
  char n' = char n /\ x n' = x n /\ y n' = y n /\
  is_path_node n' = is_path_node n /\ is_in_subtree n' = is_in_subtree n.

(** Every node strictly below [node] has a terminal node at or below it. *)
Definition live_below (node : TrieNode) : Prop :=
  forall k child path q m,
    In (k, child) (children node) -> In (q, m) (nodes_from child path) ->
    (1 <= count_terminal m)%nat.

(** The words below [node] in the order the collection meets them when
    nothing stops it: the word of the node, then the words below each
    child, the children taken in ascending key order. *)
Fixpoint dfs_words (node : TrieNode) : list (option string) :=
  (if is_end_of_word node then [word node] else [])
    ++ flat_map snd
         (sorted_by (fun a b => Ascii.leb (fst a) (fst b))
                    (map (fun kc => (fst kc, dfs_words (snd kc))) (children node))).

(** Strictly ascending in the order of Python's string comparison. *)
Definition lex_lt (a b : string) : Prop := String.ltb a b = true.

Definition opt_lex_lt (a b : option string) : Prop :=
  match a, b with
  | Some u, Some v => lex_lt u v
  | _, _ => False
  end.

(** The strings a run of insertions stores: the words that are not
    empty, lowercased. *)
Definition stored (ws : list string) : list string :=
  map lower (filter nonempty ws).

(* ------------------------------------------------------------------ *)
(** ** Dicts, sorting and strings *)

Section DictFacts.
Context {V : Type}.
Implicit Types (d : list (ascii * V)) (k : ascii) (v : V).

Lemma dict_get_In k v d : dict_get k d = Some v -> In (k, v) d.
Proof.
  induction d as [|[k' v'] d IH]; simpl; [discriminate|].
  destruct (Ascii.eqb_spec k k') as [->|_]; intros E.
  - injection E as ->. now left.
  - right. auto.
Qed.

Lemma dict_get_set_same k v d : dict_get k (dict_set k v d) = Some v.
Proof.
  induction d as [|[k' v'] d IH]; simpl.
  - now rewrite Ascii.eqb_refl.
  - destruct (Ascii.eqb k k') eqn:E; simpl.
    + now rewrite Ascii.eqb_refl.
    + now rewrite E.
Qed.

Lemma dict_set_set k v v' d : dict_set k v (dict_set k v' d) = dict_set k v d.
Proof.
  induction d as [|[k' w] d IH]; simpl.
  - now rewrite Ascii.eqb_refl.
  - destruct (Ascii.eqb k k') eqn:E; simpl.
    + now rewrite Ascii.eqb_refl.
    + now rewrite E, IH.
Qed.

(** An entry of an updated dict is the new one or an old one. *)
Lemma in_dict_set k v d kv : In kv (dict_set k v d) -> kv = (k, v) \/ In kv d.
Proof.
  induction d as [|[k' w] d IH]; simpl.
  - intros [<-|[]]. now left.
  - destruct (Ascii.eqb k k'); simpl; intros [<-|H]; auto.
    destruct (IH H); auto.
Qed.

End DictFacts.

Section SortFacts.
Context {A : Type} (leb : A -> A -> bool).

Lemma insert_sorted_perm a l : Permutation (a :: l) (insert_sorted leb a l).
Proof.
  induction l as [|b l IH]; simpl; [reflexivity|].
  destruct (leb a b); [reflexivity|].
  rewrite perm_swap. now constructor.
Qed.

Lemma sorted_by_perm l : Permutation l (sorted_by leb l).
Proof.
  induction l as [|a l IH]; simpl; [constructor|].
  rewrite <- insert_sorted_perm. now constructor.
Qed.

Lemma sorted_by_In a l : In a (sorted_by leb l) <-> In a l.
Proof.
  split; apply Permutation_in;
    [symmetry|]; apply sorted_by_perm.
Qed.

Lemma sorted_by_length l : List.length (sorted_by leb l) = List.length l.
Proof. symmetry. apply Permutation_length, sorted_by_perm. Qed.

Hypothesis leb_total : forall a b, leb a b = true \/ leb b a = true.
Hypothesis leb_trans : forall a b c, leb a b = true -> leb b c = true -> leb a c = true.

Lemma insert_sorted_sorted a l :
  StronglySorted (fun u v => leb u v = true) l ->
  StronglySorted (fun u v => leb u v = true) (insert_sorted leb a l).
Proof.
  induction 1 as [|b l Hl IH Hb]; simpl.
  - repeat constructor.
  - destruct (leb a b) eqn:E.
    + constructor; [now constructor|].
      constructor; [assumption|].
      rewrite Forall_forall in Hb |- *. eauto.
    + constructor; [assumption|].
      rewrite Forall_forall in Hb |- *. intros u Hu.
      apply (Permutation_in _ (Permutation_sym (insert_sorted_perm a l))) in Hu.
      destruct Hu as [<-|Hu]; [|auto].
      destruct (leb_total a b) as [E'|E']; congruence.
Qed.

Lemma sorted_by_sorted l : StronglySorted (fun u v => leb u v = true) (sorted_by leb l).
Proof.
  induction l as [|a l IH]; simpl; [constructor|].
  now apply insert_sorted_sorted.
Qed.
End SortFacts.

Lemma append_empty_r (s : string) : (s ++ "")%string = s.
Proof. induction s as [|c s IH]; simpl; congruence. Qed.

Lemma append_assoc (a b c : string) : ((a ++ b) ++ c)%string = (a ++ (b ++ c))%string.
Proof. induction a as [|ch a IH]; simpl; congruence. Qed.

Lemma snoc_append (p : string) (c : ascii) (s : string) :
  (snoc p c ++ s)%string = (p ++ String c s)%string.
Proof. unfold snoc. now rewrite append_assoc. Qed.

Lemma prefix_append (p s : string) : String.prefix p (p ++ s) = true.
Proof.
  induction p as [|c p IH]; simpl.
  - now destruct s.
  - destruct (ascii_dec c c); [assumption|congruence].
Qed.

Lemma prefix_inv (p s : string) :
  String.prefix p s = true -> exists r, s = (p ++ r)%string.
Proof.
  revert s. induction p as [|c p IH]; intros s H.
  - now exists s.
  - destruct s as [|c' s]; simpl in H; [discriminate|].
    destruct (ascii_dec c c') as [<-|]; [|discriminate].
    destruct (IH _ H) as [r ->]. now exists r.
Qed.

Lemma append_length (a b : string) :
  String.length (a ++ b) = (String.length a + String.length b)%nat.
Proof. induction a as [|c a IH]; simpl; congruence. Qed.

Lemma prefix_antisym (a b : string) :
  String.prefix a b = true -> String.prefix b a = true -> a = b.
Proof.
  intros Hab Hba.
  destruct (prefix_inv _ _ Hab) as [r ->].
  destruct (prefix_inv _ _ Hba) as [r' E].
  apply (f_equal String.length) in E. rewrite !append_length in E.
  destruct r; [now rewrite append_empty_r|simpl in E; lia].
Qed.

Lemma lower_char_idem (c : ascii) : lower_char (lower_char c) = lower_char c.
Proof.
  unfold lower_char.
  destruct ((65 <=? N_of_ascii c)%N && (N_of_ascii c <=? 90)%N) eqn:E.
  - apply andb_true_iff in E. destruct E as [E1 E2].
    apply N.leb_le in E1, E2.
    rewrite N_ascii_embedding by lia.
    replace (N_of_ascii c + 32 <=? 90)%N with false
      by (symmetry; apply N.leb_gt; lia).
    now rewrite andb_false_r.
  - now rewrite E.
Qed.

Lemma lower_idem (s : string) : lower (lower s) = lower s.
Proof. induction s as [|c s IH]; simpl; [|rewrite lower_char_idem]; congruence. Qed.

(* ------------------------------------------------------------------ *)
(** ** The program on small inputs *)

Example suggestions_initial_words :
  get_suggestions (insert_all Trie_init initial_words) "c"
  = Returns (["car"; "cat"; "cara"; "cari"; "code"; "cuma"; "coder"],
             walk (root (insert_all Trie_init initial_words)) "c").
Proof. reflexivity. Qed.

Example suggestions_no_edge :
  get_suggestions (insert_all Trie_init ["car"]) "zz" = Returns ([], None).
Proof. reflexivity. Qed.

(** Leaf counts 3 and 1 below the root: the tree is 160 wide and starts
    at (1000 - 160) // 2 = 420; 'b' comes before 'c' although it was
    inserted later. *)
Example positions_small :
  positions (calculate_node_positions TrieVisualizer_init
               (insert_all Trie_init ["car"; "cat"; "b"; "cb"]))
  = [("", (500, 100)); ("c", (520, 165)); ("ca", (500, 230));
     ("car", (480, 295)); ("cat", (520, 295)); ("cb", (560, 230));
     ("b", (440, 165))]%Z.
Proof. reflexivity. Qed.

Example flags_full_match :
  flags (highlight_path (insert_all Trie_init ["car"; "cat"; "b"]) "CA")
  = [("", (false, false)); ("c", (true, false)); ("ca", (true, true));
     ("car", (false, true)); ("cat", (false, true)); ("b", (false, false))].
Proof. reflexivity. Qed.

Example flags_mismatch :
  flags (highlight_path (insert_all Trie_init ["car"; "b"]) "cz")
  = [("", (false, false)); ("c", (true, false)); ("ca", (false, false));
     ("car", (false, false)); ("b", (false, false))].
Proof. reflexivity. Qed.

(* ------------------------------------------------------------------ *)
(** ** Nodes and paths *)

Lemma nodes_from_eq (node : TrieNode) (path : string) :
  nodes_from node path
  = (path, node)
      :: flat_map (fun kc => nodes_from (snd kc) (snoc path (fst kc))) (children node).
Proof. now destruct node. Qed.

Lemma in_nodes_from (node : TrieNode) (path q : string) (n : TrieNode) :
  In (q, n) (nodes_from node path) <->
  (q = path /\ n = node) \/
  exists k child, In (k, child) (children node) /\
                  In (q, n) (nodes_from child (snoc path k)).
Proof.
  rewrite nodes_from_eq. simpl. rewrite in_flat_map. split.
  - intros [E|([k child] & Hin & H)].
    + injection E as <- <-. now left.
    + right. now exists k, child.
  - intros [[-> ->]|(k & child & Hin & H)].
    + now left.
    + right. now exists (k, child).
Qed.

Lemma in_nodes_from_top (node : TrieNode) (path : string) :
  In (path, node) (nodes_from node path).
Proof. apply in_nodes_from. now left. Qed.

(** The path of a node below [node] extends the path of [node]. *)
Lemma nodes_from_prefix (node : TrieNode) :
  forall path q n, In (q, n) (nodes_from node path) -> exists r, q = (path ++ r)%string.
Proof.
  induction node as [c cs e w px py pf sf IH] using TrieNode_ind.
  intros path q n H. apply in_nodes_from in H.
  destruct H as [[-> _]|(k & child & Hin & H)].
  - exists ""%string. now rewrite append_empty_r.
  - rewrite Forall_forall in IH.
    destruct (IH _ Hin _ _ _ H) as [r ->].
    exists (String k r). apply snoc_append.
Qed.

(** The nodes below [node] do not depend on the path given to it. *)
Lemma nodes_from_rebase (node : TrieNode) :
  forall p1 p2 q1 n,
    In (q1, n) (nodes_from node p1) -> exists q2, In (q2, n) (nodes_from node p2).
Proof.
  induction node as [c cs e w px py pf sf IH] using TrieNode_ind.
  intros p1 p2 q1 n H. apply in_nodes_from in H.
  destruct H as [[_ ->]|(k & child & Hin & H)].
  - exists p2. apply in_nodes_from_top.
  - rewrite Forall_forall in IH.
    destruct (IH _ Hin _ (snoc p2 k) _ _ H) as [q2 H2].
    exists q2. apply in_nodes_from. right. now exists k, child.
Qed.

(** A node the lookup loop reaches is a node of the tree, and so are the
    nodes below it. *)
Lemma walk_nodes_from (chars : string) :
  forall node path m q n,
    walk node chars = Some m ->
    In (q, n) (nodes_from m (path ++ chars)) ->
    In (q, n) (nodes_from node path).
Proof.
  induction chars as [|c rest IH]; simpl; intros node path m q n Hw Hin.
  - injection Hw as ->. now rewrite append_empty_r in Hin.
  - destruct (dict_get c (children node)) as [child|] eqn:Hc; [|discriminate].
    apply in_nodes_from. right. exists c, child. split.
    + now apply dict_get_In.
    + apply (IH child _ m); [assumption|]. now rewrite snoc_append.
Qed.

(* ------------------------------------------------------------------ *)
(** ** Clearing the flags *)

Lemma reset_no_flag (node : TrieNode) :
  forall path q n,
    In (q, n) (nodes_from (_reset_highlights node) path) -> no_flag n = true.
Proof.
  induction node as [c cs e w px py pf sf IH] using TrieNode_ind.
  intros path q n H. apply in_nodes_from in H.
  destruct H as [[_ ->]|(k & child & Hin & H)]; [reflexivity|].
  simpl in Hin. apply in_map_iff in Hin.
  destruct Hin as ([k0 child0] & E & Hin). injection E as <- <-.
  rewrite Forall_forall in IH. exact (IH _ Hin _ _ _ H).
Qed.

Lemma reset_walk (chars : string) :
  forall node,
    walk (_reset_highlights node) chars
    = option_map _reset_highlights (walk node chars).
Proof.
  induction chars as [|c rest IH]; intros node; [reflexivity|].
  destruct node as [ch cs e w px py pf sf]. simpl.
  induction cs as [|[k child] cs IHcs]; simpl; [reflexivity|].
  destruct (Ascii.eqb c k); [apply IH|apply IHcs].
Qed.

(** C4: for every tree, the empty prefix gets an empty word list and no
    terminating node from [get_suggestions], and [highlight_path] with the
    empty prefix leaves the [is_path_node] and [is_in_subtree] flags of
    every node false. *)
Theorem empty_prefix_contract (t : Trie) :
  get_suggestions t "" = Returns ([], None) /\
  all_clear (highlight_path t "") = true /\
  forall q n, In (q, n) (all_nodes (highlight_path t "")) ->
              is_path_node n = false /\ is_in_subtree n = false.
Proof.
  assert (H : forall q n, In (q, n) (all_nodes (highlight_path t "")) ->
                          no_flag n = true).
  { intros q n Hin. exact (reset_no_flag _ _ _ _ Hin). }
  split; [reflexivity|]. split.
  - apply forallb_forall. intros [q n] Hin. exact (H q n Hin).
  - intros q n Hin. apply H in Hin. unfold no_flag in Hin.
    apply andb_true_iff in Hin. destruct Hin as [H1 H2].
    now rewrite negb_true_iff in H1, H2.
Qed.

(* ------------------------------------------------------------------ *)
(** ** Insertion *)

Lemma insert_from_idem (chars w : string) :
  forall node,
    insert_from (insert_from node chars w) chars w = insert_from node chars w.
Proof.
  induction chars as [|c rest IH]; intros node; simpl.
  - reflexivity.
  - rewrite dict_get_set_same, IH, dict_set_set. reflexivity.
Qed.

Lemma insert_idem (t : Trie) (w : string) : insert (insert t w) w = insert t w.
Proof.
  destruct w as [|c w]; [reflexivity|].
  unfold insert. cbn [root]. now rewrite insert_from_idem.
Qed.

(** C8: insertion is idempotent.  Inserting a word twice, or any number
    of times more, gives the very tree the first insertion gave: the same
    nodes in the same dict slots, with the same terminal flags and the
    same stored words. *)
Theorem insert_idempotent (t : Trie) (w : string) (n : nat) :
  insert (insert t w) w = insert t w /\
  Nat.iter (S n) (fun t' => insert t' w) t = insert t w.
Proof.
  split; [apply insert_idem|].
  induction n as [|n IH]; [reflexivity|].
  change (insert (Nat.iter (S n) (fun t' => insert t' w) t) w = insert t w).
  rewrite IH. apply insert_idem.
Qed.

(* ------------------------------------------------------------------ *)
(** ** Layout: the root *)

Lemma position_node_x (vis : TrieVisualizer) (node : TrieNode) (px py : Z) :
  x (position_node vis node px py)
  = (px + get_leaf_count node * horizontal_spacing vis / 2)%Z.
Proof. now destruct node. Qed.

Lemma position_node_y (vis : TrieVisualizer) (node : TrieNode) (px py : Z) :
  y (position_node vis node px py) = py.
Proof. now destruct node. Qed.

(** C7: with canvas width C = [draw_area_width] and
    W = [get_leaf_count root * horizontal_spacing], the layout puts the
    root at x = max(20, (C - W) // 2) + W // 2 and y = [start_y]; on a
    tree that has only its root, with the visualizer's own constants, that
    is x = 500, the middle of the 1000 pixel canvas, and y = 100. *)
Theorem root_centered (vis : TrieVisualizer) (t : Trie) :
  let W := (get_leaf_count (root t) * horizontal_spacing vis)%Z in
  x (root (calculate_node_positions vis t))
  = (Z.max 20 ((draw_area_width vis - W) / 2) + W / 2)%Z /\
  y (root (calculate_node_positions vis t)) = start_y vis /\
  forall c e w px py pf sf,
    let lone := mkTrie (mkTrieNode c [] e w px py pf sf) in
    let placed := root (calculate_node_positions TrieVisualizer_init lone) in
    x placed = (SCREEN_WIDTH / 2)%Z /\ x placed = 500%Z /\ y placed = 100%Z /\
    children placed = [].
Proof.
  intros W. unfold calculate_node_positions. cbn [root].
  rewrite position_node_x, position_node_y. fold W.
  split; [|split].
  - destruct (Z.ltb_spec ((draw_area_width vis - W) / 2) 20); lia.
  - reflexivity.
  - intros. now vm_compute.
Qed.

(* ------------------------------------------------------------------ *)
(** ** The bounded collection *)

Lemma collect_eq (node : TrieNode) (words : list (option string)) (max_words : nat) :
  _collect_all_words node words max_words
  = if (max_words <=? List.length words)%nat then words
    else
      fold_left (fun words call => snd call words max_words)
                (sorted_by (fun a b => Ascii.leb (fst a) (fst b))
                           (map (fun kc => (fst kc, _collect_all_words (snd kc)))
                                (children node)))
                (if is_end_of_word node then words ++ [word node] else words).
Proof. now destruct node. Qed.

(** What holds of [words] before a call of [_collect_all_words] holds
    after it, if appending the word of a terminal node below [node] to a
    list still under the cap keeps it. *)
Lemma collect_inv (max_words : nat) (Q : list (option string) -> Prop) (node : TrieNode) :
  forall path,
    (forall q n ws, In (q, n) (nodes_from node path) ->
                    is_end_of_word n = true ->
                    (List.length ws < max_words)%nat ->
                    Q ws -> Q (ws ++ [word n])) ->
    forall words, Q words -> Q (_collect_all_words node words max_words).
Proof.
  induction node as [c cs e w px py pf sf IH] using TrieNode_ind.
  intros path Happ words HQ. rewrite collect_eq.
  destruct (Nat.leb_spec max_words (List.length words)) as [_|Hlt]; [assumption|].
  set (node := mkTrieNode c cs e w px py pf sf) in *.
  assert (HQ' : Q (if is_end_of_word node then words ++ [word node] else words)).
  { destruct (is_end_of_word node) eqn:E; [|assumption].
    apply (Happ path); auto using in_nodes_from_top. }
  revert HQ'. generalize (if is_end_of_word node then words ++ [word node] else words).
  assert (Hcalls : forall call,
             In call (sorted_by (fun a b => Ascii.leb (fst a) (fst b))
                                (map (fun kc => (fst kc, _collect_all_words (snd kc)))
                                     (children node))) ->
             forall ws, Q ws -> Q (snd call ws max_words)).
  { intros call Hin ws Hws. apply sorted_by_In, in_map_iff in Hin.
    destruct Hin as ([k child] & <- & Hin). simpl.
    rewrite Forall_forall in IH.
    apply (IH _ Hin (snoc path k)); [|assumption].
    intros q n ws' Hn. apply (Happ q), in_nodes_from. right. now exists k, child. }
  revert Hcalls.
  generalize (sorted_by (fun a b => Ascii.leb (fst a) (fst b))
                        (map (fun kc => (fst kc, _collect_all_words (snd kc)))
                             (children node))).
  intros calls. induction calls as [|call calls IHc]; simpl; intros Hcalls ws Hws.
  - assumption.
  - apply IHc; [intros; apply Hcalls; auto|]. apply Hcalls; auto.
Qed.

Lemma collect_length (node : TrieNode) (words : list (option string)) (max_words : nat) :
  (List.length words <= max_words)%nat ->
  (List.length (_collect_all_words node words max_words) <= max_words)%nat.
Proof.
  apply (collect_inv max_words (fun ws => (List.length ws <= max_words)%nat) node "").
  intros q n ws _ _ Hlt _. rewrite length_app. simpl. lia.
Qed.

(** Every collected word is the word of a terminal node below [node]. *)
Lemma collect_sound (node : TrieNode) (path : string) (max_words : nat) (o : option string) :
  In o (_collect_all_words node [] max_words) ->
  exists q n, In (q, n) (nodes_from node path) /\ is_end_of_word n = true /\ word n = o.
Proof.
  revert o.
  apply (collect_inv max_words
           (fun ws => forall o, In o ws ->
              exists q n, In (q, n) (nodes_from node path) /\
                          is_end_of_word n = true /\ word n = o) node path).
  - intros q n ws Hin He _ Hws o Ho. apply in_app_or in Ho.
    destruct Ho as [Ho|[<-|[]]]; [auto|]. now exists q, n.
  - intros o [].
Qed.

Lemma all_str_Some (l : list (option string)) :
  (forall o, In o l -> o <> None) -> exists l', all_str l = Some l' /\ l = map Some l'.
Proof.
  induction l as [|[s|] l IH]; simpl; intros H.
  - now exists [].
  - destruct IH as (l' & -> & ->); [auto|]. now exists (s :: l').
  - exfalso. now apply (H None); [left|].
Qed.

(** A present-words tree has them present below every node. *)
Lemma words_present_below (node : TrieNode) (path q : string) (n : TrieNode) :
  words_present node = true ->
  In (q, n) (nodes_from node path) ->
  is_end_of_word n = true -> word n <> None.
Proof.
  intros Hp Hin He.
  destruct (nodes_from_rebase _ _ ""%string _ _ Hin) as [q2 H2].
  unfold words_present in Hp. rewrite forallb_forall in Hp.
  specialize (Hp _ H2). simpl in Hp. rewrite He in Hp.
  destruct (word n); [discriminate|discriminate Hp].
Qed.

(* ------------------------------------------------------------------ *)
(** ** The sort key *)

Lemma string_leb_trans (a b c : string) :
  String.leb a b = true -> String.leb b c = true -> String.leb a c = true.
Proof.
  unfold String.leb. revert b c.
  induction a as [|ca a IH]; intros [|cb b] [|cc c]; simpl; try congruence.
  unfold Ascii.compare.
  destruct (N.compare_spec (N_of_ascii ca) (N_of_ascii cb)) as [E1|L1|G1];
    destruct (N.compare_spec (N_of_ascii cb) (N_of_ascii cc)) as [E2|L2|G2];
    destruct (N.compare_spec (N_of_ascii ca) (N_of_ascii cc)) as [E3|L3|G3];
    try congruence; try lia; apply IH.
Qed.

Lemma key_leb_total (a b : string) : key_leb a b = true \/ key_leb b a = true.
Proof.
  unfold key_leb.
  destruct (Nat.ltb_spec (String.length a) (String.length b)); [now left|].
  destruct (Nat.ltb_spec (String.length b) (String.length a)); [now right|].
  replace (String.length b) with (String.length a) by lia.
  rewrite Nat.eqb_refl. simpl. apply String.leb_total.
Qed.

Lemma key_leb_trans (a b c : string) :
  key_leb a b = true -> key_leb b c = true -> key_leb a c = true.
Proof.
  unfold key_leb. intros Hab Hbc.
  apply orb_true_iff in Hab, Hbc. apply orb_true_iff.
  rewrite andb_true_iff, Nat.ltb_lt, Nat.eqb_eq in *.
  destruct Hab as [Hab|[Eab Lab]], Hbc as [Hbc|[Ebc Lbc]];
    [left; lia|left; lia|left; lia|].
  right. split; [lia|]. eapply string_leb_trans; eassumption.
Qed.

(** C3: on a tree whose terminal nodes have their word, [get_suggestions]
    returns, for every prefix, at most 8 words, sorted by length and then
    lexicographically; after inserting exactly "car", "cat" and "cara",
    the prefix "ca" gets ["car"; "cat"; "cara"]. *)
Theorem search_bounded_sorted (t : Trie) (prefix : string)
        (Hwords : words_present (root t) = true) :
  (exists ws node,
      get_suggestions t prefix = Returns (ws, node) /\
      (List.length ws <= 8)%nat /\
      StronglySorted key_le ws) /\
  (exists node,
      get_suggestions (insert_all Trie_init ["car"; "cat"; "cara"]) "ca"
      = Returns (["car"; "cat"; "cara"], Some node)).
Proof.
  split; [|eexists; vm_compute; reflexivity].
  unfold get_suggestions.
  assert (Hnone : exists ws node,
             Returns ([], @None TrieNode) = Returns (ws, node) /\
             (List.length ws <= 8)%nat /\ StronglySorted key_le ws).
  { exists [], None. split; [reflexivity|]. split; [simpl; lia|constructor]. }
  destruct prefix as [|c0 p0]; [exact Hnone|].
  destruct (walk (root t) (lower (String c0 p0))) as [node|] eqn:Hw;
    [clear Hnone|exact Hnone].
  destruct (all_str_Some (_collect_all_words node [] 8)) as (ws & -> & Ews).
  { intros o Ho.
    destruct (collect_sound node (lower (String c0 p0)) 8 o Ho)
      as (q & n & Hin & He & <-).
    apply (words_present_below (root t) ""%string q n Hwords); [|assumption].
    exact (walk_nodes_from _ _ ""%string node _ _ Hw Hin). }
  exists (sorted_by key_leb ws), (Some node). split; [reflexivity|]. split.
  - rewrite sorted_by_length.
    pose proof (collect_length node [] 8 (Nat.le_0_l 8)) as L.
    rewrite Ews, length_map in L. exact L.
  - apply sorted_by_sorted; [apply key_leb_total|apply key_leb_trans].
Qed.

Lemma search_bounded_sorted_witness :
  words_present (root (insert_all Trie_init initial_words)) = true /\
  ((exists ws node,
       get_suggestions (insert_all Trie_init initial_words) "C" = Returns (ws, node) /\
       (List.length ws <= 8)%nat /\
       StronglySorted key_le ws) /\
   (exists node,
       get_suggestions (insert_all Trie_init ["car"; "cat"; "cara"]) "ca"
       = Returns (["car"; "cat"; "cara"], Some node))).
Proof.
  split.
  - vm_compute. reflexivity.
  - apply (search_bounded_sorted (insert_all Trie_init initial_words) "C").
    vm_compute. reflexivity.
Defined.

(** C2: the cap of 8 cuts the collection before the sort.  With the nine
    words "aaa" .. "aah" and "ab" in the tree, the node of the prefix "a"
    has nine words below it and "ab" is least of them under the sort key;
    the collection takes the eight words below the edge 'a' first, in
    ascending character order, and stops, so "ab" is not in what
    [get_suggestions] returns. *)
Theorem cap_before_sort :
  let t := insert_all Trie_init
             ["aaa"; "aab"; "aac"; "aad"; "aae"; "aaf"; "aag"; "aah"; "ab"] in
  let collected := ["aaa"; "aab"; "aac"; "aad"; "aae"; "aaf"; "aag"; "aah"] in
  exists node,
    walk (root t) "a" = Some node /\
    List.length (subtree_words node) = 9%nat /\
    In (Some "ab") (subtree_words node) /\
    (forall w, In (Some w) (subtree_words node) -> key_le "ab" w) /\
    _collect_all_words node [] 8 = map Some collected /\
    get_suggestions t "a" = Returns (collected, Some node) /\
    ~ In "ab" collected.
Proof.
  intros t collected. eexists. split; [vm_compute; reflexivity|].
  split; [vm_compute; reflexivity|].
  split; [vm_compute; tauto|].
  split.
  - intros w Hw. vm_compute in Hw.
    repeat (destruct Hw as [Hw|Hw]; [injection Hw as <-; vm_compute; reflexivity|]).
    destruct Hw.
  - split; [vm_compute; reflexivity|].
    split; [vm_compute; reflexivity|].
    intros H. vm_compute in H.
    repeat (destruct H as [H|H]; [discriminate H|]). exact H.
Qed.

(* ------------------------------------------------------------------ *)
(** ** What marking and layout leave alone *)

Lemma combine_map_r {A B C : Type} (h : B -> C) (l1 : list A) (l2 : list B) :
  combine l1 (map h l2) = map (fun p => (fst p, h (snd p))) (combine l1 l2).
Proof.
  revert l2. induction l1 as [|a l1 IH]; intros [|b l2]; simpl; [reflexivity..|].
  now rewrite IH.
Qed.

Lemma enumerate_map {A B : Type} (h : A -> B) (l : list A) :
  enumerate (map h l) = map (fun ic => (fst ic, h (snd ic))) (enumerate l).
Proof. unfold enumerate. now rewrite length_map, combine_map_r. Qed.

Lemma position_node_children (vis : TrieVisualizer) (node : TrieNode) (px py : Z) :
  children (position_node vis node px py)
  = map (fun ic =>
           (fst (snd ic),
            position_node vis (snd (snd ic))
              (slot_x (fst ic)
                 (assign_x vis (sorted_by child_leb (enumerate (values (children node)))) px))
              (py + level_height vis)%Z))
        (enumerate (children node)).
Proof. destruct node. simpl. now rewrite enumerate_map, map_map. Qed.

Lemma map_combine_ext {A B C : Type} (f g : A * B -> C) (l1 : list A) (l2 : list B) :
  (forall a b, In b l2 -> f (a, b) = g (a, b)) ->
  map f (combine l1 l2) = map g (combine l1 l2).
Proof.
  intros H. apply map_ext_in. intros [a b] Hin. apply H.
  eapply in_combine_r, Hin.
Qed.

Lemma map_snd_combine_seq {A B : Type} (f : A -> B) (l : list A) (s : nat) :
  map (fun ic => f (snd ic)) (combine (seq s (List.length l)) l) = map f l.
Proof.
  revert s. induction l as [|a l IH]; intros s; simpl; [reflexivity|].
  now rewrite IH.
Qed.

Lemma content_eq (node : TrieNode) :
  content node
  = mkTrieNode (char node)
               (map (fun kc => (fst kc, content (snd kc))) (children node))
               (is_end_of_word node) (word node) 0 0 false false.
Proof. now destruct node. Qed.

Lemma content_reset (node : TrieNode) : content (_reset_highlights node) = content node.
Proof.
  induction node as [c cs e w px py pf sf IH] using TrieNode_ind.
  simpl. f_equal. rewrite map_map. apply map_ext_in. intros [k child] Hin.
  rewrite Forall_forall in IH. simpl. f_equal. exact (IH _ Hin).
Qed.

Lemma content_mark (node : TrieNode) :
  content (_mark_suggestion_subtree node) = content node.
Proof.
  induction node as [c cs e w px py pf sf IH] using TrieNode_ind.
  simpl. f_equal. rewrite map_map. apply map_ext_in. intros [k child] Hin.
  rewrite Forall_forall in IH. simpl. f_equal. exact (IH _ Hin).
Qed.

Lemma content_set_path_node (node : TrieNode) : content (set_path_node node) = content node.
Proof. now destruct node. Qed.

Lemma map_dict_set_same {V W : Type} (f : V -> W) (k : ascii) (v v' : V)
      (d : list (ascii * V)) :
  dict_get k d = Some v -> f v' = f v ->
  map (fun kc => (fst kc, f (snd kc))) (dict_set k v' d)
  = map (fun kc => (fst kc, f (snd kc))) d.
Proof.
  intros Hget Hf. induction d as [|[k' u] d IH]; simpl in *; [discriminate|].
  destruct (Ascii.eqb_spec k k') as [->|_]; simpl.
  - injection Hget as ->. now rewrite Hf.
  - now rewrite IH.
Qed.

Lemma content_highlight_from (chars : string) :
  forall node, content (highlight_from node chars) = content node.
Proof.
  induction chars as [|c rest IH]; intros node; simpl.
  - apply content_mark.
  - destruct (dict_get c (children node)) as [child|] eqn:Hc; [|reflexivity].
    rewrite (content_eq (set_children _ _)), (content_eq node). simpl.
    f_equal. apply (map_dict_set_same content c child); [assumption|].
    now rewrite IH, content_set_path_node.
Qed.

Lemma content_position_node (vis : TrieVisualizer) (node : TrieNode) :
  forall px py, content (position_node vis node px py) = content node.
Proof.
  induction node as [c cs e w px0 py0 pf sf IH] using TrieNode_ind.
  intros px py. rewrite content_eq, position_node_children.
  rewrite (content_eq (mkTrieNode _ _ _ _ _ _ _ _)). simpl.
  f_equal. rewrite map_map. unfold enumerate.
  rewrite <- (map_snd_combine_seq (fun kc => (fst kc, content (snd kc))) cs 0).
  apply map_combine_ext. intros i [k child] Hin. simpl. f_equal.
  rewrite Forall_forall in IH. exact (IH _ Hin _ _).
Qed.

Lemma nodes_from_content (node : TrieNode) :
  forall path,
    nodes_from (content node) path
    = map (fun qn => (fst qn, content (snd qn))) (nodes_from node path).
Proof.
  induction node as [c cs e w px py pf sf IH] using TrieNode_ind.
  intros path. rewrite (nodes_from_eq (mkTrieNode _ _ _ _ _ _ _ _)), nodes_from_eq.
  simpl. f_equal.
  induction cs as [|[k child] cs IHcs]; simpl; [reflexivity|].
  rewrite map_app. inversion IH as [|? ? Hc Hcs]; subst. simpl in Hc.
  now rewrite Hc, IHcs.
Qed.

(** Two trees with the same content have, path by path, nodes with the
    same terminal flag and word. *)
Lemma same_content_nodes (m m' : TrieNode) (path q : string) (n : TrieNode) :
  content m' = content m ->
  In (q, n) (nodes_from m' path) ->
  exists n0, In (q, n0) (nodes_from m path) /\
             is_end_of_word n0 = is_end_of_word n /\ word n0 = word n.
Proof.
  intros E Hin.
  apply (in_map (fun qn => (fst qn, content (snd qn)))) in Hin.
  rewrite <- nodes_from_content, E, nodes_from_content in Hin.
  apply in_map_iff in Hin. destruct Hin as ([q0 n0] & E0 & Hin0).
  simpl in E0. injection E0 as -> E0.
  exists n0. split; [assumption|].
  rewrite (content_eq n0), (content_eq n) in E0. now injection E0.
Qed.

(* ------------------------------------------------------------------ *)
(** ** Terminal nodes and their words *)

(** A terminal node after an insertion is the node the word ends at, or
    was a terminal node with the same word before. *)
Lemma insert_from_terminal (chars w : string) :
  forall node path q n,
    In (q, n) (nodes_from (insert_from node chars w) path) ->
    is_end_of_word n = true ->
    (q = (path ++ chars)%string /\ word n = Some w) \/
    exists n0, In (q, n0) (nodes_from node path) /\
               is_end_of_word n0 = true /\ word n0 = word n.
Proof.
  induction chars as [|c rest IH]; intros node path q n Hin He;
    cbn [insert_from] in Hin.
  - apply in_nodes_from in Hin. destruct Hin as [[-> ->]|(k & child & Hc & Hin)].
    + left. now rewrite append_empty_r.
    + right. exists n. split; [|now split].
      apply in_nodes_from. right. now exists k, child.
  - apply in_nodes_from in Hin. destruct Hin as [[-> ->]|(k & child & Hc & Hin)].
    + right. exists node. split; [apply in_nodes_from_top|now split].
    + simpl in Hc. apply in_dict_set in Hc. destruct Hc as [E|Hc].
      * injection E as -> ->.
        destruct (IH _ _ _ _ Hin He) as [[-> Hw]|(n0 & Hin0 & He0 & Hw0)].
        -- left. now rewrite snoc_append.
        -- right. exists n0. split; [|now split].
           destruct (dict_get c (children node)) as [child|] eqn:Hget.
           ++ apply in_nodes_from. right. exists c, child.
              split; [now apply dict_get_In|assumption].
           ++ simpl in Hin0. destruct Hin0 as [E|[]].
              injection E as _ <-. discriminate He0.
      * right. exists n. split; [|now split].
        apply in_nodes_from. right. now exists k, child.
Qed.

(** The node an inserted word ends at is terminal and holds the word. *)
Lemma insert_from_end (chars w : string) :
  forall node path,
    exists n, In ((path ++ chars)%string, n) (nodes_from (insert_from node chars w) path) /\
              walk (insert_from node chars w) chars = Some n /\
              is_end_of_word n = true /\ word n = Some w.
Proof.
  induction chars as [|c rest IH]; intros node path;
    cbn [insert_from walk set_children children].
  - exists (set_word node w). rewrite append_empty_r.
    repeat split. apply in_nodes_from_top.
  - rewrite dict_get_set_same.
    set (child := match dict_get c (children node) with
                  | Some child => child
                  | None => TrieNode_init c
                  end).
    destruct (IH child (snoc path c)) as (n & Hin & Hw & He & Hword).
    exists n. rewrite snoc_append in Hin. repeat split; try assumption.
    apply in_nodes_from. right. exists c, (insert_from child rest w).
    split; [|assumption]. simpl. apply dict_get_In, dict_get_set_same.
Qed.

Lemma word_is_path_same (q : string) (n n0 : TrieNode) :
  is_end_of_word n0 = is_end_of_word n -> word n0 = word n ->
  word_is_path (q, n0) = true -> word_is_path (q, n) = true.
Proof. unfold word_is_path. simpl. now intros -> ->. Qed.

Lemma word_invariant_same_content (t t' : Trie) :
  content (root t') = content (root t) ->
  word_invariant t = true -> word_invariant t' = true.
Proof.
  unfold word_invariant, all_nodes. rewrite !forallb_forall.
  intros E H [q n] Hin.
  destruct (same_content_nodes _ _ _ _ _ E Hin) as (n0 & Hin0 & He & Hw).
  exact (word_is_path_same q n n0 He Hw (H _ Hin0)).
Qed.

Lemma word_invariant_insert (t : Trie) (w : string) :
  word_invariant t = true -> word_invariant (insert t w) = true.
Proof.
  destruct w as [|c w]; [auto|].
  unfold word_invariant, all_nodes, insert. cbn [root]. rewrite !forallb_forall.
  intros H [q n] Hin.
  destruct (is_end_of_word n) eqn:He; [|unfold word_is_path; simpl; now rewrite He].
  destruct (insert_from_terminal _ _ _ _ _ _ Hin He)
    as [[-> Hw]|(n0 & Hin0 & He0 & Hw0)].
  - unfold word_is_path. cbn [fst snd]. rewrite He, Hw. cbn [append implb].
    now rewrite lower_idem, String.eqb_refl.
  - apply (word_is_path_same q n n0); [congruence|assumption|auto].
Qed.

Lemma content_highlight_path (t : Trie) (prefix : string) :
  content (root (highlight_path t prefix)) = content (root t).
Proof.
  unfold highlight_path. destruct prefix; cbn [root].
  - apply content_reset.
  - now rewrite content_highlight_from, content_reset.
Qed.

Lemma word_invariant_run (t : Trie) (op : operation) :
  word_invariant t = true -> word_invariant (run t op) = true.
Proof.
  intros Hinv. destruct op as [w|prefix|vis]; simpl.
  - now apply word_invariant_insert.
  - apply (word_invariant_same_content t); [|assumption].
    apply content_highlight_path.
  - apply (word_invariant_same_content t); [|assumption].
    apply content_position_node.
Qed.

(** C9: every operation of the engine keeps the invariant that the word
    stored at a terminal node is the lowercase string of the edge
    characters on the path from the root to that node; an insertion of a
    non-empty word makes the node at the path of the lowercased word
    terminal, with that word. *)
Theorem word_invariant_preserved (t : Trie) (op : operation)
        (Hinv : word_invariant t = true) :
  word_invariant (run t op) = true /\
  forall w, op = Insert w -> w <> ""%string ->
            exists n, In (lower w, n) (all_nodes (run t op)) /\
                      is_end_of_word n = true /\ word n = Some (lower w).
Proof.
  split; [now apply word_invariant_run|].
  intros w -> Hw. simpl. unfold all_nodes, insert.
  destruct w as [|c w]; [congruence|]. cbn [root].
  destruct (insert_from_end (lower (String c w)) (lower (String c w)) (root t) "")
    as (n & Hin & _ & He & Hword).
  now exists n.
Qed.

Lemma word_invariant_preserved_witness :
  word_invariant (insert_all Trie_init ["car"; "Cat"]) = true /\
  (word_invariant (run (insert_all Trie_init ["car"; "Cat"]) (Insert "CARA")) = true /\
   forall w, Insert "CARA" = Insert w -> w <> ""%string ->
             exists n, In (lower w, n)
                          (all_nodes (run (insert_all Trie_init ["car"; "Cat"])
                                          (Insert "CARA"))) /\
                       is_end_of_word n = true /\ word n = Some (lower w)).
Proof.
  split.
  - vm_compute. reflexivity.
  - apply (word_invariant_preserved (insert_all Trie_init ["car"; "Cat"]) (Insert "CARA")).
    vm_compute. reflexivity.
Defined.

(** The invariant on the new tree and through any run of operations. *)
Lemma word_invariant_init : word_invariant Trie_init = true.
Proof. reflexivity. Qed.

Lemma word_invariant_run_all (ops : list operation) :
  word_invariant (fold_left run ops Trie_init) = true.
Proof.
  generalize word_invariant_init. generalize Trie_init.
  induction ops as [|op ops IH]; simpl; intros t Ht; [assumption|].
  apply IH. now apply word_invariant_run.
Qed.

(** So every tree the engine can build has the words of its terminal
    nodes present, which is what [get_suggestions] needs for its sort. *)
Lemma word_invariant_words_present (t : Trie) :
  word_invariant t = true -> words_present (root t) = true.
Proof.
  unfold word_invariant, words_present, all_nodes. rewrite !forallb_forall.
  intros H qn Hin. specialize (H qn Hin). unfold word_is_path in H.
  destruct (is_end_of_word (snd qn)); [|reflexivity].
  now destruct (word (snd qn)).
Qed.

Lemma words_present_run_all (ops : list operation) :
  words_present (root (fold_left run ops Trie_init)) = true.
Proof. apply word_invariant_words_present, word_invariant_run_all. Qed.

(* ------------------------------------------------------------------ *)
(** ** Soundness of the search *)

Lemma from_words_init : from_words [] Trie_init.
Proof.
  intros q n [E|[]] He. injection E as _ <-. discriminate He.
Qed.

Lemma from_words_insert (seen : list string) (t : Trie) (w : string) :
  from_words seen t -> from_words (seen ++ [w]) (insert t w).
Proof.
  intros H q n Hin He.
  assert (Hold : forall n0, In (q, n0) (all_nodes t) -> is_end_of_word n0 = true ->
                            word n0 = word n ->
                            word n = Some q /\
                            exists w0, In w0 (seen ++ [w]) /\ q = lower w0).
  { intros n0 Hin0 He0 Hw0. destruct (H q n0 Hin0 He0) as [Hq (w0 & Hs & ->)].
    split; [congruence|]. exists w0. split; [apply in_or_app; now left|reflexivity]. }
  destruct w as [|c w]; [now apply (Hold n)|].
  unfold all_nodes, insert in Hin. cbn [root] in Hin.
  destruct (insert_from_terminal _ _ _ _ _ _ Hin He)
    as [[-> Hw]|(n0 & Hin0 & He0 & Hw0)].
  - split; [assumption|]. exists (String c w).
    split; [apply in_or_app; right; now left|reflexivity].
  - now apply (Hold n0).
Qed.

Lemma from_words_insert_all (ws : list string) :
  forall seen t, from_words seen t -> from_words (seen ++ ws) (insert_all t ws).
Proof.
  induction ws as [|w ws IH]; intros seen t H; simpl.
  - now rewrite app_nil_r.
  - replace (seen ++ w :: ws) with ((seen ++ [w]) ++ ws)
      by (now rewrite <- app_assoc).
    apply IH. now apply from_words_insert.
Qed.

(** C10: the search is sound.  After any sequence of insertions into a
    new tree, [get_suggestions] returns, for every prefix, a list every
    word of which begins with the lowercased prefix and is the
    lowercasing of one of the inserted words. *)
Theorem search_sound (ws : list string) (prefix : string) :
  exists res node,
    get_suggestions (insert_all Trie_init ws) prefix = Returns (res, node) /\
    forall w, In w res ->
              String.prefix (lower prefix) w = true /\
              exists w0, In w0 ws /\ w = lower w0.
Proof.
  pose proof (from_words_insert_all ws [] Trie_init from_words_init) as Hinv.
  simpl in Hinv. set (t := insert_all Trie_init ws) in *.
  unfold get_suggestions.
  destruct prefix as [|c0 p0]; [exists [], None; split; [reflexivity|intros w []]|].
  destruct (walk (root t) (lower (String c0 p0))) as [node|] eqn:Hw;
    [|exists [], None; split; [reflexivity|intros w []]].
  assert (Hall : forall o, In o (_collect_all_words node [] 8) ->
                           exists w, o = Some w /\
                                     String.prefix (lower (String c0 p0)) w = true /\
                                     exists w0, In w0 ws /\ w = lower w0).
  { intros o Ho.
    destruct (collect_sound node (lower (String c0 p0)) 8 o Ho)
      as (q & n & Hin & He & <-).
    pose proof (walk_nodes_from _ _ ""%string node _ _ Hw Hin) as Hroot.
    destruct (Hinv q n Hroot He) as [Hq Hw0].
    exists q. split; [assumption|]. split; [|assumption].
    destruct (nodes_from_prefix _ _ _ _ Hin) as [r ->]. apply prefix_append. }
  destruct (all_str_Some (_collect_all_words node [] 8)) as (res & -> & Eres).
  { intros o Ho. destruct (Hall o Ho) as (w & -> & _). discriminate. }
  exists (sorted_by key_leb res), (Some node). split; [reflexivity|].
  intros w Hin. apply sorted_by_In in Hin.
  destruct (Hall (Some w)) as (w' & E & Hp & Hw0).
  - rewrite Eres. now apply in_map.
  - injection E as <-. now split.
Qed.

(* ------------------------------------------------------------------ *)
(** ** Marking the path and the subtree *)

Lemma no_flag_inv (n : TrieNode) :
  no_flag n = true -> is_path_node n = false /\ is_in_subtree n = false.
Proof.
  unfold no_flag. rewrite andb_true_iff, !negb_true_iff. auto.
Qed.

Lemma mark_in_subtree (node : TrieNode) :
  forall path q n,
    In (q, n) (nodes_from (_mark_suggestion_subtree node) path) ->
    is_in_subtree n = true.
Proof.
  induction node as [c cs e w px py pf sf IH] using TrieNode_ind.
  intros path q n H. apply in_nodes_from in H.
  destruct H as [[_ ->]|(k & child & Hin & H)]; [reflexivity|].
  simpl in Hin. apply in_map_iff in Hin.
  destruct Hin as ([k0 child0] & E & Hin). injection E as <- <-.
  rewrite Forall_forall in IH. exact (IH _ Hin _ _ _ H).
Qed.

(** [_mark_suggestion_subtree] leaves [is_path_node] as it is. *)
Lemma mark_path_flag (node : TrieNode) :
  forall path q n,
    In (q, n) (nodes_from (_mark_suggestion_subtree node) path) ->
    exists n0, In (q, n0) (nodes_from node path) /\ is_path_node n0 = is_path_node n.
Proof.
  induction node as [c cs e w px py pf sf IH] using TrieNode_ind.
  intros path q n H. apply in_nodes_from in H.
  destruct H as [[-> ->]|(k & child & Hin & H)].
  - eexists. split; [apply in_nodes_from_top|reflexivity].
  - simpl in Hin. apply in_map_iff in Hin.
    destruct Hin as ([k0 child0] & E & Hin). injection E as <- <-.
    rewrite Forall_forall in IH. destruct (IH _ Hin _ _ _ H) as (n0 & Hin0 & E0).
    exists n0. split; [|assumption].
    apply in_nodes_from. right. now exists k0, child0.
Qed.

Lemma highlight_from_path_top (chars : string) (node : TrieNode) :
  is_path_node (highlight_from node chars) = is_path_node node.
Proof.
  destruct chars as [|c rest]; simpl; [now destruct node|].
  now destruct (dict_get c (children node)).
Qed.

Lemma walk_set_path_node (chars : string) (node : TrieNode) :
  walk (set_path_node node) chars = None <-> walk node chars = None.
Proof. destruct chars; simpl; [split; discriminate|reflexivity]. Qed.

Lemma prefix_empty (q : string) : String.prefix q "" = true -> q = ""%string.
Proof. now destruct q. Qed.

Lemma prefix_cons (q : string) (c : ascii) (rest : string) :
  String.prefix q (String c rest) = true ->
  q = ""%string \/ exists q', q = String c q' /\ String.prefix q' rest = true.
Proof.
  destruct q as [|c' q]; [now left|]. simpl.
  destruct (ascii_dec c' c) as [->|]; [|discriminate].
  right. now exists q.
Qed.

Lemma prefix_cons_same (c : ascii) (q rest : string) :
  String.prefix (String c q) (String c rest) = String.prefix q rest.
Proof. simpl. destruct (ascii_dec c c); congruence. Qed.

(** The nodes the loop of [highlight_path] goes through are marked. *)
Lemma highlight_from_on_path (chars : string) :
  forall node q n,
    q <> ""%string -> String.prefix q chars = true ->
    walk (highlight_from node chars) q = Some n ->
    is_path_node n = true.
Proof.
  induction chars as [|c rest IH]; intros node q n Hq Hp Hw.
  - apply prefix_empty in Hp. contradiction.
  - apply prefix_cons in Hp. destruct Hp as [->|(q' & -> & Hp)]; [contradiction|].
    cbn [highlight_from] in Hw.
    destruct (dict_get c (children node)) as [child|] eqn:Hc.
    + cbn [walk set_children children] in Hw. rewrite dict_get_set_same in Hw.
      destruct q' as [|c' q'].
      * simpl in Hw. injection Hw as <-. now rewrite highlight_from_path_top.
      * apply (IH (set_path_node child) (String c' q') n);
          [discriminate|assumption|assumption].
    + simpl in Hw. now rewrite Hc in Hw.
Qed.

(** On a full match every prefix of the path still leads to a node, and
    the whole path leads to a node all of whose subtree is marked. *)
Lemma highlight_from_walk (chars : string) :
  forall node q,
    walk node chars <> None -> String.prefix q chars = true ->
    exists n, walk (highlight_from node chars) q = Some n.
Proof.
  induction chars as [|c rest IH]; intros node q Hw Hp.
  - apply prefix_empty in Hp. subst q. now eexists.
  - apply prefix_cons in Hp. destruct Hp as [->|(q' & -> & Hp)]; [now eexists|].
    cbn [highlight_from walk] in *.
    destruct (dict_get c (children node)) as [child|] eqn:Hc; [|contradiction].
    cbn [walk set_children children]. rewrite dict_get_set_same.
    apply IH; [|assumption]. now rewrite walk_set_path_node.
Qed.

Lemma highlight_from_end (chars : string) :
  forall node,
    walk node chars <> None ->
    exists term, walk (highlight_from node chars) chars = Some term /\
                 forall path q n, In (q, n) (nodes_from term path) ->
                                  is_in_subtree n = true.
Proof.
  induction chars as [|c rest IH]; intros node Hw.
  - eexists. split; [reflexivity|]. intros path q n. apply mark_in_subtree.
  - cbn [highlight_from walk] in *.
    destruct (dict_get c (children node)) as [child|] eqn:Hc; [|contradiction].
    cbn [walk set_children children]. rewrite dict_get_set_same.
    apply IH. now rewrite walk_set_path_node.
Qed.

(** Where the flags can be after the loop, on a node whose subtree was
    clear before it. *)
Lemma highlight_from_flags (chars : string) :
  forall node path q n,
    clear_below node -> is_in_subtree node = false ->
    In (q, n) (nodes_from (highlight_from node chars) path) ->
    (is_path_node n = true ->
     exists q', q = (path ++ q')%string /\ String.prefix q' chars = true /\
                walk (highlight_from node chars) q' = Some n /\
                (q' = ""%string -> is_path_node node = true)) /\
    (is_in_subtree n = true ->
     walk node chars <> None /\ String.prefix (path ++ chars) q = true).
Proof.
  induction chars as [|c rest IH]; intros node path q n Hclear Hsub Hin.
  - cbn [highlight_from] in Hin. split.
    + intros Hp. destruct (mark_path_flag _ _ _ _ Hin) as (n0 & Hin0 & E0).
      apply in_nodes_from in Hin0. destruct Hin0 as [[-> ->]|(k & child & Hc & Hin0)].
      * apply in_nodes_from in Hin.
        destruct Hin as [[_ ->]|(k & child & Hc & Hin)].
        -- exists ""%string. rewrite append_empty_r. repeat split.
           intros _. congruence.
        -- destruct (nodes_from_prefix _ _ _ _ Hin) as [r E].
           rewrite snoc_append in E. exfalso.
           apply (f_equal String.length) in E. rewrite append_length in E.
           simpl in E. lia.
      * apply (Hclear _ _ _ _ _ Hc), no_flag_inv in Hin0. destruct Hin0. congruence.
    + intros _. split; [discriminate|].
      destruct (nodes_from_prefix _ _ _ _ Hin) as [r ->].
      rewrite append_empty_r. apply prefix_append.
  - cbn [highlight_from walk] in *.
    assert (Hbelow : forall k child, In (k, child) (children node) ->
                       In (q, n) (nodes_from child (snoc path k)) ->
                       is_path_node n = false /\ is_in_subtree n = false).
    { intros k child Hc Hn. exact (no_flag_inv _ (Hclear _ _ _ _ _ Hc Hn)). }
    assert (Htop : forall m : TrieNode,
               is_path_node m = is_path_node node ->
               is_in_subtree m = is_in_subtree node ->
               (is_path_node m = true ->
                exists q', path = (path ++ q')%string /\
                           String.prefix q' (String c rest) = true /\
                           walk m q' = Some m /\
                           (q' = ""%string -> is_path_node node = true)) /\
               (is_in_subtree m = true ->
                (dict_get c (children node) <> None /\
                 match dict_get c (children node) with
                 | Some child => walk child rest
                 | None => None
                 end <> None) /\
                String.prefix (path ++ String c rest) path = true)).
    { intros m Ep Es. split; [|congruence]. intros Hp. exists ""%string.
      rewrite append_empty_r. repeat split. intros _. congruence. }
    destruct (dict_get c (children node)) as [child|] eqn:Hc.
    + apply in_nodes_from in Hin.
      destruct Hin as [[-> ->]|(k & child' & Hc' & Hin)].
      * destruct (Htop (set_children node
                          (dict_set c (highlight_from (set_path_node child) rest)
                                    (children node))) eq_refl eq_refl) as [Hp Hs].
        split; [exact Hp|]. intros H. destruct (Hs H) as [[_ Hw] Hpre]. now split.
      * cbn [set_children children] in Hc'. apply in_dict_set in Hc'.
        destruct Hc' as [E|Hc'].
        -- injection E as -> ->.
           pose proof (dict_get_In _ _ _ Hc) as Hchild.
           destruct (IH (set_path_node child) (snoc path c) q n) as [IHp IHs];
             [| |assumption|].
           { intros k' g p' q0 n0 Hg Hn0.
             destruct (nodes_from_rebase _ _ (snoc "" k') _ _ Hn0) as [q2 H2].
             apply (Hclear c child ""%string q2 n0 Hchild).
             apply in_nodes_from. right. now exists k', g. }
           { apply (no_flag_inv child).
             apply (Hclear c child ""%string ""%string child Hchild), in_nodes_from_top. }
           split.
           ++ intros Hp. destruct (IHp Hp) as (q' & -> & Hpre & Hwalk & _).
              exists (String c q'). rewrite snoc_append, prefix_cons_same.
              repeat split; [assumption| |discriminate].
              cbn [walk set_children children]. now rewrite dict_get_set_same.
           ++ intros Hs. destruct (IHs Hs) as [Hw Hpre].
              rewrite snoc_append in Hpre. split; [|assumption].
              now rewrite walk_set_path_node in Hw.
        -- destruct (Hbelow _ _ Hc' Hin). split; congruence.
    + apply in_nodes_from in Hin. destruct Hin as [[-> ->]|(k & child & Hc' & Hin)].
      * destruct (Htop node eq_refl eq_refl) as [Hp Hs].
        split; [exact Hp|]. intros H. destruct (Hs H) as [[Hn _] _]. congruence.
      * destruct (Hbelow _ _ Hc' Hin). split; congruence.
Qed.

Lemma reset_clear_below (node : TrieNode) : clear_below (_reset_highlights node).
Proof.
  intros k child path q n Hc Hin. destruct node as [c cs e w px py pf sf].
  simpl in Hc. apply in_map_iff in Hc.
  destruct Hc as ([k0 child0] & E & _). injection E as <- <-.
  exact (reset_no_flag _ _ _ _ Hin).
Qed.

Lemma walk_content (chars : string) :
  forall node, walk (content node) chars = option_map content (walk node chars).
Proof.
  induction chars as [|c rest IH]; intros node; [reflexivity|].
  destruct node as [ch cs e w px py pf sf]. simpl.
  induction cs as [|[k child] cs IHcs]; simpl; [reflexivity|].
  destruct (Ascii.eqb c k); [apply IH|apply IHcs].
Qed.

(** Trees with the same content have edges for the same strings. *)
Lemma same_content_walk_none (m m' : TrieNode) (chars : string) :
  content m' = content m -> walk m chars = None -> walk m' chars = None.
Proof.
  intros E H. pose proof (walk_content chars m') as Hw.
  rewrite E, walk_content, H in Hw.
  destruct (walk m' chars); [discriminate Hw|reflexivity].
Qed.

Lemma prefix_refl (s : string) : String.prefix s s = true.
Proof. rewrite <- (append_empty_r s) at 2. apply prefix_append. Qed.

(** C5: after [highlight_path] with a non-empty prefix that matches in
    full, every node on the character path of the prefix, the root
    excluded and the terminating node included, has [is_path_node] true;
    the terminating node and every node of its subtree have
    [is_in_subtree] true; the terminating node is the only node of the
    tree with both flags true; and the root does not have [is_path_node]
    true. *)
Theorem highlight_marks (t : Trie) (prefix : string)
        (Hne : prefix <> ""%string)
        (Hmatch : walk (root t) (lower prefix) <> None) :
  let t' := highlight_path t prefix in
  (forall q, q <> ""%string -> String.prefix q (lower prefix) = true ->
             exists n, walk (root t') q = Some n /\ is_path_node n = true) /\
  (exists term,
      walk (root t') (lower prefix) = Some term /\
      both_flags term = true /\
      forall q n, In (q, n) (nodes_from term (lower prefix)) ->
                  is_in_subtree n = true) /\
  (forall q n, In (q, n) (all_nodes t') -> both_flags n = true ->
               q = lower prefix /\ walk (root t') q = Some n) /\
  is_path_node (root t') = false.
Proof.
  destruct prefix as [|c0 p0]; [contradiction|].
  set (chars := lower (String c0 p0)) in *.
  assert (Hchars : chars <> ""%string) by discriminate.
  unfold highlight_path, all_nodes. cbn [root]. fold chars.
  set (cleared := _reset_highlights (root t)).
  assert (Hw : walk cleared chars <> None).
  { unfold cleared. rewrite reset_walk.
    destruct (walk (root t) chars); [discriminate|contradiction]. }
  split; [|split; [|split]].
  - intros q Hq Hp. destruct (highlight_from_walk chars cleared q Hw Hp) as [n Hn].
    exists n. split; [assumption|].
    exact (highlight_from_on_path chars cleared q n Hq Hp Hn).
  - destruct (highlight_from_end chars cleared Hw) as (term & Hterm & Hall).
    exists term. split; [assumption|]. split; [|intros q n; apply Hall].
    unfold both_flags. apply andb_true_iff. split.
    + exact (highlight_from_on_path chars cleared chars term Hchars
               (prefix_refl chars) Hterm).
    + apply (Hall ""%string ""%string), in_nodes_from_top.
  - intros q n Hin Hboth. unfold both_flags in Hboth.
    apply andb_true_iff in Hboth. destruct Hboth as [Hp Hs].
    destruct (highlight_from_flags chars cleared ""%string q n) as [Fp Fs];
      [apply reset_clear_below|now destruct (root t)|assumption|].
    destruct (Fp Hp) as (q' & -> & Hpre & Hwalk & _).
    destruct (Fs Hs) as [_ Hpre']. simpl in *.
    assert (q' = chars) by now apply prefix_antisym.
    subst q'. now split.
  - rewrite highlight_from_path_top. now destruct (root t).
Qed.

Lemma highlight_marks_witness :
  "Ca"%string <> ""%string /\
  walk (root (insert_all Trie_init ["car"; "cat"])) (lower "Ca") <> None /\
  let t' := highlight_path (insert_all Trie_init ["car"; "cat"]) "Ca" in
  (forall q, q <> ""%string -> String.prefix q (lower "Ca") = true ->
             exists n, walk (root t') q = Some n /\ is_path_node n = true) /\
  (exists term,
      walk (root t') (lower "Ca") = Some term /\
      both_flags term = true /\
      forall q n, In (q, n) (nodes_from term (lower "Ca")) ->
                  is_in_subtree n = true) /\
  (forall q n, In (q, n) (all_nodes t') -> both_flags n = true ->
               q = lower "Ca" /\ walk (root t') q = Some n) /\
  is_path_node (root t') = false.
Proof.
  split; [discriminate|]. split; [vm_compute; discriminate|].
  apply (highlight_marks (insert_all Trie_init ["car"; "cat"]) "Ca").
  - discriminate.
  - vm_compute. discriminate.
Defined.

(** C1, as the code has it: after [highlight_path] with a prefix that
    does not match in full, no node has [is_in_subtree] true, and
    [is_path_node] is true on exactly the nodes the leading characters of
    the prefix lead to before the first character without an edge; when
    already the first character has no edge at the root, every flag of
    every node is false. *)
Theorem highlight_mismatch (t : Trie) (prefix : string)
        (Hmis : walk (root t) (lower prefix) = None) :
  let t' := highlight_path t prefix in
  (forall q n, In (q, n) (all_nodes t') -> is_in_subtree n = false) /\
  (forall q n, In (q, n) (all_nodes t') -> is_path_node n = true ->
               q <> ""%string /\ String.prefix q (lower prefix) = true /\
               walk (root t') q = Some n) /\
  (forall q n, q <> ""%string -> String.prefix q (lower prefix) = true ->
               walk (root t') q = Some n -> is_path_node n = true) /\
  (forall c rest, lower prefix = String c rest ->
                  dict_get c (children (root t)) = None ->
                  all_clear t' = true).
Proof.
  destruct prefix as [|c0 p0]; [discriminate Hmis|].
  intros t'.
  assert (Econtent : content (root t') = content (root t))
    by apply content_highlight_path.
  set (chars := lower (String c0 p0)) in *.
  unfold highlight_path in t'. unfold all_nodes. subst t'. cbn [root] in *.
  fold chars in Econtent |- *.
  set (cleared := _reset_highlights (root t)) in *.
  assert (Hflags : forall q n,
             In (q, n) (nodes_from (highlight_from cleared chars) "") ->
             is_in_subtree n = false /\
             (is_path_node n = true ->
              q <> ""%string /\ String.prefix q chars = true /\
              walk (highlight_from cleared chars) q = Some n)).
  { intros q n Hin.
    destruct (highlight_from_flags chars cleared ""%string q n) as [Fp Fs];
      [apply reset_clear_below|now destruct (root t)|assumption|].
    split.
    - destruct (is_in_subtree n); [|reflexivity].
      destruct (Fs eq_refl) as [Hw _]. exfalso. apply Hw.
      unfold cleared. now rewrite reset_walk, Hmis.
    - intros Hp. destruct (Fp Hp) as (q' & -> & Hpre & Hwalk & Htop).
      simpl. repeat split; try assumption.
      intros ->. specialize (Htop eq_refl). unfold cleared in Htop.
      destruct (root t); discriminate Htop. }
  split; [|split; [|split]].
  - intros q n Hin. exact (proj1 (Hflags q n Hin)).
  - intros q n Hin. exact (proj2 (Hflags q n Hin)).
  - intros q n. apply highlight_from_on_path.
  - intros c rest E Hc. unfold all_clear, all_nodes. cbn [root].
    apply forallb_forall. intros [q n] Hin. cbn [snd].
    destruct (Hflags q n Hin) as [Hs Hp]. unfold no_flag. rewrite Hs.
    destruct (is_path_node n); [|reflexivity].
    destruct (Hp eq_refl) as (Hq & Hpre & Hwalk). exfalso.
    rewrite E in Hpre. apply prefix_cons in Hpre.
    destruct Hpre as [->|(q' & -> & _)]; [contradiction|].
    rewrite (same_content_walk_none (root t) _ (String c q') Econtent) in Hwalk;
      [discriminate|]. simpl. now rewrite Hc.
Qed.

Lemma highlight_mismatch_witness :
  walk (root (insert_all Trie_init ["car"; "b"])) (lower "cz") = None /\
  let t' := highlight_path (insert_all Trie_init ["car"; "b"]) "cz" in
  (forall q n, In (q, n) (all_nodes t') -> is_in_subtree n = false) /\
  (forall q n, In (q, n) (all_nodes t') -> is_path_node n = true ->
               q <> ""%string /\ String.prefix q (lower "cz") = true /\
               walk (root t') q = Some n) /\
  (forall q n, q <> ""%string -> String.prefix q (lower "cz") = true ->
               walk (root t') q = Some n -> is_path_node n = true) /\
  (forall c rest, lower "cz" = String c rest ->
                  dict_get c (children (root (insert_all Trie_init ["car"; "b"]))) = None ->
                  all_clear t' = true).
Proof.
  split; [reflexivity|].
  apply (highlight_mismatch (insert_all Trie_init ["car"; "b"]) "cz").
  reflexivity.
Defined.

(** The claim C1 as the specification words it fails: with "car" in the
    tree, the prefix "cz" is non-empty and does not match, yet the node
    of 'c' keeps [is_path_node] true. *)
Lemma highlight_mismatch_counterexample :
  "cz"%string <> ""%string /\
  walk (root (insert Trie_init "car")) (lower "cz") = None /\
  all_clear (highlight_path (insert Trie_init "car") "cz") = false /\
  exists n, walk (root (highlight_path (insert Trie_init "car") "cz")) "c" = Some n /\
            is_path_node n = true.
Proof.
  split; [discriminate|]. split; [reflexivity|]. split; [reflexivity|].
  eexists. split; reflexivity.
Qed.

(* ------------------------------------------------------------------ *)
(** ** Layout: leaf counts and spans *)

Lemma get_leaf_count_eq (node : TrieNode) :
  get_leaf_count node
  = match children node with
    | [] => 1%Z
    | cs => fold_right Z.add 0%Z (map (fun kc => get_leaf_count (snd kc)) cs)
    end.
Proof. now destruct node. Qed.

Lemma get_leaf_count_pos (node : TrieNode) : (1 <= get_leaf_count node)%Z.
Proof.
  induction node as [c cs e w px py pf sf IH] using TrieNode_ind.
  rewrite get_leaf_count_eq. simpl.
  destruct IH as [|kc cs Hkc Hcs]; [lia|].
  assert (H : (0 <= fold_right Z.add 0 (map (fun kc => get_leaf_count (snd kc)) cs))%Z).
  { induction Hcs as [|kc' cs' Hkc' _ IH']; simpl; lia. }
  simpl. lia.
Qed.

Lemma get_leaf_count_content (node : TrieNode) :
  get_leaf_count (content node) = get_leaf_count node.
Proof.
  induction node as [c cs e w px py pf sf IH] using TrieNode_ind.
  rewrite (get_leaf_count_eq (content _)), get_leaf_count_eq. simpl.
  destruct cs as [|kc cs]; [reflexivity|].
  change (fold_right Z.add 0%Z
            (map (fun kc => get_leaf_count (snd kc))
                 (map (fun kc => (fst kc, content (snd kc))) (kc :: cs)))
          = fold_right Z.add 0%Z (map (fun kc => get_leaf_count (snd kc)) (kc :: cs))).
  rewrite map_map. f_equal. apply map_ext_in. intros kc' Hin.
  rewrite Forall_forall in IH. exact (IH _ Hin).
Qed.

Lemma get_leaf_count_position (vis : TrieVisualizer) (node : TrieNode) (px py : Z) :
  get_leaf_count (position_node vis node px py) = get_leaf_count node.
Proof.
  now rewrite <- get_leaf_count_content, content_position_node, get_leaf_count_content.
Qed.

Lemma span_width_position (vis : TrieVisualizer) (node : TrieNode) (px py : Z) :
  span_width vis (position_node vis node px py) = span_width vis node.
Proof. unfold span_width. now rewrite get_leaf_count_position. Qed.

Lemma char_position (vis : TrieVisualizer) (node : TrieNode) (px py : Z) :
  char (position_node vis node px py) = char node.
Proof. now destruct node. Qed.

Lemma ascii_leb_trans (a b c : ascii) :
  Ascii.leb a b = true -> Ascii.leb b c = true -> Ascii.leb a c = true.
Proof.
  unfold Ascii.leb, Ascii.compare.
  destruct (N.compare_spec (N_of_ascii a) (N_of_ascii b));
    destruct (N.compare_spec (N_of_ascii b) (N_of_ascii c));
    destruct (N.compare_spec (N_of_ascii a) (N_of_ascii c));
    try congruence; lia.
Qed.

Lemma ascii_ltb_not_leb (a b : ascii) :
  Ascii.ltb a b = true -> Ascii.leb b a = true -> False.
Proof.
  unfold Ascii.ltb, Ascii.leb. rewrite (Ascii.compare_antisym b a).
  destruct (Ascii.compare a b); simpl; congruence.
Qed.

Lemma child_leb_total (a b : nat * TrieNode) :
  child_leb a b = true \/ child_leb b a = true.
Proof. apply Ascii.leb_total. Qed.

Lemma child_leb_trans (a b c : nat * TrieNode) :
  child_leb a b = true -> child_leb b c = true -> child_leb a c = true.
Proof. apply ascii_leb_trans. Qed.

Lemma slot_x_In (xs : list (nat * Z)) (i : nat) (v : Z) :
  NoDup (map fst xs) -> In (i, v) xs -> slot_x i xs = v.
Proof.
  induction xs as [|[j u] xs IH]; simpl; intros Hnd Hin; [contradiction|].
  inversion Hnd as [|? ? Hj Hnd']; subst.
  destruct Hin as [E|Hin].
  - injection E as -> ->. now rewrite Nat.eqb_refl.
  - destruct (Nat.eqb_spec i j) as [->|_]; [|auto].
    exfalso. apply Hj. now apply (in_map fst) in Hin.
Qed.

Lemma assign_x_fst (vis : TrieVisualizer) (l : list (nat * TrieNode)) :
  forall cur, map fst (assign_x vis l cur) = map fst l.
Proof.
  induction l as [|[i c] l IH]; intros cur; simpl; [reflexivity|]. now rewrite IH.
Qed.

Lemma enumerate_fst {A : Type} (l : list A) :
  map fst (enumerate l) = seq 0 (List.length l).
Proof.
  unfold enumerate. generalize 0%nat.
  induction l as [|a l IH]; intros s; simpl; [reflexivity|]. now rewrite IH.
Qed.

Lemma end_x_sum (vis : TrieVisualizer) (l : list (nat * TrieNode)) :
  forall cur,
    end_x vis l cur
    = (cur + fold_right Z.add 0 (map (fun ic => span_width vis (snd ic)) l))%Z.
Proof.
  induction l as [|[i c] l IH]; intros cur; simpl; [lia|].
  rewrite IH. unfold span_width. lia.
Qed.

Lemma sum_permutation (l l' : list Z) :
  Permutation l l' -> fold_right Z.add 0%Z l = fold_right Z.add 0%Z l'.
Proof. induction 1; simpl; lia. Qed.

Lemma sum_scale (k : Z) (l : list Z) :
  fold_right Z.add 0%Z (map (fun v => v * k)%Z l) = (fold_right Z.add 0 l * k)%Z.
Proof. induction l as [|v l IH]; simpl; [reflexivity|]. rewrite IH. lia. Qed.

Lemma span_width_pos (vis : TrieVisualizer) (n : TrieNode) :
  (0 < horizontal_spacing vis)%Z -> (0 < span_width vis n)%Z.
Proof.
  intros Hsp. unfold span_width. pose proof (get_leaf_count_pos n). nia.
Qed.

(** The children taken in sorted order, each at the [current_x] the loop
    gives it, lie one after the other from where the loop starts to where
    it ends. *)
Lemma abut_assign (vis : TrieVisualizer) (f : nat -> Z)
      (placed : nat -> TrieNode -> TrieNode) (l : list (nat * TrieNode)) :
  forall cur,
    (forall i c, In (i, c) l -> span_width vis (placed i c) = span_width vis c) ->
    (forall i v, In (i, v) (assign_x vis l cur) -> f i = v) ->
    abut vis cur (end_x vis l cur)
         (map (fun ic => (placed (fst ic) (snd ic), f (fst ic))) l).
Proof.
  induction l as [|[i c] l IH]; intros cur Hw Hf; simpl; [reflexivity|].
  split; [apply Hf; now left|].
  rewrite (Hw i c) by now left. apply IH.
  - intros j d Hin. apply Hw. now right.
  - intros j v Hin. apply Hf. now right.
Qed.

Lemma abut_lower (vis : TrieVisualizer) (l : list (TrieNode * Z)) :
  forall lo hi,
    (forall c s, In (c, s) l -> (0 <= span_width vis c)%Z) ->
    abut vis lo hi l ->
    forall c s, In (c, s) l -> (lo <= s)%Z.
Proof.
  induction l as [|[c0 s0] l IH]; simpl; intros lo hi Hw Hab c s Hin; [contradiction|].
  destruct Hab as [-> Hab]. destruct Hin as [E|Hin].
  - injection E as _ <-. lia.
  - pose proof (Hw c0 lo (or_introl eq_refl)).
    assert (lo + span_width vis c0 <= s)%Z; [|lia].
    apply (IH (lo + span_width vis c0)%Z hi) with (c := c);
      [intros; eapply Hw; right; eassumption|assumption|assumption].
Qed.

(** In such a row, sorted by character, a sibling with a smaller
    character ends before one with a greater character starts. *)
Lemma abut_sorted_sep (vis : TrieVisualizer) (l : list (TrieNode * Z)) :
  forall lo hi,
    (forall c s, In (c, s) l -> (0 <= span_width vis c)%Z) ->
    StronglySorted char_le l ->
    abut vis lo hi l ->
    forall c1 s1 c2 s2,
      In (c1, s1) l -> In (c2, s2) l ->
      Ascii.ltb (char c1) (char c2) = true ->
      (s1 + span_width vis c1 <= s2)%Z.
Proof.
  induction l as [|[c0 s0] l IH]; simpl; intros lo hi Hw Hs Hab c1 s1 c2 s2 H1 H2 Hlt;
    [contradiction|].
  destruct Hab as [-> Hab].
  apply StronglySorted_inv in Hs. destruct Hs as [Hs Hall].
  rewrite Forall_forall in Hall.
  assert (Hw' : forall c s, In (c, s) l -> (0 <= span_width vis c)%Z)
    by (intros; eapply Hw; right; eassumption).
  destruct H1 as [E1|H1], H2 as [E2|H2].
  - injection E1 as <- <-. injection E2 as <- <-.
    exfalso. eapply ascii_ltb_not_leb; [exact Hlt|].
    now destruct (Ascii.leb_total (char c0) (char c0)).
  - injection E1 as <- <-. exact (abut_lower vis l _ hi Hw' Hab c2 s2 H2).
  - injection E2 as <- <-. exfalso.
    eapply ascii_ltb_not_leb; [exact Hlt|]. exact (Hall _ H1).
  - exact (IH _ hi Hw' Hs Hab c1 s1 c2 s2 H1 H2 Hlt).
Qed.

Lemma StronglySorted_map {A B : Type} (R : A -> A -> Prop) (R' : B -> B -> Prop)
      (f : A -> B) (l : list A) :
  (forall a b, R a b -> R' (f a) (f b)) ->
  StronglySorted R l -> StronglySorted R' (map f l).
Proof.
  intros HR. induction 1 as [|a l Hl IH Ha]; simpl; constructor; [assumption|].
  rewrite Forall_forall in Ha |- *. intros b Hb. apply in_map_iff in Hb.
  destruct Hb as (a' & <- & Ha'). auto.
Qed.

Lemma combine_map_both {A B C : Type} (f : A -> B) (g : A -> C) (l : list A) :
  combine (map f l) (map g l) = map (fun a => (f a, g a)) l.
Proof. induction l as [|a l IH]; simpl; [reflexivity|]. now rewrite IH. Qed.

Lemma Forall2_map_both {A B C : Type} (R : B -> C -> Prop) (f : A -> B) (g : A -> C)
      (l : list A) :
  (forall a, In a l -> R (f a) (g a)) -> Forall2 R (map f l) (map g l).
Proof.
  induction l as [|a l IH]; simpl; intros H; constructor; [now apply H; left|].
  apply IH. intros; apply H; now right.
Qed.

Lemma Forall2_In_l {A B : Type} (R : A -> B -> Prop) (l : list A) (l' : list B) (a : A) :
  Forall2 R l l' -> In a l -> exists b, R a b.
Proof.
  induction 1 as [|a0 b0 l l' H0 _ IH]; simpl; intros Hin; [contradiction|].
  destruct Hin as [<-|Hin]; [now exists b0|auto].
Qed.

(** [position_node] lays out the node it is called on, and all below. *)
Lemma position_node_laid_out (vis : TrieVisualizer) (node : TrieNode) :
  (0 < horizontal_spacing vis)%Z ->
  forall sx depth,
    laid_out vis
             (position_node vis node sx
                (start_y vis + Z.of_nat depth * level_height vis)%Z)
             sx depth.
Proof.
  intros Hsp.
  induction node as [c cs e w px py pf sf IH] using TrieNode_ind.
  intros sx depth.
  set (node := mkTrieNode c cs e w px py pf sf).
  set (sy := (start_y vis + Z.of_nat depth * level_height vis)%Z).
  set (sorted := sorted_by child_leb (enumerate (values cs))).
  set (xs := assign_x vis sorted sx).
  set (placed := fun (i : nat) (child : TrieNode) =>
                   position_node vis child (slot_x i xs) (sy + level_height vis)%Z).
  assert (Hch : children (position_node vis node sx sy)
                = map (fun ic => (fst (snd ic), placed (fst ic) (snd (snd ic))))
                      (enumerate cs))
    by exact (position_node_children vis node sx sy).
  set (spans := map (fun ic : nat * (ascii * TrieNode) => slot_x (fst ic) xs)
                    (enumerate cs)).
  set (order := map (fun ic : nat * TrieNode =>
                       (placed (fst ic) (snd ic), slot_x (fst ic) xs)) sorted).
  assert (Hcomb : combine (values (children (position_node vis node sx sy))) spans
                  = map (fun ic : nat * (ascii * TrieNode) =>
                           (placed (fst ic) (snd (snd ic)), slot_x (fst ic) xs))
                        (enumerate cs)).
  { rewrite Hch. unfold values, spans. rewrite map_map. cbn [snd].
    apply combine_map_both. }
  assert (Hperm : Permutation order
                    (combine (values (children (position_node vis node sx sy))) spans)).
  { rewrite Hcomb. unfold order, sorted.
    eapply Permutation_trans;
      [apply Permutation_map, Permutation_sym, sorted_by_perm|].
    unfold values. rewrite enumerate_map, map_map. reflexivity. }
  assert (Hnd : NoDup (map fst xs)).
  { unfold xs. rewrite assign_x_fst.
    apply (Permutation_NoDup (l := seq 0 (List.length (values cs))));
      [|apply seq_NoDup].
    rewrite <- enumerate_fst. apply Permutation_map, sorted_by_perm. }
  assert (Hwidth : forall m, (0 < span_width vis m)%Z)
    by (intros; now apply span_width_pos).
  assert (Hsorted : StronglySorted char_le order).
  { unfold order.
    apply (StronglySorted_map (fun u v => child_leb u v = true)).
    - intros [i a] [j b] Hab. unfold char_le, placed. cbn [fst snd].
      now rewrite !char_position.
    - apply sorted_by_sorted; [apply child_leb_total|apply child_leb_trans]. }
  assert (Habut : abut vis sx (end_x vis sorted sx) order).
  { unfold order. apply (abut_assign vis (fun i => slot_x i xs) placed).
    - intros i ch _. apply span_width_position.
    - intros i v Hin. now apply slot_x_In. }
  apply (laid_out_node vis _ sx depth spans order (end_x vis sorted sx)).
  - rewrite position_node_x. unfold span_width.
    now rewrite get_leaf_count_position.
  - rewrite position_node_x. fold (span_width vis node).
    rewrite span_width_position. pose proof (Hwidth node) as Hw.
    pose proof (Z.div_pos (span_width vis node) 2).
    pose proof (Z.div_lt (span_width vis node) 2). lia.
  - apply position_node_y.
  - rewrite Hch. unfold spans. apply Forall2_map_both.
    intros [i [k child]] Hin. cbn [fst snd]. unfold placed.
    replace (sy + level_height vis)%Z
      with (start_y vis + Z.of_nat (S depth) * level_height vis)%Z
      by (unfold sy; lia).
    rewrite Forall_forall in IH. apply (IH (k, child)).
    unfold enumerate in Hin. eapply in_combine_r, Hin.
  - exact Hperm.
  - exact Hsorted.
  - exact Habut.
  - intros Hne. rewrite span_width_position, end_x_sum. f_equal.
    unfold sorted.
    rewrite <- (sum_permutation _ _
                  (Permutation_map (fun ic => span_width vis (snd ic))
                     (sorted_by_perm child_leb (enumerate (values cs))))).
    unfold enumerate, values. rewrite map_snd_combine_seq, map_map.
    unfold span_width at 2. rewrite (get_leaf_count_eq node).
    rewrite Hch in Hne. subst node. cbn [children].
    destruct cs as [|kc cs']; [now elim Hne|].
    rewrite <- sum_scale, map_map. reflexivity.
  - intros c1 s1 c2 s2 H1 H2 Hlt.
    assert (Hsep : (s1 + span_width vis c1 <= s2)%Z).
    { apply (abut_sorted_sep vis order sx (end_x vis sorted sx)) with (c2 := c2);
        try assumption.
      - intros m s _. pose proof (Hwidth m). lia.
      - eapply Permutation_in; [apply Permutation_sym, Hperm|exact H1].
      - eapply Permutation_in; [apply Permutation_sym, Hperm|exact H2]. }
    split; [exact Hsep|].
    rewrite Hcomb in H1, H2. apply in_map_iff in H1, H2.
    destruct H1 as ([i1 [k1 m1]] & E1 & _), H2 as ([i2 [k2 m2]] & E2 & _).
    cbn [fst snd] in E1, E2. injection E1 as <- <-. injection E2 as <- <-.
    unfold placed in *. rewrite !position_node_x.
    rewrite !span_width_position in Hsep. unfold span_width in Hsep.
    pose proof (Hwidth m1) as W1. pose proof (Hwidth m2) as W2.
    unfold span_width in W1, W2.
    pose proof (Z.div_lt (get_leaf_count m1 * horizontal_spacing vis) 2).
    pose proof (Z.div_pos (get_leaf_count m2 * horizontal_spacing vis) 2).
    lia.
Qed.

(** Below a laid-out node every node is laid out, at its own depth. *)
Lemma laid_out_nodes (vis : TrieVisualizer) (n : TrieNode) :
  forall sx depth path,
    laid_out vis n sx depth ->
    forall q m, In (q, m) (nodes_from n path) ->
                exists s, laid_out vis m s
                                   (depth + (String.length q - String.length path)).
Proof.
  induction n as [c cs e w px py pf sf IH] using TrieNode_ind.
  intros sx depth path Hlaid q m Hin. apply in_nodes_from in Hin.
  destruct Hin as [[-> ->]|(k & child & Hc & Hin)].
  - exists sx. now replace (depth + (String.length path - String.length path))%nat
      with depth by lia.
  - inversion Hlaid as [? ? ? spans order hi _ _ _ Hchildren]; subst.
    cbn [children] in Hchildren, Hc.
    destruct (Forall2_In_l _ _ _ (k, child) Hchildren Hc) as [s Hs].
    rewrite Forall_forall in IH.
    destruct (IH _ Hc s (S depth) (snoc path k) Hs q m Hin) as [s' Hs'].
    exists s'.
    destruct (nodes_from_prefix _ _ _ _ Hin) as [r ->].
    rewrite snoc_append, append_length in Hs' |- *. unfold snoc in Hs'.
    rewrite append_length in Hs'. simpl in Hs' |- *.
    replace (depth + (String.length path + S (String.length r) - String.length path))%nat
      with (S depth + (String.length path + S (String.length r)
                       - (String.length path + 1)))%nat by lia.
    exact Hs'.
Qed.

(** C6: after a layout pass every node of the tree is laid out in a span
    of width [get_leaf_count node * horizontal_spacing]: its x is the
    midpoint of the span under integer division and lies in
    [[sx, sx + width)]; its y is [start_y] plus its depth times
    [level_height]; the sub-spans of its children, taken in ascending
    character order, follow one another without gap or overlap from the
    left end of the span, to its right end when there are children; and
    of two siblings the one with the smaller character has its span, and
    its x, to the left of the other's.  The span of the root starts at
    max(20, (draw_area_width - width) // 2). *)
Theorem layout_invariant (vis : TrieVisualizer) (t : Trie)
        (Hspacing : (0 < horizontal_spacing vis)%Z) :
  let t' := calculate_node_positions vis t in
  laid_out vis (root t')
           (Z.max 20 ((draw_area_width vis - span_width vis (root t)) / 2)) 0 /\
  forall q n, In (q, n) (all_nodes t') ->
              exists sx, laid_out vis n sx (String.length q).
Proof.
  intros t'.
  assert (Hroot : laid_out vis (root t')
                    (Z.max 20 ((draw_area_width vis - span_width vis (root t)) / 2)) 0).
  { subst t'. unfold calculate_node_positions, span_width. cbn [root].
    set (sx0 := ((draw_area_width vis
                  - get_leaf_count (root t) * horizontal_spacing vis) / 2)%Z).
    replace (if (sx0 <? 20)%Z then 20%Z else sx0) with (Z.max 20 sx0)
      by (destruct (Z.ltb_spec sx0 20); lia).
    replace (start_y vis) with (start_y vis + Z.of_nat 0 * level_height vis)%Z
      by (simpl; lia).
    now apply position_node_laid_out. }
  split; [exact Hroot|].
  intros q n Hin.
  destruct (laid_out_nodes vis _ _ _ _ Hroot q n Hin) as [s Hs].
  exists s. simpl in Hs. now rewrite Nat.sub_0_r in Hs.
Qed.

Lemma layout_invariant_witness :
  (0 < horizontal_spacing TrieVisualizer_init)%Z /\
  let t' := calculate_node_positions TrieVisualizer_init
              (insert_all Trie_init initial_words) in
  laid_out TrieVisualizer_init (root t')
           (Z.max 20 ((draw_area_width TrieVisualizer_init
                       - span_width TrieVisualizer_init
                                    (root (insert_all Trie_init initial_words))) / 2)) 0 /\
  forall q n, In (q, n) (all_nodes t') ->
              exists sx, laid_out TrieVisualizer_init n sx (String.length q).
Proof.
  split; [reflexivity|].
  apply (layout_invariant TrieVisualizer_init (insert_all Trie_init initial_words)).
  reflexivity.
Defined.

(* ------------------------------------------------------------------ *)
(** ** The dictionary as a set of words *)

Lemma dict_get_set_other {V : Type} (k c : ascii) (v : V) (d : list (ascii * V)) :
  k <> c -> dict_get k (dict_set c v d) = dict_get k d.
Proof.
  intros Hne. induction d as [|[k' u] d IH]; simpl.
  - apply Ascii.eqb_neq in Hne. now rewrite Hne.
  - destruct (Ascii.eqb_spec c k') as [->|Hc]; simpl.
    + apply Ascii.eqb_neq in Hne. now rewrite Hne.
    + now rewrite IH.
Qed.

Lemma is_word_from_init (c : ascii) (q : string) :
  is_word_from (TrieNode_init c) q = false.
Proof. now destruct q. Qed.

(** Looking a string up after an insertion: it was a word before, or it
    is the inserted one. *)
Lemma insert_from_lookup (chars w : string) :
  forall node q,
    is_word_from (insert_from node chars w) q
    = is_word_from node q || String.eqb q chars.
Proof.
  induction chars as [|c rest IH]; intros node q.
  - destruct q as [|k q']; unfold is_word_from; simpl.
    + now rewrite orb_true_r.
    + now rewrite orb_false_r.
  - destruct q as [|k q']; unfold is_word_from;
      cbn [insert_from walk set_children children]; [simpl; now rewrite orb_false_r|].
    fold (is_word_from node (String k q')).
    destruct (Ascii.eqb_spec k c) as [->|Hne].
    + rewrite dict_get_set_same.
      change (is_word_from
                (insert_from match dict_get c (children node) with
                             | Some child => child
                             | None => TrieNode_init c
                             end rest w) q'
              = is_word_from node (String c q') || String.eqb (String c q') (String c rest)).
      rewrite IH. simpl String.eqb. rewrite Ascii.eqb_refl.
      unfold is_word_from at 2. cbn [walk].
      destruct (dict_get c (children node)) as [child|]; [reflexivity|].
      now rewrite is_word_from_init.
    + rewrite (dict_get_set_other k c) by assumption.
      simpl String.eqb. apply Ascii.eqb_neq in Hne. rewrite Hne, orb_false_r.
      reflexivity.
Qed.

Lemma insert_is_word (t : Trie) (w q : string) :
  is_word (insert t w) q = is_word t q || (nonempty w && String.eqb q (lower w)).
Proof.
  destruct w as [|c w]; [simpl; now rewrite orb_false_r|].
  unfold is_word, insert. cbn [root]. now rewrite insert_from_lookup.
Qed.

(** X1: [insert] adds exactly the lowercased word to the set of strings
    the lookup loop accepts, and leaves the lookup of every other string
    as it was; the empty word adds nothing. *)
Theorem insert_lookup (t : Trie) (w q : string) :
  is_word (insert t w) q = is_word t q || (nonempty w && String.eqb q (lower w)).
Proof. apply insert_is_word. Qed.

Lemma insert_all_lookup (ws : list string) :
  forall t q,
    is_word (insert_all t ws) q
    = is_word t q || existsb (fun w => nonempty w && String.eqb q (lower w)) ws.
Proof.
  induction ws as [|w ws IH]; intros t q; simpl.
  - now rewrite orb_false_r.
  - rewrite IH, insert_is_word. now rewrite orb_assoc.
Qed.

Lemma insert_all_is_word (ws : list string) (q : string) :
  is_word (insert_all Trie_init ws) q = true <->
  exists w, In w ws /\ w <> ""%string /\ q = lower w.
Proof.
  rewrite insert_all_lookup.
  replace (is_word Trie_init q) with false by (now destruct q).
  simpl. rewrite existsb_exists. split.
  - intros (w & Hin & H). apply andb_true_iff in H. destruct H as [Hn Hq].
    exists w. split; [assumption|]. split.
    + intros ->. discriminate Hn.
    + now apply String.eqb_eq.
  - intros (w & Hin & Hn & ->). exists w. split; [assumption|].
    rewrite String.eqb_refl, andb_true_r. unfold nonempty.
    apply negb_true_iff, String.eqb_neq. assumption.
Qed.

(** X2: after any sequence of insertions into a new tree, the lookup
    loop ends on a terminal node for a string exactly when the string is
    the lowercasing of a non-empty inserted word. *)
Theorem insert_all_words (ws : list string) (q : string) :
  is_word (insert_all Trie_init ws) q = true <->
  exists w, In w ws /\ w <> ""%string /\ q = lower w.
Proof. apply insert_all_is_word. Qed.

(* ------------------------------------------------------------------ *)
(** ** The collection below the cap *)

(** A call of [_collect_all_words] only appends to [words]. *)
Lemma collect_extends (node : TrieNode) (words : list (option string)) (max_words : nat) :
  exists ext, _collect_all_words node words max_words = words ++ ext.
Proof.
  apply (collect_inv max_words (fun ws => exists ext, ws = words ++ ext) node "").
  - intros q n ws _ _ _ [ext ->]. exists (ext ++ [word n]). now rewrite app_assoc.
  - exists []. now rewrite app_nil_r.
Qed.

(** A run of calls that only append: if the list is under the cap at the
    end, it was under the cap after every call, and what a call returned
    is still there at the end. *)
Lemma fold_calls_under_cap
      (calls : list (ascii * (list (option string) -> nat -> list (option string))))
      (max_words : nat) :
  (forall call ws, In call calls -> exists ext, snd call ws max_words = ws ++ ext) ->
  forall ws,
    (List.length (fold_left (fun words call => snd call words max_words) calls ws)
     < max_words)%nat ->
    (forall o, In o ws ->
               In o (fold_left (fun words call => snd call words max_words) calls ws)) /\
    forall call, In call calls ->
      exists ws_in,
        (List.length (snd call ws_in max_words) < max_words)%nat /\
        forall o, In o (snd call ws_in max_words) ->
                  In o (fold_left (fun words call => snd call words max_words) calls ws).
Proof.
  induction calls as [|call calls IH]; simpl; intros Hext ws Hlen.
  - split; [auto|]. intros call [].
  - destruct (IH (fun c w Hc => Hext c w (or_intror Hc)) _ Hlen) as [Hkeep Hcalls].
    destruct (Hext call ws (or_introl eq_refl)) as [ext Eext].
    split.
    + intros o Ho. apply Hkeep. rewrite Eext. apply in_or_app. now left.
    + intros call' [<-|Hin].
      * exists ws. split; [|exact Hkeep].
        assert (Hmono : forall l,
                   (List.length l
                    <= List.length (fold_left (fun words c => snd c words max_words)
                                              calls l))%nat).
        { clear - Hext. induction calls as [|c calls IHc]; intros l; simpl; [lia|].
          destruct (Hext c l (or_intror (or_introl eq_refl))) as [e Ee].
          etransitivity; [|apply IHc].
          - rewrite Ee, length_app. lia.
          - intros c' w' [E|Hc']; apply Hext; [now left|right; now right]. }
        specialize (Hmono (snd call ws max_words)). lia.
      * destruct (Hcalls call' Hin) as (ws_in & Hl & Hsub). now exists ws_in.
Qed.

(** If the collection ends under the cap, it has the word of every
    terminal node below the node it started from. *)
Lemma collect_complete (max_words : nat) (node : TrieNode) :
  forall path words,
    (List.length (_collect_all_words node words max_words) < max_words)%nat ->
    forall q n, In (q, n) (nodes_from node path) -> is_end_of_word n = true ->
                In (word n) (_collect_all_words node words max_words).
Proof.
  induction node as [c cs e w px py pf sf IH] using TrieNode_ind.
  intros path words Hlen q n Hin He.
  set (node := mkTrieNode c cs e w px py pf sf) in *.
  rewrite collect_eq in Hlen |- *.
  destruct (Nat.leb_spec max_words (List.length words)) as [Hcap|Hcap]; [lia|].
  set (words' := if is_end_of_word node then words ++ [word node] else words) in *.
  set (calls := sorted_by (fun a b => Ascii.leb (fst a) (fst b))
                          (map (fun kc => (fst kc, _collect_all_words (snd kc)))
                               (children node))) in *.
  assert (Hext : forall call ws, In call calls ->
                                 exists ext, snd call ws max_words = ws ++ ext).
  { intros call ws Hc. apply sorted_by_In, in_map_iff in Hc.
    destruct Hc as ([k child] & <- & _). apply collect_extends. }
  destruct (fold_calls_under_cap calls max_words Hext words' Hlen) as [Hkeep Hcalls].
  apply in_nodes_from in Hin. destruct Hin as [[-> ->]|(k & child & Hc & Hin)].
  - apply Hkeep. unfold words'. rewrite He. apply in_or_app. right. now left.
  - destruct (Hcalls (k, _collect_all_words child)) as (ws_in & Hl & Hsub).
    { apply sorted_by_In, in_map_iff. now exists (k, child). }
    apply Hsub. cbn [snd] in *. rewrite Forall_forall in IH.
    exact (IH _ Hc (snoc path k) ws_in Hl q n Hin He).
Qed.

Lemma walk_app (a b : string) :
  forall node n,
    walk node (a ++ b) = Some n ->
    exists m, walk node a = Some m /\ walk m b = Some n.
Proof.
  induction a as [|c a IH]; simpl; intros node n H.
  - now exists node.
  - destruct (dict_get c (children node)) as [child|]; [|discriminate]. auto.
Qed.

Lemma walk_in_nodes (chars : string) (node n : TrieNode) (path : string) :
  walk node chars = Some n -> In ((path ++ chars)%string, n) (nodes_from node path).
Proof.
  intros H. apply (walk_nodes_from chars node path n); [assumption|].
  apply in_nodes_from_top.
Qed.

(** The node of an inserted word, in a tree built by insertions. *)
Lemma inserted_word_node (ws : list string) (w0 : string) :
  In w0 ws -> w0 <> ""%string ->
  exists n, walk (root (insert_all Trie_init ws)) (lower w0) = Some n /\
            is_end_of_word n = true /\ word n = Some (lower w0).
Proof.
  intros Hin Hne.
  assert (Hw : is_word (insert_all Trie_init ws) (lower w0) = true)
    by (apply insert_all_is_word; now exists w0).
  unfold is_word, is_word_from in Hw.
  destruct (walk (root (insert_all Trie_init ws)) (lower w0)) as [n|] eqn:Hwalk;
    [|discriminate].
  exists n. split; [reflexivity|]. split; [assumption|].
  pose proof (from_words_insert_all ws [] Trie_init from_words_init) as Hinv.
  apply (Hinv (lower w0) n); [|assumption].
  exact (walk_in_nodes _ _ _ ""%string Hwalk).
Qed.

(** What [get_suggestions] computes on a tree built by insertions, for a
    prefix that leads to [node]. *)
Lemma get_suggestions_found (ws : list string) (c0 : ascii) (p0 : string)
      (node : TrieNode) :
  walk (root (insert_all Trie_init ws)) (lower (String c0 p0)) = Some node ->
  exists res,
    _collect_all_words node [] 8 = map Some res /\
    get_suggestions (insert_all Trie_init ws) (String c0 p0)
    = Returns (sorted_by key_leb res, Some node) /\
    forall w, In w res -> String.prefix (lower (String c0 p0)) w = true.
Proof.
  intros Hw.
  pose proof (from_words_insert_all ws [] Trie_init from_words_init) as Hinv.
  assert (Hall : forall o, In o (_collect_all_words node [] 8) ->
                           exists w, o = Some w /\
                                     String.prefix (lower (String c0 p0)) w = true).
  { intros o Ho.
    destruct (collect_sound node (lower (String c0 p0)) 8 o Ho)
      as (q & n & Hin & He & <-).
    pose proof (walk_nodes_from _ _ ""%string node _ _ Hw Hin) as Hroot.
    destruct (Hinv q n Hroot He) as [Hq _].
    exists q. split; [assumption|].
    destruct (nodes_from_prefix _ _ _ _ Hin) as [r ->]. apply prefix_append. }
  destruct (all_str_Some (_collect_all_words node [] 8)) as (res & Eall & Eres).
  { intros o Ho. destruct (Hall o Ho) as (w & -> & _). discriminate. }
  exists res. split; [assumption|]. split.
  - unfold get_suggestions. now rewrite Hw, Eall.
  - intros w Hin. destruct (Hall (Some w)) as (w' & E & Hp).
    + rewrite Eres. now apply in_map.
    + now injection E as <-.
Qed.

(** X3: the search is complete below the cap.  On a tree built by
    insertions, if [get_suggestions] returns fewer than 8 words for a
    non-empty prefix, then every inserted word whose lowercasing begins
    with the lowercased prefix is among them. *)
Theorem search_complete_below_cap (ws : list string) (prefix w0 : string)
        (Hin : In w0 ws)
        (Hprefix : prefix <> ""%string)
        (Hbegins : String.prefix (lower prefix) (lower w0) = true) :
  exists res node,
    get_suggestions (insert_all Trie_init ws) prefix = Returns (res, Some node) /\
    ((List.length res < 8)%nat -> In (lower w0) res).
Proof.
  destruct prefix as [|c0 p0]; [contradiction|].
  assert (Hne : w0 <> ""%string).
  { intros ->. simpl in Hbegins. discriminate. }
  destruct (inserted_word_node ws w0 Hin Hne) as (n & Hwalk & He & Hword).
  destruct (prefix_inv _ _ Hbegins) as [r Er]. rewrite Er in Hwalk.
  destruct (walk_app _ _ _ _ Hwalk) as (node & Hnode & Hrest).
  destruct (get_suggestions_found ws c0 p0 node Hnode) as (res & Ecoll & Eget & _).
  exists (sorted_by key_leb res), node. split; [assumption|].
  rewrite sorted_by_length. intros Hlen. apply sorted_by_In.
  assert (Hc : In (word n) (_collect_all_words node [] 8)).
  { apply (collect_complete 8 node (lower (String c0 p0)) [])
      with (q := (lower (String c0 p0) ++ r)%string).
    - rewrite Ecoll, length_map. assumption.
    - now apply walk_in_nodes.
    - assumption. }
  rewrite Hword, Ecoll, Er in Hc. apply in_map_iff in Hc.
  destruct Hc as (w & E & Hw). injection E as ->. now rewrite Er.
Qed.

Lemma search_complete_below_cap_witness :
  In "Cat"%string ["car"; "Cat"; "dog"]%string /\
  "c"%string <> ""%string /\
  String.prefix (lower "c") (lower "Cat") = true /\
  exists res node,
    get_suggestions (insert_all Trie_init ["car"; "Cat"; "dog"]) "c"
    = Returns (res, Some node) /\
    ((List.length res < 8)%nat -> In (lower "Cat") res).
Proof.
  split; [simpl; tauto|]. split; [discriminate|]. split; [reflexivity|].
  apply (search_complete_below_cap ["car"; "Cat"; "dog"] "c" "Cat").
  - simpl. tauto.
  - discriminate.
  - reflexivity.
Defined.

(* ------------------------------------------------------------------ *)
(** ** Searching for a stored word *)

Lemma string_leb_refl (a : string) : String.leb a a = true.
Proof. now destruct (String.leb_total a a). Qed.

Lemma prefix_key_leb (a b : string) : String.prefix a b = true -> key_leb a b = true.
Proof.
  intros H. destruct (prefix_inv _ _ H) as [r ->]. unfold key_leb.
  rewrite append_length. destruct r as [|c r].
  - rewrite append_empty_r, Nat.add_0_r, Nat.eqb_refl, string_leb_refl.
    simpl. apply orb_true_r.
  - replace (String.length a <? String.length a + String.length (String c r))%nat
      with true; [reflexivity|].
    symmetry. apply Nat.ltb_lt. simpl. lia.
Qed.

Lemma key_leb_antisym (a b : string) :
  key_leb a b = true -> key_leb b a = true -> a = b.
Proof.
  unfold key_leb. intros Hab Hba.
  apply orb_true_iff in Hab, Hba.
  rewrite andb_true_iff, Nat.ltb_lt, Nat.eqb_eq in *.
  destruct Hab as [Hab|[Eab Lab]], Hba as [Hba|[Eba Lba]]; try lia.
  now apply String.leb_antisym.
Qed.

(** The least element of a sorted list is its head. *)
Lemma sorted_head_least (l : list string) (a : string) :
  StronglySorted key_le l -> In a l ->
  (forall b, In b l -> key_leb a b = true) ->
  exists rest, l = a :: rest.
Proof.
  intros Hs Hin Hleast. destruct l as [|h l]; [contradiction|].
  exists l. f_equal.
  apply StronglySorted_inv in Hs. destruct Hs as [_ Hall].
  rewrite Forall_forall in Hall.
  destruct Hin as [->|Hin]; [reflexivity|].
  apply key_leb_antisym; [exact (Hall _ Hin)|apply Hleast; now left].
Qed.

(** A run of calls that only append keeps what is in the list. *)
Lemma fold_calls_keeps
      (calls : list (ascii * (list (option string) -> nat -> list (option string))))
      (max_words : nat) (o : option string) :
  (forall call ws, In call calls -> exists ext, snd call ws max_words = ws ++ ext) ->
  forall ws, In o ws ->
             In o (fold_left (fun words call => snd call words max_words) calls ws).
Proof.
  induction calls as [|call calls IH]; simpl; intros Hext ws Ho; [assumption|].
  apply IH; [intros; apply Hext; now right|].
  destruct (Hext call ws (or_introl eq_refl)) as [e ->].
  apply in_or_app. now left.
Qed.

(** X4: searching for an inserted word finds it first.  On a tree built
    by insertions, [get_suggestions] called with a non-empty inserted
    word returns a list that starts with the lowercased word. *)
Theorem exact_match_first (ws : list string) (w0 : string)
        (Hin : In w0 ws) (Hne : w0 <> ""%string) :
  exists rest node,
    get_suggestions (insert_all Trie_init ws) w0
    = Returns (lower w0 :: rest, Some node) /\
    word node = Some (lower w0).
Proof.
  destruct (inserted_word_node ws w0 Hin Hne) as (n & Hwalk & He & Hword).
  destruct w0 as [|c0 p0]; [contradiction|].
  destruct (get_suggestions_found ws c0 p0 n Hwalk) as (res & Ecoll & Eget & Hpre).
  assert (Hfirst : In (lower (String c0 p0)) res).
  {
    assert (Hin' : In (word n) (_collect_all_words n [] 8)).
    { rewrite collect_eq. cbn [List.length Nat.leb]. rewrite He. cbn [app].
      apply fold_calls_keeps; [|now left].
      intros call l Hc. apply sorted_by_In, in_map_iff in Hc.
      destruct Hc as ([k child] & <- & _). apply collect_extends. }
    rewrite Ecoll, Hword in Hin'. apply in_map_iff in Hin'.
    destruct Hin' as (w & E & Hw). now injection E as ->. }
  destruct (sorted_head_least (sorted_by key_leb res) (lower (String c0 p0)))
    as [rest Erest].
  - apply sorted_by_sorted; [apply key_leb_total|apply key_leb_trans].
  - now apply sorted_by_In.
  - intros b Hb. apply sorted_by_In in Hb. apply prefix_key_leb. now apply Hpre.
  - exists rest, n. split; [|assumption]. now rewrite Eget, Erest.
Qed.

Lemma exact_match_first_witness :
  In "Car"%string ["cara"; "Car"; "cat"]%string /\
  "Car"%string <> ""%string /\
  exists rest node,
    get_suggestions (insert_all Trie_init ["cara"; "Car"; "cat"]) "Car"
    = Returns (lower "Car" :: rest, Some node) /\
    word node = Some (lower "Car").
Proof.
  split; [simpl; tauto|]. split; [discriminate|].
  apply (exact_match_first ["cara"; "Car"; "cat"] "Car").
  - simpl. tauto.
  - discriminate.
Defined.

(* ------------------------------------------------------------------ *)
(** ** Children are stored under their own character *)

Lemma same_content_nodes_content (m m' : TrieNode) (path q : string) (n : TrieNode) :
  content m' = content m ->
  In (q, n) (nodes_from m' path) ->
  exists n0, In (q, n0) (nodes_from m path) /\ content n0 = content n.
Proof.
  intros E Hin.
  apply (in_map (fun qn => (fst qn, content (snd qn)))) in Hin.
  rewrite <- nodes_from_content, E, nodes_from_content in Hin.
  apply in_map_iff in Hin. destruct Hin as ([q0 n0] & E0 & Hin0).
  simpl in E0. injection E0 as -> E0. now exists n0.
Qed.

Lemma keyed_ok_content (n : TrieNode) : keyed_ok (content n) = keyed_ok n.
Proof.
  destruct n as [c cs e w px py pf sf]. unfold keyed_ok. simpl.
  rewrite map_map. simpl. f_equal.
  induction cs as [|[k [c' cs' e' w' px' py' pf' sf']] cs IH]; simpl; [reflexivity|].
  now rewrite IH.
Qed.

Lemma well_keyed_same_content (t t' : Trie) :
  content (root t') = content (root t) ->
  well_keyed t = true -> well_keyed t' = true.
Proof.
  unfold well_keyed, all_nodes. rewrite !forallb_forall.
  intros E H [q n] Hin.
  destruct (same_content_nodes_content _ _ _ _ _ E Hin) as (n0 & Hin0 & E0).
  cbn [snd]. rewrite <- keyed_ok_content, <- E0, keyed_ok_content.
  exact (H _ Hin0).
Qed.

Lemma existsb_keys_dict_set {V : Type} (k c : ascii) (v : V) (d : list (ascii * V)) :
  k <> c ->
  existsb (Ascii.eqb k) (map fst (dict_set c v d)) = existsb (Ascii.eqb k) (map fst d).
Proof.
  intros Hne. apply Ascii.eqb_neq in Hne.
  induction d as [|[k' u] d IH]; simpl.
  - now rewrite Hne.
  - destruct (Ascii.eqb_spec c k') as [<-|_]; simpl; [reflexivity|now rewrite IH].
Qed.

Lemma distinct_dict_set {V : Type} (c : ascii) (v : V) (d : list (ascii * V)) :
  distinct (map fst d) = true -> distinct (map fst (dict_set c v d)) = true.
Proof.
  induction d as [|[k' u] d IH]; simpl; [reflexivity|].
  intros H. apply andb_true_iff in H. destruct H as [Hk Hd].
  destruct (Ascii.eqb_spec c k') as [->|Hne]; simpl.
  - now rewrite Hk, Hd.
  - rewrite existsb_keys_dict_set by congruence. now rewrite Hk, IH.
Qed.

Lemma char_insert_from (chars w : string) (node : TrieNode) :
  char (insert_from node chars w) = char node.
Proof. now destruct chars. Qed.

Lemma insert_from_keyed (chars w : string) :
  forall node path,
    (forall q n, In (q, n) (nodes_from node path) -> keyed_ok n = true) ->
    forall q n, In (q, n) (nodes_from (insert_from node chars w) path) ->
                keyed_ok n = true.
Proof.
  induction chars as [|c rest IH]; intros node path Hall q n Hin;
    cbn [insert_from] in Hin.
  - apply in_nodes_from in Hin. destruct Hin as [[-> ->]|(k & child & Hc & Hin)].
    + exact (Hall path node (in_nodes_from_top _ _)).
    + apply (Hall q). apply in_nodes_from. right. now exists k, child.
  - set (child := match dict_get c (children node) with
                  | Some child => child
                  | None => TrieNode_init c
                  end) in *.
    pose proof (Hall path node (in_nodes_from_top _ _)) as Htop.
    unfold keyed_ok in Htop. apply andb_true_iff in Htop. destruct Htop as [Hd Hf].
    rewrite forallb_forall in Hf.
    assert (Hchar : char child = c).
    { unfold child. destruct (dict_get c (children node)) as [ch|] eqn:Hg; [|reflexivity].
      apply dict_get_In in Hg. apply Hf in Hg. now apply Ascii.eqb_eq in Hg. }
    assert (Hchild : forall q0 n0, In (q0, n0) (nodes_from child (snoc path c)) ->
                                   keyed_ok n0 = true).
    { intros q0 n0 H0. unfold child in H0.
      destruct (dict_get c (children node)) as [ch|] eqn:Hg.
      - apply (Hall q0). apply in_nodes_from. right. exists c, ch.
        split; [now apply dict_get_In|assumption].
      - destruct H0 as [E|[]]. now injection E as _ <-. }
    apply in_nodes_from in Hin. destruct Hin as [[-> ->]|(k & ch & Hc & Hin)].
    + unfold keyed_ok. cbn [set_children children].
      rewrite distinct_dict_set by assumption. apply forallb_forall.
      intros kc Hkc. apply in_dict_set in Hkc. destruct Hkc as [->|Hkc]; [|auto].
      cbn [fst snd]. rewrite char_insert_from, Hchar. apply Ascii.eqb_refl.
    + cbn [set_children children] in Hc. apply in_dict_set in Hc.
      destruct Hc as [E|Hc].
      * injection E as -> ->. exact (IH child (snoc path c) Hchild q n Hin).
      * apply (Hall q). apply in_nodes_from. right. now exists k, ch.
Qed.

Lemma well_keyed_run (t : Trie) (op : operation) :
  well_keyed t = true -> well_keyed (run t op) = true.
Proof.
  intros H. destruct op as [w|prefix|vis]; simpl.
  - destruct w as [|c w]; [assumption|].
    unfold well_keyed, all_nodes, insert in *. cbn [root].
    rewrite forallb_forall in *. intros [q n] Hin.
    apply (insert_from_keyed (lower (String c w)) (lower (String c w))
                             (root t) ""%string) with (q := q); [|assumption].
    intros q0 n0 H0. exact (H _ H0).
  - apply (well_keyed_same_content t); [apply content_highlight_path|assumption].
  - apply (well_keyed_same_content t); [|assumption].
    apply content_position_node.
Qed.

Lemma well_keyed_run_all (ops : list operation) :
  well_keyed (fold_left run ops Trie_init) = true.
Proof.
  assert (H : well_keyed Trie_init = true) by reflexivity.
  revert H. generalize Trie_init.
  induction ops as [|op ops IH]; simpl; intros t Ht; [assumption|].
  apply IH. now apply well_keyed_run.
Qed.

(** X5: in every tree the engine builds, by any run of insertions,
    highlightings and layouts from the new tree, the children dict of
    every node has distinct keys and every child is stored under its own
    [char]. *)
Theorem children_keyed_by_char (ops : list operation) :
  well_keyed (fold_left run ops Trie_init) = true /\
  forall q n k child,
    In (q, n) (all_nodes (fold_left run ops Trie_init)) ->
    In (k, child) (children n) ->
    char child = k /\ dict_get k (children n) = Some child.
Proof.
  pose proof (well_keyed_run_all ops) as H. split; [assumption|].
  intros q n k child Hin Hc.
  unfold well_keyed in H. rewrite forallb_forall in H.
  specialize (H _ Hin). cbn [snd] in H. unfold keyed_ok in H.
  apply andb_true_iff in H. destruct H as [Hd Hf].
  rewrite forallb_forall in Hf. split.
  - specialize (Hf _ Hc). now apply Ascii.eqb_eq in Hf.
  - clear Hf. induction (children n) as [|[k' u] d IH]; [contradiction|].
    simpl in Hd |- *. apply andb_true_iff in Hd. destruct Hd as [Hk Hd].
    destruct Hc as [E|Hc].
    + injection E as -> ->. now rewrite Ascii.eqb_refl.
    + destruct (Ascii.eqb_spec k k') as [->|_]; [|auto].
      exfalso. apply negb_true_iff in Hk.
      assert (existsb (Ascii.eqb k') (map fst d) = true); [|congruence].
      apply existsb_exists. exists k'. split; [|apply Ascii.eqb_refl].
      now apply (in_map fst) in Hc.
Qed.

(* ------------------------------------------------------------------ *)
(** ** All nodes, breadth first *)

Lemma snd_nodes_from (node : TrieNode) :
  forall path, map snd (nodes_from node path) = descendants node.
Proof.
  unfold descendants.
  induction node as [c cs e w px py pf sf IH] using TrieNode_ind.
  intros path. rewrite !(nodes_from_eq (mkTrieNode _ _ _ _ _ _ _ _)). simpl.
  f_equal. induction IH as [|kc cs Hkc _ IHcs]; simpl; [reflexivity|].
  rewrite !map_app, IHcs. f_equal.
  now rewrite Hkc, <- (Hkc (snoc "" (fst kc))).
Qed.

Lemma descendants_eq (node : TrieNode) :
  descendants node = node :: flat_map descendants (values (children node)).
Proof.
  unfold descendants at 1. rewrite nodes_from_eq. simpl. f_equal.
  unfold values. induction (children node) as [|kc cs IH]; simpl; [reflexivity|].
  now rewrite map_app, IH, snd_nodes_from.
Qed.

Lemma size_descendants (node : TrieNode) : List.length (descendants node) = size node.
Proof.
  induction node as [c cs e w px py pf sf IH] using TrieNode_ind.
  rewrite descendants_eq. simpl. f_equal. unfold values.
  induction IH as [|kc cs Hkc _ IHcs]; simpl; [reflexivity|].
  now rewrite length_app, IHcs, Hkc.
Qed.

Lemma size_values (cs : list (ascii * TrieNode)) :
  list_sum (map size (values cs)) = list_sum (map (fun kc => size (snd kc)) cs).
Proof. unfold values. now rewrite map_map. Qed.

(** The loop empties the queue when the fuel covers the nodes below the
    queued ones, and appends each of those nodes once, the head of the
    queue first. *)
Lemma get_all_nodes_loop_spec (fuel : nat) :
  forall queue nodes,
    (list_sum (map size queue) <= fuel)%nat ->
    exists found,
      get_all_nodes_loop fuel queue nodes = Some (nodes ++ found) /\
      Permutation found (flat_map descendants queue) /\
      found = firstn 1 queue ++ skipn 1 found.
Proof.
  induction fuel as [|fuel IH]; intros queue nodes Hfuel.
  - destruct queue as [|node queue]; [|destruct node; simpl in Hfuel; lia].
    exists []. simpl. now rewrite app_nil_r.
  - destruct queue as [|node queue].
    + exists []. simpl. now rewrite app_nil_r.
    + cbn [get_all_nodes_loop].
      destruct (IH (queue ++ values (children node)) (nodes ++ [node]))
        as (found & Eloop & Hperm & _).
      { rewrite map_app, list_sum_app, size_values.
        simpl in Hfuel. destruct node; simpl in *. lia. }
      exists (node :: found). split; [|split].
      * rewrite Eloop. now rewrite <- app_assoc.
      * cbn [flat_map]. rewrite descendants_eq. cbn [app]. constructor.
        rewrite Hperm, flat_map_app. apply Permutation_app_comm.
      * reflexivity.
Qed.

(** X6: [get_all_nodes] returns every node of the tree exactly once, the
    root first; its loop ends within as many iterations as the tree has
    nodes, and a larger bound gives the same list. *)
Theorem get_all_nodes_complete (t : Trie) :
  exists rest,
    get_all_nodes t = Some (root t :: rest) /\
    Permutation (root t :: rest) (map snd (all_nodes t)) /\
    List.length (root t :: rest) = size (root t) /\
    forall fuel, (size (root t) <= fuel)%nat ->
                 get_all_nodes_loop fuel [root t] [] = Some (root t :: rest).
Proof.
  unfold get_all_nodes, all_nodes.
  destruct (get_all_nodes_loop_spec (size (root t)) [root t] [])
    as (found & Eloop & Hperm & Ehead); [simpl; lia|].
  simpl in Hperm, Ehead, Eloop. rewrite app_nil_r in Hperm.
  destruct found as [|h rest]; [discriminate Ehead|].
  injection Ehead as ->. exists rest.
  split; [assumption|]. split; [now rewrite snd_nodes_from|]. split.
  - rewrite <- size_descendants. now apply Permutation_length.
  - intros fuel Hfuel.
    destruct (get_all_nodes_loop_spec fuel [root t] [])
      as (found' & Eloop' & _ & _); [simpl; lia|].
    rewrite Eloop'. simpl. f_equal.
    (* the loop does not look at the fuel it has left *)
    assert (G : forall f1 f2 queue nodes r1 r2,
               get_all_nodes_loop f1 queue nodes = Some r1 ->
               get_all_nodes_loop f2 queue nodes = Some r2 -> r1 = r2).
    { clear. induction f1 as [|f1 IH]; intros f2 queue nodes r1 r2 H1 H2.
      - destruct queue; [|discriminate]. destruct f2; simpl in *; congruence.
      - destruct queue; [destruct f2; simpl in *; congruence|].
        destruct f2; [discriminate|]. simpl in *. eauto. }
    exact (G _ _ _ _ _ _ Eloop' Eloop).
Qed.

(* ------------------------------------------------------------------ *)
(** ** Counting the words *)

Lemma count_terminal_eq (node : TrieNode) :
  count_terminal node
  = ((if is_end_of_word node then 1 else 0)
     + list_sum (map (fun kc => count_terminal (snd kc)) (children node)))%nat.
Proof.
  unfold count_terminal at 1. rewrite descendants_eq. cbn [filter].
  assert (H : List.length (filter is_end_of_word
                             (flat_map descendants (values (children node))))
              = list_sum (map (fun kc => count_terminal (snd kc)) (children node))).
  { unfold values. induction (children node) as [|kc cs IH]; simpl; [reflexivity|].
    now rewrite filter_app, length_app, IH. }
  destruct (is_end_of_word node); simpl; now rewrite H.
Qed.

Lemma sum_dict_set {V : Type} (f : V -> nat) (c : ascii) (v : V) (d : list (ascii * V)) :
  (list_sum (map (fun kc => f (snd kc)) (dict_set c v d))
   + match dict_get c d with Some old => f old | None => 0 end
   = list_sum (map (fun kc => f (snd kc)) d) + f v)%nat.
Proof.
  induction d as [|[k u] d IH]; simpl; [lia|].
  destruct (Ascii.eqb c k); simpl; lia.
Qed.

(** An insertion adds one terminal node, unless the word was there. *)
Lemma count_insert_from (chars w : string) :
  forall node,
    count_terminal (insert_from node chars w)
    = (count_terminal node + if is_word_from node chars then 0 else 1)%nat.
Proof.
  induction chars as [|c rest IH]; intros node.
  - rewrite (count_terminal_eq (insert_from _ _ _)), (count_terminal_eq node).
    unfold is_word_from. simpl. destruct (is_end_of_word node); lia.
  - rewrite (count_terminal_eq (insert_from _ _ _)), (count_terminal_eq node).
    cbn [insert_from set_children children is_end_of_word].
    pose proof (sum_dict_set count_terminal c
                  (insert_from match dict_get c (children node) with
                               | Some child => child
                               | None => TrieNode_init c
                               end rest w) (children node)) as Hsum.
    rewrite IH in Hsum. unfold is_word_from at 1. cbn [walk].
    destruct (dict_get c (children node)) as [child|].
    + fold (is_word_from child rest). lia.
    + rewrite is_word_from_init in Hsum.
      replace (count_terminal (TrieNode_init c)) with 0%nat in Hsum by reflexivity.
      lia.
Qed.

Lemma nodup_snoc_length (l : list string) (a : string) :
  List.length (nodup string_dec (l ++ [a]))
  = (List.length (nodup string_dec l) + if in_dec string_dec a l then 0 else 1)%nat.
Proof.
  induction l as [|b l IH]; simpl; [reflexivity|].
  destruct (in_dec string_dec b (l ++ [a])) as [Hb|Hb];
    destruct (in_dec string_dec b l) as [Hb'|Hb'];
    destruct (string_dec b a) as [->|Hne];
    destruct (in_dec string_dec a l) as [Ha|Ha];
    simpl; rewrite IH;
    destruct (in_dec string_dec a l); try contradiction; try lia;
    exfalso;
    try (apply Hb; apply in_or_app; (now left) || (right; now left));
    try (apply in_app_or in Hb; destruct Hb as [?|[?|[]]]; congruence).
Qed.

Lemma total_words_count (t : Trie) : total_words t = Some (count_terminal (root t)).
Proof.
  unfold total_words, get_all_nodes, count_terminal.
  destruct (get_all_nodes_loop_spec (size (root t)) [root t] [])
    as (found & -> & Hperm & _); [simpl; lia|].
  simpl in *. rewrite app_nil_r in Hperm. f_equal.
  apply Permutation_length.
  clear - Hperm. induction Hperm; simpl;
    repeat match goal with |- context [is_end_of_word ?n] =>
                             destruct (is_end_of_word n) end;
    try constructor; try assumption; try apply perm_swap; try reflexivity.
  etransitivity; eassumption.
Qed.

Lemma count_insert (t : Trie) (c : ascii) (w : string) :
  count_terminal (root (insert t (String c w)))
  = (count_terminal (root t)
     + if is_word t (lower (String c w)) then 0 else 1)%nat.
Proof. unfold insert, is_word. cbn [root]. apply count_insert_from. Qed.

Lemma insert_all_snoc (t : Trie) (ws : list string) (w : string) :
  insert_all t (ws ++ [w]) = insert (insert_all t ws) w.
Proof. unfold insert_all. now rewrite fold_left_app. Qed.

Lemma count_insert_all (ws : list string) :
  count_terminal (root (insert_all Trie_init ws))
  = List.length (nodup string_dec (map lower (filter nonempty ws))).
Proof.
  induction ws as [|w ws IH] using rev_ind; [reflexivity|].
  rewrite insert_all_snoc, filter_app, map_app.
  destruct w as [|c w]; [simpl; now rewrite app_nil_r|].
  cbn [filter nonempty String.eqb negb map].
  rewrite nodup_snoc_length, <- IH, count_insert. f_equal.
  destruct (in_dec string_dec (lower (String c w)) (map lower (filter nonempty ws)))
    as [Hin|Hin].
  - replace (is_word (insert_all Trie_init ws) (lower (String c w))) with true;
      [reflexivity|].
    symmetry. apply insert_all_is_word. apply in_map_iff in Hin.
    destruct Hin as (w' & E & Hw'). apply filter_In in Hw'. destruct Hw' as [Hw' Hn].
    exists w'. split; [assumption|]. split; [|now symmetry].
    intros ->. discriminate Hn.
  - destruct (is_word (insert_all Trie_init ws) (lower (String c w))) eqn:E;
      [|reflexivity].
    exfalso. apply Hin. apply insert_all_is_word in E.
    destruct E as (w' & Hw' & Hn & E). rewrite E. apply in_map, filter_In.
    split; [assumption|]. unfold nonempty. now apply negb_true_iff, String.eqb_neq.
Qed.

(** X7: the word count of the information panel.  After any sequence of
    insertions into a new tree, counting the terminal nodes of
    [get_all_nodes] gives the number of distinct lowercased non-empty
    words inserted. *)
Theorem total_words_distinct (ws : list string) :
  total_words (insert_all Trie_init ws)
  = Some (List.length (nodup string_dec (map lower (filter nonempty ws)))).
Proof. now rewrite total_words_count, count_insert_all. Qed.

(* ------------------------------------------------------------------ *)
(** ** Searching, marking and layout do not disturb each other *)

Lemma insert_sorted_map {A B : Type} (leb : A -> A -> bool) (leb' : B -> B -> bool)
      (f : A -> B) (a : A) (l : list A) :
  (forall u v, leb' (f u) (f v) = leb u v) ->
  insert_sorted leb' (f a) (map f l) = map f (insert_sorted leb a l).
Proof.
  intros H. induction l as [|b l IH]; simpl; [reflexivity|].
  rewrite H. destruct (leb a b); simpl; [reflexivity|now rewrite IH].
Qed.

Lemma sorted_by_map {A B : Type} (leb : A -> A -> bool) (leb' : B -> B -> bool)
      (f : A -> B) (l : list A) :
  (forall u v, leb' (f u) (f v) = leb u v) ->
  sorted_by leb' (map f l) = map f (sorted_by leb l).
Proof.
  intros H. induction l as [|a l IH]; simpl; [reflexivity|].
  rewrite IH. now apply insert_sorted_map.
Qed.

(** The collection reads only the content of the tree. *)
Lemma collect_content (node : TrieNode) :
  forall words max_words,
    _collect_all_words (content node) words max_words
    = _collect_all_words node words max_words.
Proof.
  induction node as [c cs e w px py pf sf IH] using TrieNode_ind.
  intros words max_words. rewrite !collect_eq. cbn [content children is_end_of_word word].
  destruct (max_words <=? List.length words)%nat; [reflexivity|].
  rewrite map_map. cbn [fst snd].
  rewrite (sorted_by_map (fun a b : ascii * TrieNode => Ascii.leb (fst a) (fst b))
             (fun a b => Ascii.leb (fst a) (fst b))
             (fun kc => (fst kc, _collect_all_words (content (snd kc)))))
    by reflexivity.
  rewrite (sorted_by_map (fun a b : ascii * TrieNode => Ascii.leb (fst a) (fst b))
             (fun a b => Ascii.leb (fst a) (fst b))
             (fun kc => (fst kc, _collect_all_words (snd kc))))
    by reflexivity.
  assert (Hs : forall kc,
             In kc (sorted_by (fun a b : ascii * TrieNode => Ascii.leb (fst a) (fst b)) cs) ->
             forall ws m, _collect_all_words (content (snd kc)) ws m
                          = _collect_all_words (snd kc) ws m).
  { intros kc Hin. apply sorted_by_In in Hin. rewrite Forall_forall in IH. auto. }
  revert Hs.
  generalize (sorted_by (fun a b : ascii * TrieNode => Ascii.leb (fst a) (fst b)) cs).
  generalize (if e then words ++ [w] else words).
  intros ws l. revert ws. induction l as [|kc l IHl]; intros ws Hs; simpl; [reflexivity|].
  rewrite Hs by now left. apply IHl. intros; apply Hs; now right.
Qed.

Lemma get_suggestions_same_content (t t' : Trie) (prefix : string) :
  content (root t') = content (root t) ->
  words_of (get_suggestions t' prefix) = words_of (get_suggestions t prefix).
Proof.
  intros E. unfold get_suggestions.
  destruct prefix as [|c0 p0]; [reflexivity|].
  pose proof (walk_content (lower (String c0 p0)) (root t')) as Hw.
  rewrite E, walk_content in Hw.
  destruct (walk (root t') (lower (String c0 p0))) as [n'|],
           (walk (root t) (lower (String c0 p0))) as [n|];
    try discriminate Hw; [|reflexivity].
  injection Hw as Hn.
  rewrite <- (collect_content n'), <- Hn, collect_content.
  now destruct (all_str (_collect_all_words n [] 8)).
Qed.

(** X8: neither highlighting nor layout changes what a search returns:
    after [highlight_path] with any prefix, and after
    [calculate_node_positions], [get_suggestions] gives for every prefix
    the word list it gave before (or raises as before). *)
Theorem search_undisturbed (t : Trie) (vis : TrieVisualizer) (marked prefix : string) :
  words_of (get_suggestions (highlight_path t marked) prefix)
  = words_of (get_suggestions t prefix) /\
  words_of (get_suggestions (calculate_node_positions vis t) prefix)
  = words_of (get_suggestions t prefix).
Proof.
  split; apply get_suggestions_same_content.
  - apply content_highlight_path.
  - apply content_position_node.
Qed.

Lemma reset_eq (node : TrieNode) :
  _reset_highlights node
  = mkTrieNode (char node)
               (map (fun kc => (fst kc, _reset_highlights (snd kc))) (children node))
               (is_end_of_word node) (word node) (x node) (y node) false false.
Proof. now destruct node. Qed.

Lemma reset_reset (node : TrieNode) :
  _reset_highlights (_reset_highlights node) = _reset_highlights node.
Proof.
  induction node as [c cs e w px py pf sf IH] using TrieNode_ind.
  simpl. f_equal. rewrite map_map. apply map_ext_in. intros [k child] Hin.
  rewrite Forall_forall in IH. simpl. f_equal. exact (IH _ Hin).
Qed.

Lemma reset_mark (node : TrieNode) :
  _reset_highlights (_mark_suggestion_subtree node) = _reset_highlights node.
Proof.
  induction node as [c cs e w px py pf sf IH] using TrieNode_ind.
  simpl. f_equal. rewrite map_map. apply map_ext_in. intros [k child] Hin.
  rewrite Forall_forall in IH. simpl. f_equal. exact (IH _ Hin).
Qed.

Lemma reset_highlight_from (chars : string) :
  forall node, _reset_highlights (highlight_from node chars) = _reset_highlights node.
Proof.
  induction chars as [|c rest IH]; intros node; simpl.
  - apply reset_mark.
  - destruct (dict_get c (children node)) as [child|] eqn:Hc; [|reflexivity].
    rewrite (reset_eq (set_children _ _)), (reset_eq node). simpl.
    f_equal. apply (map_dict_set_same _reset_highlights c child); [assumption|].
    rewrite IH. now destruct child.
Qed.

Lemma reset_highlight_path (t : Trie) (prefix : string) :
  _reset_highlights (root (highlight_path t prefix)) = _reset_highlights (root t).
Proof.
  unfold highlight_path. destruct prefix; cbn [root].
  - apply reset_reset.
  - now rewrite reset_highlight_from, reset_reset.
Qed.

(** X9: the marks are those of the last query only: [highlight_path]
    after an earlier [highlight_path] gives the very tree it gives
    without the earlier call. *)
Theorem highlight_last_query (t : Trie) (earlier prefix : string) :
  highlight_path (highlight_path t earlier) prefix = highlight_path t prefix.
Proof.
  unfold highlight_path at 1 3. rewrite reset_highlight_path. reflexivity.
Qed.

Lemma nodes_from_reset (node : TrieNode) :
  forall path,
    nodes_from (_reset_highlights node) path
    = map (fun qn => (fst qn, _reset_highlights (snd qn))) (nodes_from node path).
Proof.
  induction node as [c cs e w px py pf sf IH] using TrieNode_ind.
  intros path. rewrite (nodes_from_eq (mkTrieNode _ _ _ _ _ _ _ _)), nodes_from_eq.
  simpl. f_equal.
  induction cs as [|[k child] cs IHcs]; simpl; [reflexivity|].
  rewrite map_app. inversion IH as [|? ? Hc Hcs]; subst. simpl in Hc.
  now rewrite Hc, IHcs.
Qed.

Lemma positions_reset (r : TrieNode) :
  positions (mkTrie (_reset_highlights r)) = positions (mkTrie r).
Proof.
  unfold positions, all_nodes. cbn [root]. rewrite nodes_from_reset, map_map.
  apply map_ext. intros [q n]. now destruct n.
Qed.

(** X10: [highlight_path] moves no node and changes no word: the
    coordinates of every node, path by path, and the content of the
    tree are after it what they were before. *)
Theorem highlight_keeps_layout (t : Trie) (prefix : string) :
  positions (highlight_path t prefix) = positions t /\
  content (root (highlight_path t prefix)) = content (root t).
Proof.
  split; [|apply content_highlight_path].
  destruct t as [r]. rewrite <- (positions_reset r).
  destruct (highlight_path (mkTrie r) prefix) as [r'] eqn:E.
  rewrite <- (positions_reset r'). f_equal. f_equal.
  change r' with (root (mkTrie r')). rewrite <- E.
  apply (reset_highlight_path (mkTrie r)).
Qed.

Lemma position_node_eq (vis : TrieVisualizer) (node : TrieNode) (px py : Z) :
  position_node vis node px py
  = mkTrieNode (char node)
      (map (fun ic =>
              (fst (snd ic),
               position_node vis (snd (snd ic))
                 (slot_x (fst ic)
                    (assign_x vis (sorted_by child_leb (enumerate (values (children node))))
                              px))
                 (py + level_height vis)%Z))
           (enumerate (children node)))
      (is_end_of_word node) (word node)
      (px + get_leaf_count node * horizontal_spacing vis / 2)%Z py
      (is_path_node node) (is_in_subtree node).
Proof. destruct node. simpl. now rewrite enumerate_map, map_map. Qed.

Lemma combine_seq_map {A B : Type} (h : nat * A -> B) (l : list A) :
  forall s,
    combine (seq s (List.length l)) (map h (combine (seq s (List.length l)) l))
    = map (fun ic => (fst ic, h ic)) (combine (seq s (List.length l)) l).
Proof.
  induction l as [|a l IH]; intros s; simpl; [reflexivity|]. now rewrite IH.
Qed.

Lemma enumerate_map_enumerate {A B : Type} (h : nat * A -> B) (l : list A) :
  enumerate (map h (enumerate l)) = map (fun ic => (fst ic, h ic)) (enumerate l).
Proof.
  unfold enumerate at 1. rewrite length_map.
  replace (List.length (enumerate l)) with (List.length l).
  - apply combine_seq_map.
  - unfold enumerate. rewrite length_combine, length_seq. lia.
Qed.

Lemma assign_x_map_ext {A : Type} (vis : TrieVisualizer)
      (g1 g : A -> nat * TrieNode) (l : list A) :
  (forall a, fst (g1 a) = fst (g a) /\
             get_leaf_count (snd (g1 a)) = get_leaf_count (snd (g a))) ->
  forall px, assign_x vis (map g1 l) px = assign_x vis (map g l) px.
Proof.
  intros H. induction l as [|a l IH]; intros px; simpl; [reflexivity|].
  destruct (H a) as [Hf Hl].
  destruct (g1 a) as [i1 c1], (g a) as [i c]. simpl in Hf, Hl. subst i1.
  now rewrite Hl, IH.
Qed.

(** The slots [position_node] hands out depend on the children only
    through their characters and leaf counts. *)
Lemma assign_x_positioned (vis vis' : TrieVisualizer) (cs : list (ascii * TrieNode))
      (place : nat * (ascii * TrieNode) -> Z * Z) (px : Z) :
  assign_x vis
    (sorted_by child_leb
       (enumerate (map (fun ic => position_node vis' (snd (snd ic))
                                    (fst (place ic)) (snd (place ic)))
                       (enumerate cs)))) px
  = assign_x vis (sorted_by child_leb (enumerate (values cs))) px.
Proof.
  rewrite enumerate_map_enumerate. unfold values. rewrite enumerate_map.
  rewrite (sorted_by_map
             (fun a b : nat * (ascii * TrieNode) =>
                Ascii.leb (char (snd (snd a))) (char (snd (snd b))))
             child_leb
             (fun ic => (fst ic, position_node vis' (snd (snd ic))
                                   (fst (place ic)) (snd (place ic)))))
    by (intros u v; unfold child_leb; cbn [snd]; now rewrite !char_position).
  rewrite (sorted_by_map
             (fun a b : nat * (ascii * TrieNode) =>
                Ascii.leb (char (snd (snd a))) (char (snd (snd b))))
             child_leb
             (fun ic => (fst ic, snd (snd ic))))
    by reflexivity.
  apply assign_x_map_ext. intros a. cbn [fst snd]. split; [reflexivity|].
  apply get_leaf_count_position.
Qed.

(** A layout does not depend on the coordinates the nodes had. *)
Lemma position_node_again (vis vis' : TrieVisualizer) (node : TrieNode) :
  forall a b px py,
    position_node vis (position_node vis' node a b) px py
    = position_node vis node px py.
Proof.
  induction node as [c cs e w px0 py0 pf sf IH] using TrieNode_ind.
  intros a b px py.
  rewrite (position_node_eq vis (position_node vis' _ a b)).
  rewrite get_leaf_count_position.
  rewrite (position_node_eq vis' (mkTrieNode c cs e w px0 py0 pf sf)).
  cbn [char children is_end_of_word word is_path_node is_in_subtree].
  rewrite (position_node_eq vis (mkTrieNode c cs e w px0 py0 pf sf)).
  cbn [char children is_end_of_word word is_path_node is_in_subtree].
  f_equal.
  unfold values at 1. rewrite map_map. cbn [snd].
  set (place := fun ic : nat * (ascii * TrieNode) =>
                  (slot_x (fst ic)
                     (assign_x vis' (sorted_by child_leb (enumerate (values cs))) a),
                   (b + level_height vis')%Z)).
  change (map (fun ic : nat * (ascii * TrieNode) =>
                 position_node vis' (snd (snd ic))
                   (slot_x (fst ic)
                      (assign_x vis' (sorted_by child_leb (enumerate (values cs))) a))
                   (b + level_height vis')%Z) (enumerate cs))
    with (map (fun ic => position_node vis' (snd (snd ic))
                           (fst (place ic)) (snd (place ic))) (enumerate cs)).
  rewrite assign_x_positioned.
  rewrite enumerate_map_enumerate, map_map. cbn [fst snd].
  apply map_ext_in. intros [i [k child]] Hin. cbn [fst snd]. f_equal.
  rewrite Forall_forall in IH. apply (IH (k, child)).
  unfold enumerate in Hin. eapply in_combine_r, Hin.
Qed.

Lemma nodes_from_position_flags (vis : TrieVisualizer) (node : TrieNode) :
  forall px py path,
    map (fun qn => (fst qn, (is_path_node (snd qn), is_in_subtree (snd qn))))
        (nodes_from (position_node vis node px py) path)
    = map (fun qn => (fst qn, (is_path_node (snd qn), is_in_subtree (snd qn))))
          (nodes_from node path).
Proof.
  induction node as [c cs e w px0 py0 pf sf IH] using TrieNode_ind.
  intros px py path.
  rewrite (nodes_from_eq (position_node _ _ _ _)), position_node_children.
  rewrite (nodes_from_eq (mkTrieNode _ _ _ _ _ _ _ _)).
  cbn [map children fst snd is_path_node is_in_subtree position_node]. f_equal.
  generalize (assign_x vis (sorted_by child_leb (enumerate (values cs))) px).
  intros xs. unfold enumerate. generalize 0%nat.
  induction IH as [|[k child] cs Hc _ IHcs]; intros s; simpl; [reflexivity|].
  rewrite !map_app, IHcs. f_equal. apply Hc.
Qed.

(** X11: a layout pass writes coordinates and nothing else, and does not
    read the old ones: laying out a tree that was laid out before, with
    whatever constants, gives the tree the layout gives without the
    earlier pass, and the flags and the content of the tree are after the
    pass what they were before. *)
Theorem layout_overwrites (vis vis' : TrieVisualizer) (t : Trie) :
  calculate_node_positions vis (calculate_node_positions vis' t)
  = calculate_node_positions vis t /\
  flags (calculate_node_positions vis t) = flags t /\
  content (root (calculate_node_positions vis t)) = content (root t).
Proof.
  split; [|split].
  - unfold calculate_node_positions. cbn [root].
    now rewrite get_leaf_count_position, position_node_again.
  - unfold flags, all_nodes, calculate_node_positions. cbn [root].
    apply nodes_from_position_flags.
  - apply content_position_node.
Qed.

(* ------------------------------------------------------------------ *)
(** ** Layout: nodes stay inside their spans and apart from each other *)

Lemma abut_le (vis : TrieVisualizer) (l : list (TrieNode * Z)) :
  forall lo hi,
    (forall c s, In (c, s) l -> (0 <= span_width vis c)%Z) ->
    abut vis lo hi l -> (lo <= hi)%Z.
Proof.
  induction l as [|[c0 s0] l IH]; simpl; intros lo hi Hw Hab; [lia|].
  destruct Hab as [_ Hab].
  pose proof (Hw c0 s0 (or_introl eq_refl)).
  assert (lo + span_width vis c0 <= hi)%Z; [|lia].
  apply IH; [|assumption]. intros c s Hin. apply (Hw c s). now right.
Qed.

Lemma abut_upper (vis : TrieVisualizer) (l : list (TrieNode * Z)) :
  forall lo hi,
    (forall c s, In (c, s) l -> (0 <= span_width vis c)%Z) ->
    abut vis lo hi l ->
    forall c s, In (c, s) l -> (s + span_width vis c <= hi)%Z.
Proof.
  induction l as [|[c0 s0] l IH]; simpl; intros lo hi Hw Hab c s Hin; [contradiction|].
  destruct Hab as [-> Hab].
  assert (Hw' : forall c s, In (c, s) l -> (0 <= span_width vis c)%Z)
    by (intros c' s' H'; apply (Hw c' s'); now right).
  destruct Hin as [E|Hin].
  - injection E as <- <-. exact (abut_le vis l _ hi Hw' Hab).
  - exact (IH _ hi Hw' Hab c s Hin).
Qed.

Lemma Forall2_combine_In {A B : Type} (R : A * B -> Z -> Prop)
      (l : list (A * B)) (l' : list Z) (a : A) (b : B) :
  Forall2 R l l' -> In (a, b) l ->
  exists s, In (b, s) (combine (map snd l) l') /\ R (a, b) s.
Proof.
  induction 1 as [|ab s l l' H0 _ IH]; simpl; intros Hin; [contradiction|].
  destruct Hin as [->|Hin].
  - exists s. split; [now left|assumption].
  - destruct (IH Hin) as (s' & Hs' & HR). exists s'. split; [now right|assumption].
Qed.

(** The sub-span of a child lies inside the span of its parent. *)
Lemma laid_out_child (vis : TrieVisualizer) (n : TrieNode) (sx : Z) (depth : nat)
      (k : ascii) (child : TrieNode) :
  (0 < horizontal_spacing vis)%Z ->
  laid_out vis n sx depth -> In (k, child) (children n) ->
  exists s, laid_out vis child s (S depth) /\
            (sx <= s)%Z /\ (s + span_width vis child <= sx + span_width vis n)%Z.
Proof.
  intros Hsp Hlaid Hc.
  inversion Hlaid as [? ? ? spans order hi Hx Hin Hy Hchildren Hperm Hsorted Habut Hhi Hsib];
    subst.
  destruct (Forall2_combine_In _ _ _ k child Hchildren Hc) as (s & Hs & Hl).
  exists s. split; [exact Hl|].
  assert (Hw : forall c s0, In (c, s0) order -> (0 <= span_width vis c)%Z).
  { intros c s0 _. pose proof (span_width_pos vis c Hsp). lia. }
  assert (Ho : In (child, s) order)
    by (eapply Permutation_in; [apply Permutation_sym, Hperm|exact Hs]).
  split; [exact (abut_lower vis order sx hi Hw Habut child s Ho)|].
  rewrite <- Hhi by (intros E; rewrite E in Hc; contradiction).
  exact (abut_upper vis order sx hi Hw Habut child s Ho).
Qed.

(** Of two children, the one with the smaller character has its sub-span
    to the left. *)
Lemma laid_out_siblings (vis : TrieVisualizer) (n : TrieNode) (sx : Z) (depth : nat)
      (k1 k2 : ascii) (c1 c2 : TrieNode) :
  laid_out vis n sx depth ->
  In (k1, c1) (children n) -> In (k2, c2) (children n) ->
  Ascii.ltb (char c1) (char c2) = true ->
  exists s1 s2, laid_out vis c1 s1 (S depth) /\ laid_out vis c2 s2 (S depth) /\
                (s1 + span_width vis c1 <= s2)%Z.
Proof.
  intros Hlaid H1 H2 Hlt.
  inversion Hlaid as [? ? ? spans order hi Hx Hin Hy Hchildren Hperm Hsorted Habut Hhi Hsib];
    subst.
  destruct (Forall2_combine_In _ _ _ k1 c1 Hchildren H1) as (s1 & Hs1 & Hl1).
  destruct (Forall2_combine_In _ _ _ k2 c2 Hchildren H2) as (s2 & Hs2 & Hl2).
  exists s1, s2. split; [exact Hl1|]. split; [exact Hl2|].
  exact (proj1 (Hsib c1 s1 c2 s2 Hs1 Hs2 Hlt)).
Qed.

(** Every node below a laid-out node is at least half a unit inside the
    span of that node, on both sides. *)
Lemma laid_out_inside (vis : TrieVisualizer) (n : TrieNode) :
  (0 < horizontal_spacing vis)%Z ->
  forall sx depth path q m,
    laid_out vis n sx depth -> In (q, m) (nodes_from n path) ->
    (sx + horizontal_spacing vis / 2 <= x m)%Z /\
    (x m + (horizontal_spacing vis - horizontal_spacing vis / 2)
     <= sx + span_width vis n)%Z.
Proof.
  intros Hsp.
  induction n as [c cs e w px py pf sf IH] using TrieNode_ind.
  intros sx depth path q m Hlaid Hin.
  apply in_nodes_from in Hin. destruct Hin as [[-> ->]|(k & child & Hc & Hin)].
  - inversion Hlaid as [? ? ? spans order hi Hx _ _ _ _ _ _ _ _]; subst.
    rewrite Hx. unfold span_width.
    pose proof (get_leaf_count_pos (mkTrieNode c cs e w px py pf sf)) as Hleaf.
    set (leaf := get_leaf_count (mkTrieNode c cs e w px py pf sf)) in *.
    assert (horizontal_spacing vis <= leaf * horizontal_spacing vis)%Z by nia.
    Z.div_mod_to_equations. lia.
  - cbn [children] in Hc.
    destruct (laid_out_child vis _ sx depth k child Hsp Hlaid Hc)
      as (s & Hl & Hlo & Hhi).
    rewrite Forall_forall in IH.
    destruct (IH _ Hc s (S depth) (snoc path k) q m Hl Hin) as [H1 H2].
    cbn [snd] in *. lia.
Qed.

Lemma layout_root_laid_out (vis : TrieVisualizer) (t : Trie) :
  (0 < horizontal_spacing vis)%Z ->
  exists start, laid_out vis (root (calculate_node_positions vis t)) start 0.
Proof.
  intros Hsp. unfold calculate_node_positions. cbn [root]. eexists.
  replace (start_y vis) with (start_y vis + Z.of_nat 0 * level_height vis)%Z
    by (simpl; lia).
  now apply position_node_laid_out.
Qed.

(** X12: after a layout pass with a positive [horizontal_spacing] every
    node has its x inside the span of the tree, half a unit from either
    end: between max(20, (C - W) // 2) + unit // 2 and that start plus
    W minus the other half of the unit, where W is the leaf count of the
    root times the unit and C the width of the drawing area.  So when
    W + 40 <= C, every node is at least 20 + unit // 2 from the left edge
    of the area and from its right edge. *)
Theorem layout_within_span (vis : TrieVisualizer) (t : Trie)
        (Hspacing : (0 < horizontal_spacing vis)%Z) :
  let unit := horizontal_spacing vis in
  let W := span_width vis (root t) in
  let start := Z.max 20 ((draw_area_width vis - W) / 2) in
  forall q n, In (q, n) (all_nodes (calculate_node_positions vis t)) ->
    (start + unit / 2 <= x n)%Z /\
    (x n + (unit - unit / 2) <= start + W)%Z /\
    ((W + 40 <= draw_area_width vis)%Z ->
     (20 + unit / 2 <= x n)%Z /\
     (x n + (unit - unit / 2) <= draw_area_width vis - 20)%Z).
Proof.
  intros unit W start q n Hin.
  assert (Hroot : laid_out vis (root (calculate_node_positions vis t)) start 0).
  { unfold calculate_node_positions, start, W, span_width. cbn [root].
    set (sx0 := ((draw_area_width vis
                  - get_leaf_count (root t) * horizontal_spacing vis) / 2)%Z).
    replace (if (sx0 <? 20)%Z then 20%Z else sx0) with (Z.max 20 sx0)
      by (destruct (Z.ltb_spec sx0 20); lia).
    replace (start_y vis) with (start_y vis + Z.of_nat 0 * level_height vis)%Z
      by (simpl; lia).
    now apply position_node_laid_out. }
  destruct (laid_out_inside vis _ Hspacing start 0%nat ""%string q n Hroot Hin)
    as [H1 H2].
  unfold calculate_node_positions in H2. cbn [root] in H2.
  rewrite span_width_position in H2. fold W in H2. fold unit in H1, H2.
  split; [exact H1|]. split; [exact H2|].
  intros Hfit. unfold start in *.
  assert (20 <= (draw_area_width vis - W) / 2)%Z
    by (apply Z.div_le_lower_bound; lia).
  assert (2 * ((draw_area_width vis - W) / 2) <= draw_area_width vis - W)%Z
    by (apply Z.mul_div_le; lia).
  lia.
Qed.

Lemma layout_within_span_witness :
  (0 < horizontal_spacing TrieVisualizer_init)%Z /\
  let unit := horizontal_spacing TrieVisualizer_init in
  let W := span_width TrieVisualizer_init (root (insert_all Trie_init initial_words)) in
  let start := Z.max 20 ((draw_area_width TrieVisualizer_init - W) / 2) in
  forall q n,
    In (q, n) (all_nodes (calculate_node_positions TrieVisualizer_init
                            (insert_all Trie_init initial_words))) ->
    (start + unit / 2 <= x n)%Z /\
    (x n + (unit - unit / 2) <= start + W)%Z /\
    ((W + 40 <= draw_area_width TrieVisualizer_init)%Z ->
     (20 + unit / 2 <= x n)%Z /\
     (x n + (unit - unit / 2) <= draw_area_width TrieVisualizer_init - 20)%Z).
Proof.
  split; [reflexivity|].
  apply (layout_within_span TrieVisualizer_init (insert_all Trie_init initial_words)).
  reflexivity.
Defined.

Lemma distinct_dict_get {V : Type} (k : ascii) (v : V) (d : list (ascii * V)) :
  distinct (map fst d) = true -> In (k, v) d -> dict_get k d = Some v.
Proof.
  induction d as [|[k' u] d IH]; [contradiction|].
  simpl. intros Hd Hin. apply andb_true_iff in Hd. destruct Hd as [Hk Hd].
  destruct Hin as [E|Hin].
  - injection E as -> ->. now rewrite Ascii.eqb_refl.
  - destruct (Ascii.eqb_spec k k') as [->|_]; [|auto].
    exfalso. apply negb_true_iff in Hk.
    assert (existsb (Ascii.eqb k') (map fst d) = true); [|congruence].
    apply existsb_exists. exists k'. split; [|apply Ascii.eqb_refl].
    now apply (in_map fst) in Hin.
Qed.

Lemma ascii_ltb_total (a b : ascii) :
  a <> b -> Ascii.ltb a b = true \/ Ascii.ltb b a = true.
Proof.
  intros Hne. unfold Ascii.ltb. rewrite (Ascii.compare_antisym b a).
  destruct (Ascii.compare a b) eqn:E; simpl; auto.
  apply Ascii.compare_eq_iff in E. contradiction.
Qed.

(** Two nodes of a row, below a laid-out node whose dicts are keyed by
    the characters of the children, are a unit apart. *)
Lemma laid_out_rows (vis : TrieVisualizer) (n : TrieNode) :
  (0 < horizontal_spacing vis)%Z ->
  forall sx depth path,
    laid_out vis n sx depth ->
    (forall q m, In (q, m) (nodes_from n path) -> keyed_ok m = true) ->
    forall q1 m1 q2 m2,
      In (q1, m1) (nodes_from n path) -> In (q2, m2) (nodes_from n path) ->
      String.length q1 = String.length q2 -> q1 <> q2 ->
      (horizontal_spacing vis <= Z.abs (x m1 - x m2))%Z.
Proof.
  intros Hsp.
  induction n as [c cs e w px py pf sf IH] using TrieNode_ind.
  intros sx depth path Hlaid Hkeys q1 m1 q2 m2 H1 H2 Hlen Hne.
  set (node := mkTrieNode c cs e w px py pf sf) in *.
  assert (Hlonger : forall k child q m,
             In (q, m) (nodes_from child (snoc path k)) ->
             (String.length path < String.length q)%nat).
  { intros k child q m Hq. destruct (nodes_from_prefix _ _ _ _ Hq) as [r ->].
    rewrite snoc_append, append_length. simpl. lia. }
  apply in_nodes_from in H1, H2.
  destruct H1 as [[-> ->]|(k1 & c1 & Hc1 & H1)], H2 as [[-> ->]|(k2 & c2 & Hc2 & H2)].
  - contradiction.
  - pose proof (Hlonger _ _ _ _ H2). lia.
  - pose proof (Hlonger _ _ _ _ H1). lia.
  - cbn [children] in Hc1, Hc2.
    pose proof (Hkeys path node (in_nodes_from_top _ _)) as Htop.
    unfold keyed_ok in Htop. apply andb_true_iff in Htop.
    destruct Htop as [Hd Hf]. rewrite forallb_forall in Hf. cbn [children] in Hd, Hf.
    assert (Hsub : forall k child, In (k, child) cs ->
                     forall q m, In (q, m) (nodes_from child (snoc path k)) ->
                                 keyed_ok m = true).
    { intros k child Hc q m Hq. apply (Hkeys q). apply in_nodes_from. right.
      now exists k, child. }
    rewrite Forall_forall in IH.
    destruct (Ascii.eqb_spec k1 k2) as [<-|Hk].
    + assert (c1 = c2).
      { pose proof (distinct_dict_get k1 c1 cs Hd Hc1) as E1.
        pose proof (distinct_dict_get k1 c2 cs Hd Hc2) as E2. congruence. }
      subst c2.
      destruct (laid_out_child vis node sx depth k1 c1 Hsp Hlaid Hc1) as (s & Hl & _).
      exact (IH _ Hc1 s (S depth) (snoc path k1) Hl (Hsub _ _ Hc1)
                q1 m1 q2 m2 H1 H2 Hlen Hne).
    + pose proof (Hf _ Hc1) as E1. pose proof (Hf _ Hc2) as E2.
      cbn [fst snd] in E1, E2. apply Ascii.eqb_eq in E1, E2.
      assert (Hside : forall ka ca kb cb qa ma qb mb,
                 In (ka, ca) cs -> In (kb, cb) cs ->
                 In (qa, ma) (nodes_from ca (snoc path ka)) ->
                 In (qb, mb) (nodes_from cb (snoc path kb)) ->
                 Ascii.ltb (char ca) (char cb) = true ->
                 (horizontal_spacing vis <= x mb - x ma)%Z).
      { intros ka ca kb cb qa ma qb mb Ha Hb Hqa Hqb Hlt.
        destruct (laid_out_siblings vis node sx depth ka kb ca cb Hlaid Ha Hb Hlt)
          as (sa & sb & Hla & Hlb & Hsep).
        destruct (laid_out_inside vis ca Hsp sa (S depth) _ qa ma Hla Hqa) as [_ Ha2].
        destruct (laid_out_inside vis cb Hsp sb (S depth) _ qb mb Hlb Hqb) as [Hb1 _].
        lia. }
      destruct (ascii_ltb_total k1 k2 Hk) as [Hlt|Hlt]; rewrite <- E1, <- E2 in Hlt.
      * pose proof (Hside _ _ _ _ _ _ _ _ Hc1 Hc2 H1 H2 Hlt). lia.
      * pose proof (Hside _ _ _ _ _ _ _ _ Hc2 Hc1 H2 H1 Hlt). lia.
Qed.

(** X13: nodes of a row do not come close.  After a layout pass with a
    positive [horizontal_spacing], on a tree whose dicts are keyed by the
    characters of the children (as in every tree the engine builds), two
    different nodes at the same depth have x coordinates at least
    [horizontal_spacing] apart. *)
Theorem rows_apart (vis : TrieVisualizer) (t : Trie)
        (Hspacing : (0 < horizontal_spacing vis)%Z)
        (Hkeys : well_keyed t = true) :
  forall q1 n1 q2 n2,
    In (q1, n1) (all_nodes (calculate_node_positions vis t)) ->
    In (q2, n2) (all_nodes (calculate_node_positions vis t)) ->
    String.length q1 = String.length q2 -> q1 <> q2 ->
    (horizontal_spacing vis <= Z.abs (x n1 - x n2))%Z.
Proof.
  assert (Hk' : well_keyed (calculate_node_positions vis t) = true).
  { apply (well_keyed_same_content t); [apply content_position_node|assumption]. }
  destruct (layout_root_laid_out vis t Hspacing) as [start Hroot].
  apply (laid_out_rows vis _ Hspacing start 0%nat ""%string Hroot).
  intros q m Hin. unfold well_keyed in Hk'. rewrite forallb_forall in Hk'.
  exact (Hk' _ Hin).
Qed.

Lemma rows_apart_witness :
  (0 < horizontal_spacing TrieVisualizer_init)%Z /\
  well_keyed (insert_all Trie_init initial_words) = true /\
  forall q1 n1 q2 n2,
    In (q1, n1) (all_nodes (calculate_node_positions TrieVisualizer_init
                              (insert_all Trie_init initial_words))) ->
    In (q2, n2) (all_nodes (calculate_node_positions TrieVisualizer_init
                              (insert_all Trie_init initial_words))) ->
    String.length q1 = String.length q2 -> q1 <> q2 ->
    (horizontal_spacing TrieVisualizer_init <= Z.abs (x n1 - x n2))%Z.
Proof.
  split; [reflexivity|]. split; [vm_compute; reflexivity|].
  apply (rows_apart TrieVisualizer_init (insert_all Trie_init initial_words)).
  - reflexivity.
  - vm_compute. reflexivity.
Defined.

(* ------------------------------------------------------------------ *)
(** ** The text box *)

Lemma drop_last_length (s : string) :
  (String.length (drop_last s) <= String.length s)%nat.
Proof.
  induction s as [|c s IH]; simpl; [lia|]. destruct s; simpl in *; lia.
Qed.

Lemma all_chars_drop_last (p : ascii -> bool) (s : string) :
  all_chars p s = true -> all_chars p (drop_last s) = true.
Proof.
  induction s as [|c s IH]; simpl; [auto|]. intros H.
  apply andb_true_iff in H. destruct H as [Hc Hs].
  destruct s; [reflexivity|]. cbn [all_chars]. rewrite Hc. now apply IH.
Qed.

Lemma all_chars_app (p : ascii -> bool) (a b : string) :
  all_chars p (a ++ b) = all_chars p a && all_chars p b.
Proof.
  induction a as [|c a IH]; simpl; [reflexivity|]. now rewrite IH, andb_assoc.
Qed.

Lemma all_chars_weaken (p p' : ascii -> bool) (s : string) :
  (forall c, p c = true -> p' c = true) ->
  all_chars p s = true -> all_chars p' s = true.
Proof.
  intros H. induction s as [|c s IH]; simpl; [auto|]. intros Hs.
  apply andb_true_iff in Hs. destruct Hs as [Hc Hs]. now rewrite (H c Hc), IH.
Qed.

Lemma handle_event_keeps (tb : TextBox) (e : Event) :
  one_char e = true ->
  (String.length (text tb) <= 25)%nat -> letters_and_spaces (text tb) = true ->
  (String.length (text (fst (handle_event tb e))) <= 25)%nat /\
  letters_and_spaces (text (fst (handle_event tb e))) = true.
Proof.
  intros Hone Hlen Hok. unfold handle_event.
  destruct (type e); try (now split).
  destruct (key e); [| now split |].
  - cbn [fst text]. split.
    + pose proof (drop_last_length (text tb)). lia.
    + now apply all_chars_drop_last.
  - destruct (Nat.ltb_spec (String.length (text tb)) 25) as [Hlt|_]; [|now split].
    destruct (isalpha (unicode e) || isspace (unicode e)) eqn:Hacc; [|now split].
    cbn [fst text]. split.
    + rewrite append_length. unfold one_char in Hone. apply Nat.leb_le in Hone. lia.
    + unfold letters_and_spaces. rewrite all_chars_app. fold (letters_and_spaces (text tb)).
      rewrite Hok. cbn [andb].
      apply orb_true_iff in Hacc. unfold isalpha, isspace in Hacc.
      destruct Hacc as [H|H]; apply andb_true_iff in H; destruct H as [_ H];
        revert H; apply all_chars_weaken; intros c Hc; rewrite Hc;
        [reflexivity|apply orb_true_r].
Qed.

(** X14: the text box under typing.  From the empty box, after any run
    of events each carrying at most one character, the text has at most
    25 characters, all of them letters or whitespace; and whenever
    [handle_event] returns [False] it has left the box as it was. *)
Theorem textbox_typing (events : list Event)
        (Hone : forallb one_char events = true) :
  (String.length (text (typed TextBox_init events)) <= 25)%nat /\
  letters_and_spaces (text (typed TextBox_init events)) = true /\
  forall tb e, snd (handle_event tb e) = false -> fst (handle_event tb e) = tb.
Proof.
  split; [|split].
  - assert (G : forall tb,
               (String.length (text tb) <= 25)%nat ->
               letters_and_spaces (text tb) = true ->
               (String.length (text (typed tb events)) <= 25)%nat).
    { induction events as [|e events IH]; intros tb Hl Hk; simpl; [assumption|].
      simpl in Hone. apply andb_true_iff in Hone. destruct Hone as [He Hes].
      destruct (handle_event_keeps tb e He Hl Hk). now apply IH. }
    apply G; [simpl; lia|reflexivity].
  - assert (G : forall tb,
               (String.length (text tb) <= 25)%nat ->
               letters_and_spaces (text tb) = true ->
               letters_and_spaces (text (typed tb events)) = true).
    { induction events as [|e events IH]; intros tb Hl Hk; simpl; [assumption|].
      simpl in Hone. apply andb_true_iff in Hone. destruct Hone as [He Hes].
      destruct (handle_event_keeps tb e He Hl Hk). now apply IH. }
    apply G; [simpl; lia|reflexivity].
  - intros tb e. unfold handle_event.
    destruct (type e); try reflexivity.
    destruct (key e); try reflexivity; [discriminate|].
    destruct (String.length (text tb) <? 25)%nat; [|reflexivity].
    destruct (isalpha (unicode e) || isspace (unicode e)); [discriminate|reflexivity].
Qed.

Lemma textbox_typing_witness :
  forallb one_char [mkEvent KEYDOWN OTHER_KEY "c"; mkEvent KEYDOWN OTHER_KEY "1";
                    mkEvent KEYDOWN OTHER_KEY "a"; mkEvent KEYDOWN K_BACKSPACE "";
                    mkEvent KEYDOWN OTHER_KEY " "] = true /\
  (String.length
     (text (typed TextBox_init
              [mkEvent KEYDOWN OTHER_KEY "c"; mkEvent KEYDOWN OTHER_KEY "1";
               mkEvent KEYDOWN OTHER_KEY "a"; mkEvent KEYDOWN K_BACKSPACE "";
               mkEvent KEYDOWN OTHER_KEY " "])) <= 25)%nat /\
  letters_and_spaces
    (text (typed TextBox_init
             [mkEvent KEYDOWN OTHER_KEY "c"; mkEvent KEYDOWN OTHER_KEY "1";
              mkEvent KEYDOWN OTHER_KEY "a"; mkEvent KEYDOWN K_BACKSPACE "";
              mkEvent KEYDOWN OTHER_KEY " "])) = true /\
  forall tb e, snd (handle_event tb e) = false -> fst (handle_event tb e) = tb.
Proof.
  split; [reflexivity|].
  apply (textbox_typing [mkEvent KEYDOWN OTHER_KEY "c"; mkEvent KEYDOWN OTHER_KEY "1";
                         mkEvent KEYDOWN OTHER_KEY "a"; mkEvent KEYDOWN K_BACKSPACE "";
                         mkEvent KEYDOWN OTHER_KEY " "]).
  reflexivity.
Defined.

Example typing_example :
  text (typed TextBox_init
          [mkEvent KEYDOWN OTHER_KEY "c"; mkEvent KEYDOWN OTHER_KEY "1";
           mkEvent KEYDOWN OTHER_KEY "a"; mkEvent KEYDOWN K_BACKSPACE "";
           mkEvent KEYDOWN OTHER_KEY " "; mkEvent KEYDOWN K_RETURN "";
           mkEvent KEYDOWN OTHER_KEY "B"]) = "c B"%string.
Proof. reflexivity. Qed.

Lemma update_iter (k : nat) (s : string) (timer : Z) :
  (0 <= timer < 30)%Z ->
  Nat.iter k update (mkTextBox s timer) = mkTextBox s ((timer + Z.of_nat k) mod 30).
Proof.
  intros Ht. induction k as [|k IH].
  - simpl. rewrite Z.add_0_r, Z.mod_small by lia. reflexivity.
  - rewrite Nat.iter_succ, IH. unfold update. cbn [text cursor_timer]. f_equal.
    rewrite Nat2Z.inj_succ.
    destruct (Z.leb_spec 30 ((timer + Z.of_nat k) mod 30 + 1));
      Z.div_mod_to_equations; lia.
Qed.

(** X15: the cursor timer.  With the timer between 0 and 29, [k] calls
    of [update] leave the text as it is and the timer at
    [(timer + k) mod 30]; so the timer stays between 0 and 29 and is
    back where it was after 30 calls. *)
Theorem cursor_timer_cycle (tb : TextBox) (k : nat)
        (Htimer : (0 <= cursor_timer tb < 30)%Z) :
  Nat.iter k update tb
  = mkTextBox (text tb) ((cursor_timer tb + Z.of_nat k) mod 30) /\
  (0 <= cursor_timer (Nat.iter k update tb) < 30)%Z /\
  Nat.iter 30 update tb = tb.
Proof.
  destruct tb as [s timer]. cbn [text cursor_timer] in *.
  split; [now apply update_iter|]. split.
  - rewrite update_iter by assumption. cbn [cursor_timer].
    apply Z.mod_pos_bound. lia.
  - rewrite update_iter by assumption. f_equal.
    change (Z.of_nat 30) with 30%Z. Z.div_mod_to_equations. lia.
Qed.

Lemma cursor_timer_cycle_witness :
  (0 <= cursor_timer (mkTextBox "ca" 17) < 30)%Z /\
  Nat.iter 20 update (mkTextBox "ca" 17)
  = mkTextBox (text (mkTextBox "ca" 17))
              ((cursor_timer (mkTextBox "ca" 17) + Z.of_nat 20) mod 30) /\
  (0 <= cursor_timer (Nat.iter 20 update (mkTextBox "ca" 17)) < 30)%Z /\
  Nat.iter 30 update (mkTextBox "ca" 17) = mkTextBox "ca" 17.
Proof.
  split; [simpl; lia|].
  apply (cursor_timer_cycle (mkTextBox "ca" 17) 20). simpl. lia.
Defined.

(* ------------------------------------------------------------------ *)
(** ** One query of the application *)

Lemma strip_blank (s : string) : all_chars char_isspace s = true -> strip s = ""%string.
Proof.
  unfold strip. induction s as [|c s IH]; simpl; [reflexivity|].
  intros H. apply andb_true_iff in H. destruct H as [Hc Hs].
  rewrite Hc. now apply IH.
Qed.

(** A search and the highlighting for the same prefix. *)
Lemma query_marks (t : Trie) (p : string) :
  words_present (root t) = true ->
  exists res found,
    get_suggestions t p = Returns (res, found) /\
    forall w, In w res ->
              exists q n, In (q, n) (all_nodes (highlight_path t p)) /\
                          is_end_of_word n = true /\ word n = Some w /\
                          is_in_subtree n = true.
Proof.
  intros Hwords.
  assert (Hcontent : content (root (highlight_path t p)) = content (root t))
    by apply content_highlight_path.
  destruct p as [|c0 p0].
  { exists [], None. split; [reflexivity|]. intros w []. }
  unfold get_suggestions. unfold highlight_path in *. cbn [root] in *.
  set (chars := lower (String c0 p0)) in *.
  destruct (walk (root t) chars) as [node|] eqn:Hw.
  2:{ exists [], None. split; [reflexivity|]. intros w []. }
  destruct (all_str_Some (_collect_all_words node [] 8)) as (res & -> & Eres).
  { intros o Ho.
    destruct (collect_sound node chars 8 o Ho) as (q & n & Hin & He & <-).
    apply (words_present_below (root t) ""%string q n Hwords); [|assumption].
    exact (walk_nodes_from _ _ ""%string node _ _ Hw Hin). }
  exists (sorted_by key_leb res), (Some node). split; [reflexivity|].
  intros w Hin. apply sorted_by_In in Hin.
  destruct (collect_sound node chars 8 (Some w)) as (q & n & Hn & He & Hword).
  { rewrite Eres. now apply in_map. }
  destruct (highlight_from_end chars (_reset_highlights (root t)))
    as (term & Hterm & Hall).
  { rewrite reset_walk, Hw. discriminate. }
  assert (Eterm : content node = content term).
  { pose proof (walk_content chars
                  (highlight_from (_reset_highlights (root t)) chars)) as H1.
    rewrite Hcontent, walk_content, Hw, Hterm in H1. now injection H1. }
  destruct (same_content_nodes term node chars q n Eterm Hn)
    as (n0 & Hn0 & He0 & Hw0).
  exists q, n0. split; [|split; [congruence|split; [congruence|]]].
  - unfold all_nodes. cbn [root].
    exact (walk_nodes_from _ _ ""%string term _ _ Hterm Hn0).
  - exact (Hall _ _ _ Hn0).
Qed.

(** X16: one query shows what it marks.  On a tree whose terminal nodes
    have their word, [update_autocomplete] returns; it leaves the text
    box and the content of the tree as they were; and every word it puts
    in [current_suggestions] is the word of a terminal node that
    [highlight_path] has marked [is_in_subtree]. *)
Theorem suggestions_are_marked (app : AutocompleteApp)
        (Hwords : words_present (root (trie app)) = true) :
  exists app',
    update_autocomplete app = Returns app' /\
    textbox app' = textbox app /\
    content (root (trie app')) = content (root (trie app)) /\
    forall w, In w (current_suggestions app') ->
              exists q n, In (q, n) (all_nodes (trie app')) /\
                          is_end_of_word n = true /\ word n = Some w /\
                          is_in_subtree n = true.
Proof.
  unfold update_autocomplete.
  destruct (query_marks (trie app) (get_text (textbox app)) Hwords)
    as (res & found & -> & Hmarked).
  eexists. split; [reflexivity|]. cbn [textbox trie current_suggestions].
  split; [reflexivity|]. split; [apply content_highlight_path|exact Hmarked].
Qed.

Lemma suggestions_are_marked_witness :
  words_present
    (root (trie (mkAutocompleteApp (trie AutocompleteApp_init) TrieVisualizer_init
                                   (mkTextBox " Ca " 0) []))) = true /\
  exists app',
    update_autocomplete
      (mkAutocompleteApp (trie AutocompleteApp_init) TrieVisualizer_init
                         (mkTextBox " Ca " 0) []) = Returns app' /\
    textbox app' = textbox (mkAutocompleteApp (trie AutocompleteApp_init)
                                              TrieVisualizer_init
                                              (mkTextBox " Ca " 0) []) /\
    content (root (trie app'))
    = content (root (trie (mkAutocompleteApp (trie AutocompleteApp_init)
                                             TrieVisualizer_init
                                             (mkTextBox " Ca " 0) []))) /\
    forall w, In w (current_suggestions app') ->
              exists q n, In (q, n) (all_nodes (trie app')) /\
                          is_end_of_word n = true /\ word n = Some w /\
                          is_in_subtree n = true.
Proof.
  split; [vm_compute; reflexivity|].
  apply (suggestions_are_marked
           (mkAutocompleteApp (trie AutocompleteApp_init) TrieVisualizer_init
                              (mkTextBox " Ca " 0) [])).
  vm_compute. reflexivity.
Defined.

Example query_example :
  option_map current_suggestions
    (match update_autocomplete
             (mkAutocompleteApp (trie AutocompleteApp_init) TrieVisualizer_init
                                (mkTextBox " Ca " 0) []) with
     | Returns app' => Some app'
     | Raises_TypeError => None
     end)
  = Some ["car"; "cat"; "cara"; "cari"].
Proof. reflexivity. Qed.

(** X17: a text box that holds nothing but whitespace, or nothing, gets
    no suggestion and no mark: whatever the tree, [update_autocomplete]
    returns with [current_suggestions] empty and every flag of every node
    false. *)
Theorem blank_text_clears (app : AutocompleteApp)
        (Hblank : all_chars char_isspace (text (textbox app)) = true) :
  exists app',
    update_autocomplete app = Returns app' /\
    current_suggestions app' = [] /\
    all_clear (trie app') = true /\
    textbox app' = textbox app.
Proof.
  unfold update_autocomplete, get_text. rewrite (strip_blank _ Hblank).
  eexists. split; [reflexivity|]. cbn [current_suggestions trie textbox].
  split; [reflexivity|]. split; [|reflexivity].
  apply forallb_forall. intros [q n] Hin. exact (reset_no_flag _ _ _ _ Hin).
Qed.

Lemma blank_text_clears_witness :
  all_chars char_isspace
    (text (textbox (mkAutocompleteApp
                      (highlight_path (trie AutocompleteApp_init) "ca")
                      TrieVisualizer_init (mkTextBox "   " 3) ["car"]))) = true /\
  exists app',
    update_autocomplete
      (mkAutocompleteApp (highlight_path (trie AutocompleteApp_init) "ca")
                         TrieVisualizer_init (mkTextBox "   " 3) ["car"])
    = Returns app' /\
    current_suggestions app' = [] /\
    all_clear (trie app') = true /\
    textbox app'
    = textbox (mkAutocompleteApp (highlight_path (trie AutocompleteApp_init) "ca")
                                 TrieVisualizer_init (mkTextBox "   " 3) ["car"]).
Proof.
  split; [reflexivity|].
  apply (blank_text_clears
           (mkAutocompleteApp (highlight_path (trie AutocompleteApp_init) "ca")
                              TrieVisualizer_init (mkTextBox "   " 3) ["car"])).
  reflexivity.
Defined.

(* ------------------------------------------------------------------ *)
(** ** What an insertion leaves alone, and what it creates *)

Lemma same_place_refl (n : TrieNode) : same_place n n.
Proof. now repeat split. Qed.

(** A node that was there is still there, where it was. *)
Lemma insert_from_walk (chars w : string) :
  forall node q n,
    walk node q = Some n ->
    exists n',
      walk (insert_from node chars w) q = Some n' /\
      same_place n n' /\
      (is_end_of_word n = true -> is_end_of_word n' = true) /\
      (q <> chars -> is_end_of_word n' = is_end_of_word n /\ word n' = word n).
Proof.
  induction chars as [|c rest IH]; intros node q n Hw;
    cbn [insert_from].
  - destruct q as [|k q'].
    + injection Hw as <-. exists (set_word node w).
      split; [reflexivity|]. split; [now repeat split|]. split; [reflexivity|].
      now intros H.
    + exists n. split; [exact Hw|]. split; [apply same_place_refl|]. now split.
  - destruct q as [|k q'].
    + injection Hw as <-. eexists. split; [reflexivity|].
      split; [now repeat split|]. now split.
    + cbn [walk set_children children] in *.
      destruct (Ascii.eqb_spec k c) as [->|Hne].
      * rewrite dict_get_set_same.
        destruct (dict_get c (children node)) as [child|]; [|discriminate].
        destruct (IH child q' n Hw) as (n' & Hw' & Hp & He & Hother).
        exists n'. split; [assumption|]. split; [assumption|]. split; [assumption|].
        intros Hq. apply Hother. congruence.
      * rewrite (dict_get_set_other k c) by assumption.
        exists n. split; [exact Hw|]. split; [apply same_place_refl|]. now split.
Qed.

(** The nodes of the chain an insertion creates from a new node. *)
Lemma insert_from_chain (chars w : string) :
  forall m q n',
    children m = [] -> x m = 0%Z -> y m = 0%Z -> no_flag m = true ->
    walk (insert_from m chars w) q = Some n' ->
    x n' = 0%Z /\ y n' = 0%Z /\ no_flag n' = true /\ String.prefix q chars = true.
Proof.
  induction chars as [|c rest IH]; intros m q n' Hc Hx Hy Hf Hw; cbn [insert_from] in Hw.
  - destruct q as [|k q']; simpl in Hw.
    + injection Hw as <-. now repeat split.
    + now rewrite Hc in Hw.
  - destruct q as [|k q']; cbn [walk set_children children] in Hw.
    + injection Hw as <-. now repeat split.
    + rewrite Hc in Hw. simpl in Hw.
      destruct (Ascii.eqb_spec k c) as [->|_]; [|discriminate].
      rewrite prefix_cons_same.
      now apply (IH (TrieNode_init c) q' n').
Qed.

(** A node that was not there is created at the origin, with no flag, on
    the path of the word. *)
Lemma insert_from_fresh (chars w : string) :
  forall node q n',
    walk node q = None ->
    walk (insert_from node chars w) q = Some n' ->
    x n' = 0%Z /\ y n' = 0%Z /\ no_flag n' = true /\ String.prefix q chars = true.
Proof.
  induction chars as [|c rest IH]; intros node q n' Hnone Hw; cbn [insert_from] in Hw.
  - destruct q as [|k q']; [discriminate Hnone|].
    simpl in Hw, Hnone. congruence.
  - destruct q as [|k q']; [discriminate Hnone|].
    cbn [walk set_children children] in *.
    destruct (Ascii.eqb_spec k c) as [->|Hne].
    + rewrite dict_get_set_same in Hw. rewrite prefix_cons_same.
      destruct (dict_get c (children node)) as [child|].
      * exact (IH child q' n' Hnone Hw).
      * now apply (insert_from_chain rest w (TrieNode_init c) q' n').
    + rewrite (dict_get_set_other k c) in Hw by assumption. congruence.
Qed.

(** X18: what an insertion leaves alone and what it creates.  Every
    node the lookup loop reached before [insert] it reaches after, with
    the same character, coordinates and flags; a terminal node stays
    terminal, and away from the path of the inserted word it keeps its
    word.  A node that is reached only after the insertion lies on the
    path of the lowercased word, at the origin (0, 0), with no flag. *)
Theorem insert_keeps_nodes (t : Trie) (w q : string) :
  (forall n, walk (root t) q = Some n ->
             exists n',
               walk (root (insert t w)) q = Some n' /\
               same_place n n' /\
               (is_end_of_word n = true -> is_end_of_word n' = true) /\
               (q <> lower w ->
                is_end_of_word n' = is_end_of_word n /\ word n' = word n)) /\
  (forall n', walk (root t) q = None ->
              walk (root (insert t w)) q = Some n' ->
              x n' = 0%Z /\ y n' = 0%Z /\ no_flag n' = true /\
              String.prefix q (lower w) = true).
Proof.
  destruct w as [|c w].
  - split.
    + intros n Hw. exists n. split; [exact Hw|].
      split; [apply same_place_refl|]. now split.
    + intros n' Hnone Hw. simpl in Hw. congruence.
  - unfold insert. cbn [root]. split.
    + intros n Hw. now apply insert_from_walk.
    + intros n' Hnone Hw. exact (insert_from_fresh _ _ _ _ _ Hnone Hw).
Qed.

(* ------------------------------------------------------------------ *)
(** ** No dead branches *)

Lemma count_terminal_inhabited (m : TrieNode) (path : string) :
  (1 <= count_terminal m)%nat ->
  exists q n, In (q, n) (nodes_from m path) /\ is_end_of_word n = true.
Proof.
  unfold count_terminal. intros H.
  destruct (filter is_end_of_word (descendants m)) as [|n l] eqn:E; [simpl in H; lia|].
  assert (Hn : In n (filter is_end_of_word (descendants m))) by (rewrite E; now left).
  apply filter_In in Hn. destruct Hn as [Hn He].
  unfold descendants in Hn. apply in_map_iff in Hn.
  destruct Hn as ([q n0] & <- & Hn).
  destruct (nodes_from_rebase _ _ path _ _ Hn) as [q2 H2].
  now exists q2, n0.
Qed.

Lemma insert_from_live (chars w : string) :
  forall node, live_below node -> live_below (insert_from node chars w).
Proof.
  induction chars as [|c rest IH]; intros node Hlive; cbn [insert_from].
  - exact Hlive.
  - set (child := match dict_get c (children node) with
                  | Some child => child
                  | None => TrieNode_init c
                  end).
    assert (Hchild : live_below child).
    { unfold child. destruct (dict_get c (children node)) as [ch|] eqn:Hg.
      - intros k g path q m Hg' Hm.
        destruct (nodes_from_rebase _ _ (snoc "" k) _ _ Hm) as [q2 H2].
        apply (Hlive c ch ""%string q2 m); [now apply dict_get_In|].
        apply in_nodes_from. right. now exists k, g.
      - intros k g path q m []. }
    assert (Htop : (1 <= count_terminal (insert_from child rest w))%nat).
    { rewrite count_insert_from. unfold child.
      destruct (dict_get c (children node)) as [ch|] eqn:Hg.
      - pose proof (Hlive c ch ""%string ""%string ch (dict_get_In _ _ _ Hg)
                          (in_nodes_from_top _ _)). lia.
      - rewrite is_word_from_init. lia. }
    intros k g path q m Hg Hm. cbn [set_children children] in Hg.
    apply in_dict_set in Hg. destruct Hg as [E|Hg].
    + injection E as -> ->. apply in_nodes_from in Hm.
      destruct Hm as [[_ ->]|(k' & g' & Hg' & Hm)]; [exact Htop|].
      exact (IH child Hchild k' g' _ q m Hg' Hm).
    + exact (Hlive k g path q m Hg Hm).
Qed.

Lemma insert_all_live (ws : list string) :
  forall t, live_below (root t) -> live_below (root (insert_all t ws)).
Proof.
  induction ws as [|w ws IH]; intros t Ht; simpl; [assumption|].
  apply IH. destruct w as [|c w]; [assumption|].
  unfold insert. cbn [root]. now apply insert_from_live.
Qed.

(** X19: no dead branches.  On a tree built by insertions,
    [get_suggestions] returns an empty list exactly when it returns no
    terminating node, and that is exactly when the prefix is empty or
    some character of the lowercased prefix has no edge: a prefix that
    matches always has a suggestion. *)
Theorem matched_prefix_has_suggestions (ws : list string) (prefix : string) :
  exists res found,
    get_suggestions (insert_all Trie_init ws) prefix = Returns (res, found) /\
    (res = [] <-> found = None) /\
    (found = None <->
     prefix = ""%string \/
     walk (root (insert_all Trie_init ws)) (lower prefix) = None).
Proof.
  destruct prefix as [|c0 p0].
  { exists [], None. split; [reflexivity|]. split; [tauto|]. split; auto. }
  destruct (walk (root (insert_all Trie_init ws)) (lower (String c0 p0)))
    as [node|] eqn:Hw.
  2:{ exists [], None. split; [unfold get_suggestions; now rewrite Hw|].
      split; [tauto|]. split; auto. }
  destruct (get_suggestions_found ws c0 p0 node Hw) as (res & Ecoll & Eget & _).
  exists (sorted_by key_leb res), (Some node). split; [assumption|].
  assert (Hne : res <> []).
  { assert (Hlive : live_below (root (insert_all Trie_init ws))).
    { apply insert_all_live. intros k child path q m []. }
    assert (Hcount : (1 <= count_terminal node)%nat).
    { pose proof Hw as Hw'. simpl in Hw'.
      destruct (dict_get (lower_char c0) (children (root (insert_all Trie_init ws))))
        as [child|] eqn:Hc; [|discriminate].
      apply (Hlive (lower_char c0) child ""%string (""%string ++ lower p0)%string node
                   (dict_get_In _ _ _ Hc)).
      exact (walk_in_nodes _ _ _ ""%string Hw'). }
    destruct (count_terminal_inhabited node ""%string Hcount) as (q & n & Hn & He).
    intros ->. simpl in Ecoll.
    pose proof (collect_complete 8 node ""%string [] ) as Hcomp.
    rewrite Ecoll in Hcomp. simpl in Hcomp.
    exact (Hcomp ltac:(lia) q n Hn He). }
  split; split.
  - intros E. exfalso. apply Hne.
    apply (f_equal (@List.length string)) in E. rewrite sorted_by_length in E.
    now destruct res.
  - discriminate.
  - discriminate.
  - intros [H|H]; discriminate.
Qed.

(* ------------------------------------------------------------------ *)
(** ** The flags and the colours, path by path *)

Lemma append_cancel_l (p a b : string) : (p ++ a)%string = (p ++ b)%string -> a = b.
Proof. induction p as [|c p IH]; simpl; [auto|]. intros E. injection E. auto. Qed.

(** In a tree keyed by the characters of the children, the lookup loop
    reaches every node, by its path. *)
Lemma keyed_walk (node : TrieNode) :
  forall path r n,
    (forall q m, In (q, m) (nodes_from node path) -> keyed_ok m = true) ->
    In ((path ++ r)%string, n) (nodes_from node path) ->
    walk node r = Some n.
Proof.
  induction node as [c cs e w px py pf sf IH] using TrieNode_ind.
  intros path r n Hkeys Hin.
  set (node := mkTrieNode c cs e w px py pf sf) in *.
  pose proof (Hkeys path node (in_nodes_from_top _ _)) as Htop.
  unfold keyed_ok in Htop. apply andb_true_iff in Htop. destruct Htop as [Hd _].
  apply in_nodes_from in Hin. destruct Hin as [[E ->]|(k & child & Hc & Hin)].
  - rewrite <- (append_empty_r path) in E at 2. apply append_cancel_l in E.
    now subst r.
  - destruct (nodes_from_prefix _ _ _ _ Hin) as [r' E].
    rewrite snoc_append in E. apply append_cancel_l in E. subst r.
    cbn [children] in Hc, Hd. unfold node. cbn [walk children].
    rewrite (distinct_dict_get k child cs Hd Hc).
    rewrite Forall_forall in IH. apply (IH _ Hc (snoc path k)).
    + intros q m Hm. apply (Hkeys q). apply in_nodes_from. right. now exists k, child.
    + now rewrite snoc_append.
Qed.

(** X20: what a query marks, path by path.  On a tree keyed by the
    characters of the children (as every tree the engine builds), after
    [highlight_path] with a non-empty prefix, a node has [is_path_node]
    exactly when its path is a non-empty prefix of the lowercased prefix,
    and [is_in_subtree] exactly when the lowercased prefix is a prefix of
    its path; so [_draw_node] and [_draw_edges] select the path colours
    for the former, the subtree colours for the rest of the latter, and
    the plain colours for every other node. *)
Theorem flags_by_path (t : Trie) (prefix : string)
        (Hkeys : well_keyed t = true) (Hne : prefix <> ""%string) :
  forall q n, In (q, n) (all_nodes (highlight_path t prefix)) ->
    is_path_node n = nonempty q && String.prefix q (lower prefix) /\
    is_in_subtree n = String.prefix (lower prefix) q /\
    node_style n
    = (if nonempty q && String.prefix q (lower prefix)
       then (HIGHLIGHT_COLOR, BLUE, 3%Z)
       else if String.prefix (lower prefix) q then ((220, 255, 220)%Z, GREEN, 2%Z)
            else (WHITE, BLACK, 1%Z)) /\
    edge_style n
    = (if nonempty q && String.prefix q (lower prefix) then (BLUE, 3%Z)
       else if String.prefix (lower prefix) q then (GREEN, 2%Z)
            else (EDGE_COLOR, 1%Z)).
Proof.
  intros q n Hin.
  assert (Hk' : well_keyed (highlight_path t prefix) = true).
  { apply (well_keyed_same_content t); [apply content_highlight_path|assumption]. }
  assert (Hwalk : walk (root (highlight_path t prefix)) q = Some n).
  { apply (keyed_walk _ ""%string q n); [|exact Hin].
    intros q0 m Hm. unfold well_keyed in Hk'. rewrite forallb_forall in Hk'.
    exact (Hk' _ Hm). }
  destruct prefix as [|c0 p0]; [contradiction|].
  unfold highlight_path, all_nodes in *. cbn [root] in *.
  set (chars := lower (String c0 p0)) in *.
  set (cleared := _reset_highlights (root t)) in *.
  destruct (highlight_from_flags chars cleared ""%string q n) as [Fp Fs];
    [apply reset_clear_below|now destruct (root t)|assumption|].
  assert (Hpath : is_path_node n = nonempty q && String.prefix q chars).
  { destruct (nonempty q && String.prefix q chars) eqn:E.
    - apply andb_true_iff in E. destruct E as [Hq Hp].
      apply (highlight_from_on_path chars cleared q n); [|assumption|assumption].
      intros ->. discriminate Hq.
    - destruct (is_path_node n); [|reflexivity].
      destruct (Fp eq_refl) as (q' & Eq & Hp & _ & Htop). simpl in Eq. subst q'.
      rewrite Hp, andb_true_r in E. destruct q as [|k q']; [|discriminate E].
      specialize (Htop eq_refl). unfold cleared in Htop.
      destruct (root t); discriminate Htop. }
  assert (Hsub : is_in_subtree n = String.prefix chars q).
  { destruct (String.prefix chars q) eqn:E.
    - destruct (prefix_inv _ _ E) as [r ->].
      destruct (walk_app _ _ _ _ Hwalk) as (term & Hterm & Hrest).
      destruct (highlight_from_end chars cleared) as (term' & Hterm' & Hall).
      { intros Hnone.
        rewrite (same_content_walk_none cleared _ chars
                   (content_highlight_from chars cleared) Hnone) in Hterm.
        discriminate. }
      rewrite Hterm in Hterm'. injection Hterm' as <-.
      exact (Hall chars _ n (walk_in_nodes _ _ _ chars Hrest)).
    - destruct (is_in_subtree n); [|reflexivity].
      destruct (Fs eq_refl) as [_ Hp]. simpl in Hp. congruence. }
  split; [exact Hpath|]. split; [exact Hsub|].
  unfold node_style, edge_style. rewrite Hpath, Hsub. split; reflexivity.
Qed.

Lemma flags_by_path_witness :
  well_keyed (insert_all Trie_init initial_words) = true /\
  "cx"%string <> ""%string /\
  forall q n,
    In (q, n) (all_nodes (highlight_path (insert_all Trie_init initial_words) "cx")) ->
    is_path_node n = nonempty q && String.prefix q (lower "cx") /\
    is_in_subtree n = String.prefix (lower "cx") q /\
    node_style n
    = (if nonempty q && String.prefix q (lower "cx")
       then (HIGHLIGHT_COLOR, BLUE, 3%Z)
       else if String.prefix (lower "cx") q then ((220, 255, 220)%Z, GREEN, 2%Z)
            else (WHITE, BLACK, 1%Z)) /\
    edge_style n
    = (if nonempty q && String.prefix q (lower "cx") then (BLUE, 3%Z)
       else if String.prefix (lower "cx") q then (GREEN, 2%Z)
            else (EDGE_COLOR, 1%Z)).
Proof.
  split; [vm_compute; reflexivity|]. split; [discriminate|].
  apply (flags_by_path (insert_all Trie_init initial_words) "cx").
  - vm_compute. reflexivity.
  - discriminate.
Defined.

(* ------------------------------------------------------------------ *)
(** ** The characters of the nodes *)

Lemma insert_from_chars (P : ascii -> bool) (chars w : string) :
  forall node path,
    (forall q n, In (q, n) (nodes_from node path) -> P (char n) = true) ->
    all_chars P chars = true ->
    forall q n, In (q, n) (nodes_from (insert_from node chars w) path) ->
                P (char n) = true.
Proof.
  induction chars as [|c rest IH]; intros node path Hall Hchars q n Hin;
    cbn [insert_from] in Hin.
  - apply in_nodes_from in Hin. destruct Hin as [[-> ->]|(k & child & Hc & Hin)].
    + exact (Hall path node (in_nodes_from_top _ _)).
    + apply (Hall q). apply in_nodes_from. right. now exists k, child.
  - simpl in Hchars. apply andb_true_iff in Hchars. destruct Hchars as [Hc0 Hrest].
    set (child := match dict_get c (children node) with
                  | Some child => child
                  | None => TrieNode_init c
                  end) in *.
    assert (Hchild : forall q0 n0, In (q0, n0) (nodes_from child (snoc path c)) ->
                                   P (char n0) = true).
    { intros q0 n0 H0. unfold child in H0.
      destruct (dict_get c (children node)) as [ch|] eqn:Hg.
      - apply (Hall q0). apply in_nodes_from. right. exists c, ch.
        split; [now apply dict_get_In|assumption].
      - destruct H0 as [E|[]]. now injection E as _ <-. }
    apply in_nodes_from in Hin. destruct Hin as [[-> ->]|(k & ch & Hc & Hin)].
    + exact (Hall path node (in_nodes_from_top _ _)).
    + cbn [set_children children] in Hc. apply in_dict_set in Hc.
      destruct Hc as [E|Hc].
      * injection E as -> ->. exact (IH child (snoc path c) Hchild Hrest q n Hin).
      * apply (Hall q). apply in_nodes_from. right. now exists k, ch.
Qed.

Lemma lower_all_lower (w : string) :
  all_chars (fun c => Ascii.eqb (lower_char c) c) (lower w) = true.
Proof.
  induction w as [|c w IH]; simpl; [reflexivity|].
  now rewrite lower_char_idem, Ascii.eqb_refl, IH.
Qed.

Lemma run_chars (t : Trie) (op : operation) :
  (forall q n, In (q, n) (all_nodes t) -> lower_char (char n) = char n) ->
  forall q n, In (q, n) (all_nodes (run t op)) -> lower_char (char n) = char n.
Proof.
  intros H q n Hin.
  assert (Hsame : content (root (run t op)) = content (root t) ->
                  lower_char (char n) = char n).
  { intros E. destruct (same_content_nodes_content _ _ _ _ _ E Hin) as (n0 & Hn0 & E0).
    rewrite (content_eq n0), (content_eq n) in E0. injection E0 as <- _.
    exact (H _ _ Hn0). }
  destruct op as [w|prefix|vis]; simpl in *.
  - destruct w as [|c w]; [now apply (H q)|].
    unfold all_nodes, insert in Hin. cbn [root] in Hin.
    apply Ascii.eqb_eq.
    apply (insert_from_chars (fun c => Ascii.eqb (lower_char c) c)
             (lower (String c w)) (lower (String c w)) (root t) ""%string)
      with (q := q); [|apply lower_all_lower|assumption].
    intros q0 n0 H0. apply Ascii.eqb_eq. exact (H _ _ H0).
  - apply Hsame, content_highlight_path.
  - apply Hsame, content_position_node.
Qed.

(** X21: the characters of the nodes are lowercase.  In every tree the
    engine builds no node has a [char] that [lower] would change; in
    particular no node has the character 'R', so [_draw_node] never
    selects [FONT_MEDIUM]. *)
Theorem node_chars_lowercase (ops : list operation) :
  Forall (fun qn => lower_char (char (snd qn)) = char (snd qn) /\
                    char (snd qn) <> "R"%char /\
                    node_font (snd qn) = FONT_SMALL)
         (all_nodes (fold_left run ops Trie_init)).
Proof.
  assert (G : forall q n, In (q, n) (all_nodes (fold_left run ops Trie_init)) ->
                          lower_char (char n) = char n).
  { assert (H0 : forall q n, In (q, n) (all_nodes Trie_init) ->
                             lower_char (char n) = char n).
    { intros q n [E|[]]. now injection E as _ <-. }
    revert H0. generalize Trie_init.
    induction ops as [|op ops IH]; simpl; intros t Ht; [assumption|].
    apply IH. now apply run_chars. }
  apply Forall_forall. intros [q n] Hin. cbn [snd]. specialize (G q n Hin).
  assert (HR : char n <> "R"%char).
  { intros E. rewrite E in G. discriminate G. }
  split; [assumption|]. split; [assumption|].
  unfold node_font. apply Ascii.eqb_neq in HR. now rewrite HR.
Qed.

(** X22: drawing does not move a laid-out tree.  After
    [calculate_node_positions] with the constants of the visualizer,
    [draw_structure] leaves the tree as it is: a tree with children it
    never touches, and a root without children it puts where the layout
    has put it. *)
Theorem draw_after_layout (t : Trie) :
  draw_structure TrieVisualizer_init
                 (calculate_node_positions TrieVisualizer_init t)
  = calculate_node_positions TrieVisualizer_init t /\
  forall vis t', children (root t') <> [] -> draw_structure vis t' = t'.
Proof.
  split.
  - destruct t as [[c cs e w px py pf sf]]. destruct cs as [|kc cs]; [reflexivity|].
    set (t' := calculate_node_positions TrieVisualizer_init _).
    assert (Hne : children (root t') <> []).
    { unfold t', calculate_node_positions. cbn [root].
      rewrite position_node_children. unfold enumerate. simpl. discriminate. }
    unfold draw_structure. destruct (children (root t')); [contradiction|reflexivity].
  - intros vis t' Hne. unfold draw_structure.
    destruct (children (root t')); [contradiction|reflexivity].
Qed.

(* ------------------------------------------------------------------ *)
(** ** The search in terms of the set of words *)

Lemma dfs_words_eq (node : TrieNode) :
  dfs_words node
  = (if is_end_of_word node then [word node] else [])
      ++ flat_map (fun kc => dfs_words (snd kc))
           (sorted_by (fun a b : ascii * TrieNode => Ascii.leb (fst a) (fst b))
                      (children node)).
Proof.
  destruct node as [c cs e w px py pf sf]. cbn [dfs_words is_end_of_word word children].
  f_equal.
  rewrite (sorted_by_map (fun a b : ascii * TrieNode => Ascii.leb (fst a) (fst b))
             (fun a b => Ascii.leb (fst a) (fst b))
             (fun kc => (fst kc, dfs_words (snd kc)))) by reflexivity.
  now rewrite flat_map_concat_map, map_map, <- flat_map_concat_map.
Qed.

Lemma firstn_firstn_app {A : Type} (m : nat) (a b : list A) :
  firstn m (firstn m a ++ b) = firstn m (a ++ b).
Proof.
  destruct (Nat.le_gt_cases m (List.length a)) as [H|H].
  - rewrite !firstn_app, length_firstn.
    replace (m - Nat.min m (List.length a))%nat with 0%nat by lia.
    replace (m - List.length a)%nat with 0%nat by lia.
    simpl. now rewrite !app_nil_r, firstn_firstn, Nat.min_id.
  - now rewrite (firstn_all2 a) by lia.
Qed.

(** The capped collection takes the first [max_words] of what the
    uncapped one meets. *)
Lemma collect_firstn (node : TrieNode) :
  forall words max_words,
    (List.length words <= max_words)%nat ->
    _collect_all_words node words max_words
    = firstn max_words (words ++ dfs_words node).
Proof.
  induction node as [c cs e w px py pf sf IH] using TrieNode_ind.
  intros words m Hlen. rewrite collect_eq, dfs_words_eq.
  cbn [children is_end_of_word word].
  destruct (Nat.leb_spec m (List.length words)) as [Hcap|Hcap].
  - rewrite firstn_app. replace (m - List.length words)%nat with 0%nat by lia.
    simpl. rewrite app_nil_r. now rewrite firstn_all2 by lia.
  - rewrite (sorted_by_map (fun a b : ascii * TrieNode => Ascii.leb (fst a) (fst b))
               (fun a b => Ascii.leb (fst a) (fst b))
               (fun kc => (fst kc, _collect_all_words (snd kc)))) by reflexivity.
    rewrite app_assoc.
    assert (Hlen' : (List.length (words ++ (if e then [w] else [])) <= m)%nat)
      by (rewrite length_app; destruct e; simpl; lia).
    replace (if e then words ++ [w] else words)
      with (words ++ (if e then [w] else []))
      by (destruct e; [reflexivity|apply app_nil_r]).
    revert Hlen'. generalize (words ++ (if e then [w] else [])).
    assert (Hs : forall kc,
               In kc (sorted_by (fun a b : ascii * TrieNode => Ascii.leb (fst a) (fst b)) cs) ->
               forall ws, (List.length ws <= m)%nat ->
                          _collect_all_words (snd kc) ws m
                          = firstn m (ws ++ dfs_words (snd kc))).
    { intros kc Hin. apply sorted_by_In in Hin. rewrite Forall_forall in IH. auto. }
    revert Hs.
    generalize (sorted_by (fun a b : ascii * TrieNode => Ascii.leb (fst a) (fst b)) cs).
    intros l. induction l as [|kc l IHl]; intros Hs ws Hws; simpl.
    + rewrite app_nil_r. now rewrite firstn_all2 by lia.
    + rewrite Hs by (now left || assumption).
      rewrite IHl.
      * now rewrite firstn_firstn_app, <- app_assoc.
      * intros; apply Hs; [now right|assumption].
      * rewrite length_firstn. lia.
Qed.

(** What the uncapped collection meets: the words of the terminal nodes. *)
Lemma dfs_words_In (node : TrieNode) :
  forall path o,
    In o (dfs_words node) <->
    exists q n, In (q, n) (nodes_from node path) /\
                is_end_of_word n = true /\ word n = o.
Proof.
  induction node as [c cs e w px py pf sf IH] using TrieNode_ind.
  intros path o. rewrite dfs_words_eq. cbn [children is_end_of_word word].
  rewrite in_app_iff, in_flat_map. rewrite Forall_forall in IH. split.
  - intros [Htop|([k child] & Hc & Ho)].
    + destruct e; [|contradiction]. destruct Htop as [<-|[]].
      eexists _, _. split; [apply in_nodes_from_top|]. now split.
    + apply sorted_by_In in Hc. apply (IH _ Hc (snoc path k)) in Ho.
      destruct Ho as (q & n & Hn & He & Hw). exists q, n. split; [|now split].
      apply in_nodes_from. right. now exists k, child.
  - intros (q & n & Hn & He & Hw). apply in_nodes_from in Hn.
    destruct Hn as [[-> ->]|(k & child & Hc & Hn)].
    + left. simpl in He, Hw. subst e. now left.
    + right. exists (k, child). split; [now apply sorted_by_In|].
      apply (IH _ Hc (snoc path k)). now exists q, n.
Qed.

Lemma compare_append_l (p a b : string) :
  String.compare (p ++ a) (p ++ b) = String.compare a b.
Proof.
  induction p as [|c p IH]; simpl; [reflexivity|].
  unfold Ascii.compare. now rewrite N.compare_refl.
Qed.

Lemma lex_lt_extension (p : string) (k : ascii) (r : string) :
  lex_lt p (p ++ String k r).
Proof.
  unfold lex_lt, String.ltb. rewrite <- (append_empty_r p) at 1.
  now rewrite compare_append_l.
Qed.

Lemma lex_lt_branches (p : string) (k1 k2 : ascii) (r1 r2 : string) :
  Ascii.ltb k1 k2 = true -> lex_lt (p ++ String k1 r1) (p ++ String k2 r2).
Proof.
  unfold lex_lt, String.ltb, Ascii.ltb. rewrite compare_append_l. simpl.
  now destruct (Ascii.compare k1 k2).
Qed.

Lemma StronglySorted_app {A : Type} (R : A -> A -> Prop) (l1 l2 : list A) :
  StronglySorted R l1 -> StronglySorted R l2 ->
  (forall a b, In a l1 -> In b l2 -> R a b) ->
  StronglySorted R (l1 ++ l2).
Proof.
  induction 1 as [|a l1 H1 IH Ha]; simpl; intros H2 Hcross; [assumption|].
  constructor.
  - apply IH; [assumption|]. intros; apply Hcross; [now right|assumption].
  - rewrite Forall_forall in Ha |- *. intros b Hb. apply in_app_or in Hb.
    destruct Hb as [Hb|Hb]; [auto|]. apply Hcross; [now left|assumption].
Qed.

Lemma distinct_NoDup (l : list ascii) : distinct l = true -> NoDup l.
Proof.
  induction l as [|a l IH]; simpl; intros H; constructor;
    apply andb_true_iff in H; destruct H as [Ha Hl]; [|auto].
  intros Hin. apply negb_true_iff in Ha.
  assert (existsb (Ascii.eqb a) l = true); [|congruence].
  apply existsb_exists. exists a. split; [assumption|apply Ascii.eqb_refl].
Qed.

(** The children in key order, with distinct keys, have strictly
    ascending keys. *)
Lemma sorted_children_strict (cs : list (ascii * TrieNode)) :
  distinct (map fst cs) = true ->
  StronglySorted (fun a b => Ascii.ltb (fst a) (fst b) = true)
                 (sorted_by (fun a b : ascii * TrieNode => Ascii.leb (fst a) (fst b)) cs).
Proof.
  intros Hd.
  assert (Hnd : NoDup (map fst (sorted_by (fun a b : ascii * TrieNode =>
                                             Ascii.leb (fst a) (fst b)) cs))).
  { apply (Permutation_NoDup (l := map fst cs)); [|now apply distinct_NoDup].
    apply Permutation_map, sorted_by_perm. }
  assert (Hs : StronglySorted (fun a b : ascii * TrieNode =>
                                 Ascii.leb (fst a) (fst b) = true)
                 (sorted_by (fun a b : ascii * TrieNode => Ascii.leb (fst a) (fst b)) cs)).
  { apply sorted_by_sorted.
    - intros a b. apply Ascii.leb_total.
    - intros a b c. apply ascii_leb_trans. }
  revert Hnd Hs.
  generalize (sorted_by (fun a b : ascii * TrieNode => Ascii.leb (fst a) (fst b)) cs).
  intros l Hnd Hs. induction Hs as [|a l Hl IH Ha]; constructor.
  - apply IH. now inversion Hnd.
  - rewrite Forall_forall in Ha |- *. intros b Hb.
    inversion Hnd as [|? ? Hnotin _]; subst.
    specialize (Ha b Hb). unfold Ascii.ltb, Ascii.leb in *.
    destruct (Ascii.compare (fst a) (fst b)) eqn:E; try congruence.
    apply Ascii.compare_eq_iff in E. exfalso. apply Hnotin. rewrite E.
    now apply in_map.
Qed.

(** In a tree keyed by the characters, whose terminal nodes hold their
    path, the uncapped collection meets the words in strictly ascending
    order. *)
Lemma dfs_words_sorted (node : TrieNode) :
  forall path,
    (forall q n, In (q, n) (nodes_from node path) ->
                 keyed_ok n = true /\ (is_end_of_word n = true -> word n = Some q)) ->
    StronglySorted opt_lex_lt (dfs_words node) /\
    forall o, In o (dfs_words node) ->
              o = Some path \/ exists k r, o = Some (path ++ String k r)%string.
Proof.
  induction node as [c cs e w px py pf sf IH] using TrieNode_ind.
  intros path Hinv.
  set (node := mkTrieNode c cs e w px py pf sf) in *.
  assert (Hshape : forall o, In o (dfs_words node) ->
                     o = Some path \/ exists k r, o = Some (path ++ String k r)%string).
  { intros o Ho. apply (dfs_words_In node path) in Ho.
    destruct Ho as (q & n & Hn & He & <-).
    destruct (Hinv q n Hn) as [_ Hw]. rewrite (Hw He).
    destruct (nodes_from_prefix _ _ _ _ Hn) as [r ->].
    destruct r as [|k r]; [left; now rewrite append_empty_r|right; now exists k, r]. }
  split; [|exact Hshape].
  rewrite dfs_words_eq. cbn [children is_end_of_word word node].
  destruct (Hinv path node (in_nodes_from_top _ _)) as [Hk Hw].
  unfold keyed_ok in Hk. apply andb_true_iff in Hk. destruct Hk as [Hd _].
  cbn [children node] in Hd.
  pose proof (sorted_children_strict cs Hd) as Hstrict.
  assert (Hchild : forall kc,
             In kc (sorted_by (fun a b : ascii * TrieNode => Ascii.leb (fst a) (fst b)) cs) ->
             StronglySorted opt_lex_lt (dfs_words (snd kc)) /\
             forall o, In o (dfs_words (snd kc)) ->
                       exists r, o = Some (path ++ String (fst kc) r)%string).
  { intros [k child] Hin. apply sorted_by_In in Hin. cbn [fst snd].
    rewrite Forall_forall in IH.
    destruct (IH _ Hin (snoc path k)) as [Hs Hsh].
    { intros q n Hn. apply Hinv. apply in_nodes_from. right. now exists k, child. }
    split; [exact Hs|]. intros o Ho.
    destruct (Hsh o Ho) as [->|(k' & r & ->)].
    - exists ""%string. unfold snoc. reflexivity.
    - exists (String k' r). now rewrite snoc_append. }
  revert Hstrict Hchild.
  generalize (sorted_by (fun a b : ascii * TrieNode => Ascii.leb (fst a) (fst b)) cs).
  intros l Hstrict Hchild.
  assert (Hrest : StronglySorted opt_lex_lt (flat_map (fun kc => dfs_words (snd kc)) l) /\
                  forall o, In o (flat_map (fun kc => dfs_words (snd kc)) l) ->
                            exists kc r, In kc l /\
                                         o = Some (path ++ String (fst kc) r)%string).
  { induction Hstrict as [|a l Hl IHl Ha]; simpl.
    - split; [constructor|]. intros o [].
    - destruct IHl as [Hs Hsh]; [intros; apply Hchild; now right|].
      destruct (Hchild a (or_introl eq_refl)) as [Hsa Hsha].
      split.
      + apply StronglySorted_app; [assumption|assumption|].
        intros o1 o2 H1 H2.
        destruct (Hsha o1 H1) as [r1 ->]. destruct (Hsh o2 H2) as (kc & r2 & Hkc & ->).
        rewrite Forall_forall in Ha. cbn [opt_lex_lt].
        apply lex_lt_branches. exact (Ha _ Hkc).
      + intros o Ho. apply in_app_or in Ho. destruct Ho as [Ho|Ho].
        * destruct (Hsha o Ho) as [r ->]. exists a, r. split; [now left|reflexivity].
        * destruct (Hsh o Ho) as (kc & r & Hkc & ->). exists kc, r.
          split; [now right|reflexivity]. }
  destruct Hrest as [Hs Hsh].
  apply StronglySorted_app; [| exact Hs |].
  - destruct e; repeat constructor.
  - intros o1 o2 H1 H2. destruct e; [|contradiction]. destruct H1 as [<-|[]].
    destruct (Hsh o2 H2) as (kc & r & _ & ->).
    specialize (Hw eq_refl). cbn [word node] in Hw. rewrite Hw.
    cbn [opt_lex_lt]. apply lex_lt_extension.
Qed.

Lemma insert_all_run (ws : list string) :
  forall t, insert_all t ws = fold_left run (map Insert ws) t.
Proof.
  unfold insert_all. induction ws as [|w ws IH]; simpl; intros t; [reflexivity|].
  apply IH.
Qed.

Lemma all_str_map_Some (l : list string) : all_str (map Some l) = Some l.
Proof. induction l as [|s l IH]; simpl; [reflexivity|]. now rewrite IH. Qed.

Lemma sorted_map_Some (l : list string) :
  StronglySorted opt_lex_lt (map Some l) -> StronglySorted lex_lt l.
Proof.
  induction l as [|s l IH]; simpl; intros H; [constructor|].
  inversion H as [|? ? Hl Hs]; subst. constructor; [auto|].
  rewrite Forall_forall in Hs |- *. intros b Hb.
  exact (Hs (Some b) (in_map Some _ _ Hb)).
Qed.

Lemma stored_In (ws : list string) (w : string) :
  In w (stored ws) <->
  exists w0, In w0 ws /\ w0 <> ""%string /\ w = lower w0.
Proof.
  unfold stored. rewrite in_map_iff. split.
  - intros (w0 & <- & Hin). apply filter_In in Hin. destruct Hin as [Hin Hne].
    exists w0. split; [assumption|]. split; [|reflexivity].
    intros ->. discriminate Hne.
  - intros (w0 & Hin & Hne & ->). exists w0. split; [reflexivity|].
    apply filter_In. split; [assumption|].
    unfold nonempty. destruct (String.eqb_spec w0 ""); [contradiction|reflexivity].
Qed.

(** The search on a tree built by insertions, in terms of the words
    stored. *)
Lemma search_spec (ws : list string) (c0 : ascii) (p0 : string) :
  exists L found,
    get_suggestions (insert_all Trie_init ws) (String c0 p0)
    = Returns (sorted_by key_leb (firstn 8 L), found) /\
    StronglySorted lex_lt L /\
    forall w, In w L <->
              In w (stored ws) /\ String.prefix (lower (String c0 p0)) w = true.
Proof.
  pose proof (from_words_insert_all ws [] Trie_init from_words_init) as Hinv.
  assert (Hkey : well_keyed (insert_all Trie_init ws) = true)
    by (rewrite insert_all_run; apply well_keyed_run_all).
  cbn [app] in Hinv.
  remember (insert_all Trie_init ws) as t eqn:Et.
  remember (lower (String c0 p0)) as lp eqn:Elp.
  destruct (walk (root t) lp) as [node|] eqn:Hwalk.
  - assert (Hnodes : forall q n, In (q, n) (nodes_from node lp) ->
                                 In (q, n) (all_nodes t)).
    { intros q n Hin. exact (walk_nodes_from _ _ ""%string node _ _ Hwalk Hin). }
    assert (Hsome : forall o, In o (dfs_words node) -> o <> None).
    { intros o Ho. apply (dfs_words_In node lp) in Ho.
      destruct Ho as (q & n & Hn & He & <-).
      destruct (Hinv q n (Hnodes _ _ Hn) He) as [-> _]. discriminate. }
    destruct (all_str_Some _ Hsome) as (L & _ & HL).
    exists L, (Some node). split; [|split].
    + unfold get_suggestions. rewrite <- Elp, Hwalk.
      rewrite collect_firstn by (simpl; lia). cbn [app].
      now rewrite HL, firstn_map, all_str_map_Some.
    + apply sorted_map_Some. rewrite <- HL.
      apply (dfs_words_sorted node lp). intros q n Hn. split.
      * unfold well_keyed in Hkey. rewrite forallb_forall in Hkey.
        exact (Hkey _ (Hnodes _ _ Hn)).
      * intros He. exact (proj1 (Hinv q n (Hnodes _ _ Hn) He)).
    + intros w. rewrite stored_In. split.
      * intros Hin. apply (in_map Some) in Hin. rewrite <- HL in Hin.
        apply (dfs_words_In node lp) in Hin.
        destruct Hin as (q & n & Hn & He & Hw).
        destruct (Hinv q n (Hnodes _ _ Hn) He) as [Hq (w0 & Hw0 & Eq)].
        assert (Ew : w = lower w0) by congruence.
        destruct (nodes_from_prefix _ _ _ _ Hn) as [r Er].
        split.
        -- exists w0. split; [assumption|]. split; [|assumption].
           intros ->. rewrite Elp, Eq in Er. simpl in Er. discriminate Er.
        -- rewrite Ew, <- Eq, Er. apply prefix_append.
      * intros [(w0 & Hw0 & Hne & ->) Hpre].
        assert (Hin : In (Some (lower w0)) (dfs_words node)).
        { apply (dfs_words_In node lp).
          destruct (inserted_word_node ws w0 Hw0 Hne) as (n & Hn & He & Hw).
          rewrite <- Et in Hn.
          destruct (prefix_inv _ _ Hpre) as [r Er]. rewrite Er in Hn.
          destruct (walk_app _ _ _ _ Hn) as (m & Hm & Hr).
          assert (m = node) by congruence. subst m.
          exists (lower w0), n. split; [|now split].
          rewrite Er. now apply walk_in_nodes. }
        rewrite HL in Hin. apply in_map_iff in Hin.
        destruct Hin as (x & Ex & Hx). injection Ex as ->. exact Hx.
  - exists [], None. split; [|split].
    + unfold get_suggestions. now rewrite <- Elp, Hwalk.
    + constructor.
    + intros w. rewrite stored_In. split; [intros []|].
      intros [(w0 & Hw0 & Hne & ->) Hpre]. exfalso.
      destruct (inserted_word_node ws w0 Hw0 Hne) as (n & Hn & _).
      rewrite <- Et in Hn.
      destruct (prefix_inv _ _ Hpre) as [r Er]. rewrite Er in Hn.
      destruct (walk_app _ _ _ _ Hn) as (m & Hm & _). congruence.
Qed.

Lemma lex_lt_irrefl (a : string) : ~ lex_lt a a.
Proof.
  unfold lex_lt, String.ltb. rewrite <- (append_empty_r a).
  now rewrite compare_append_l.
Qed.

Lemma lex_lt_asym (a b : string) : lex_lt a b -> ~ lex_lt b a.
Proof.
  unfold lex_lt, String.ltb. rewrite (String.compare_antisym a b).
  now destruct (String.compare b a).
Qed.

(** A strictly ascending list is determined by its elements. *)
Lemma sorted_unique (l1 : list string) :
  forall l2,
    StronglySorted lex_lt l1 -> StronglySorted lex_lt l2 ->
    (forall w, In w l1 <-> In w l2) -> l1 = l2.
Proof.
  induction l1 as [|a l1 IH]; intros [|b l2] H1 H2 Hiff.
  - reflexivity.
  - destruct (proj2 (Hiff b) (or_introl eq_refl)).
  - destruct (proj1 (Hiff a) (or_introl eq_refl)).
  - inversion H1 as [|? ? H1' Ha]; inversion H2 as [|? ? H2' Hb]; subst.
    rewrite Forall_forall in Ha, Hb.
    assert (a = b).
    { destruct (proj1 (Hiff a) (or_introl eq_refl)) as [E|Hin]; [now symmetry|].
      destruct (proj2 (Hiff b) (or_introl eq_refl)) as [E|Hin']; [assumption|].
      destruct (lex_lt_asym _ _ (Ha _ Hin') (Hb _ Hin)). }
    subst b. f_equal. apply IH; [assumption|assumption|].
    intros w. split; intros Hw.
    + destruct (proj1 (Hiff w) (or_intror Hw)) as [E|Hin]; [|assumption].
      subst w. destruct (lex_lt_irrefl _ (Ha _ Hw)).
    + destruct (proj2 (Hiff w) (or_intror Hw)) as [E|Hin]; [|assumption].
      subst w. destruct (lex_lt_irrefl _ (Hb _ Hw)).
Qed.

(** X23: the search in terms of the words stored.  On a tree built by
    insertions, for a prefix that is not empty, [get_suggestions] returns
    the first 8, in the order of string comparison, of the stored words
    that begin with the lowercased prefix, put in order of length and
    then of string comparison. *)
Theorem search_in_dictionary_order (ws : list string) (c0 : ascii) (p0 : string) :
  exists L found,
    get_suggestions (insert_all Trie_init ws) (String c0 p0)
    = Returns (sorted_by key_leb (firstn 8 L), found) /\
    StronglySorted lex_lt L /\
    forall w, In w L <->
              In w (stored ws) /\ String.prefix (lower (String c0 p0)) w = true.
Proof. apply search_spec. Qed.

(** X24: the suggestions do not depend on the order, the repetitions or
    the letter case of the insertions.  Two runs of insertions that store
    the same strings give, for every prefix, the same list of words. *)
Theorem search_order_independent (ws ws' : list string) (prefix : string)
        (Hsame : forall w, In w (stored ws) <-> In w (stored ws')) :
  words_of (get_suggestions (insert_all Trie_init ws) prefix)
  = words_of (get_suggestions (insert_all Trie_init ws') prefix).
Proof.
  destruct prefix as [|c0 p0]; [reflexivity|].
  destruct (search_spec ws c0 p0) as (L & found & -> & Hs & Hin).
  destruct (search_spec ws' c0 p0) as (L' & found' & -> & Hs' & Hin').
  assert (E : L = L'); [|now rewrite E].
  apply sorted_unique; [assumption|assumption|].
  intros w. rewrite Hin, Hin', Hsame. reflexivity.
Qed.

Lemma search_order_independent_witness :
  (forall w, In w (stored ["cat"; ""; "Car"; "cat"]%string)
             <-> In w (stored ["CAR"; "cat"]%string)) /\
  words_of (get_suggestions
              (insert_all Trie_init ["cat"; ""; "Car"; "cat"]%string) "c")
  = words_of (get_suggestions (insert_all Trie_init ["CAR"; "cat"]%string) "c").
Proof.
  assert (H : forall w, In w (stored ["cat"; ""; "Car"; "cat"]%string)
                        <-> In w (stored ["CAR"; "cat"]%string))
    by (intros w; cbv [stored filter nonempty map negb String.eqb Ascii.eqb Bool.eqb
                         lower lower_char]; simpl; tauto).
  split; [exact H|].
  exact (search_order_independent ["cat"; ""; "Car"; "cat"]%string
                                  ["CAR"; "cat"]%string "c" H).
Defined.
